(** * json-flatten: flatten, unflatten and filterByPath of [src/index.ts] *)

(** A shallow embedding of the core functions of the command line tool
    ([flatten], [unflatten], [filterByPath], [getStats] and the reading of
    the arguments in [main]) together with the parts of the JavaScript
    object model they rely on:
    own-property order of ordinary objects, array exotic objects with holes
    and named properties, [String.prototype.split], and the regular
    expressions the path filter builds.

    Strings are sequences of 8-bit characters and numbers are integers; the
    program compares and copies them and computes with neither.  The values
    of a flat mapping are taken to be unshared, as [JSON.parse] produces
    them. *)

From Equations Require Import Equations.
From Stdlib Require Import String Ascii List NArith ZArith Bool Arith Lia.
From Stdlib Require Decimal DecimalString DecimalN DecimalPos.
From Stdlib Require Import Permutation Sorted.

Import ListNotations.

Local Open Scope string_scope.
Local Open Scope list_scope.

Set Implicit Arguments.

(** String concatenation; [++] is kept for lists. *)
Infix "+++" := String.append (right associativity, at level 60).

Set Warnings "-register-all".

(** ** Outcome of a run *)

(** A call can end in three ways: it returns a value; it throws (a
    [TypeError] for a property access on [null] or, the file being an ES
    module and therefore strict code, for a property write on a primitive; a
    [SyntaxError] from [new RegExp]); or it reads or writes a property of one
    of the builtin objects ([Object.prototype] and the like, reached through
    an inherited property name, the [__proto__] accessor or the [length] of
    an array) or converts a numeric key at or above 2^53, where [parseInt]
    rounds.  Runs of the last kind are outside this model and are reported
    as [Exotic]. *)
Inductive error : Type := TypeError | SyntaxError.

Inductive outcome (A : Type) : Type :=
  | Returns (a : A)
  | Throws (e : error)
  | Exotic.

Arguments Throws {A}.
Arguments Exotic {A}.

Definition bind {A B} (m : outcome A) (k : A -> outcome B) : outcome B :=
  match m with
  | Returns a => k a
  | Throws e => Throws e
  | Exotic => Exotic
  end.

Notation "x <- m ;; k" := (bind m (fun x => k))
  (at level 61, m at next level, right associativity).

(** ** Strings *)

Module Str.

Definition is_digit (c : ascii) : bool :=
  let n := N_of_ascii c in ((48 <=? n) && (n <=? 57))%N.

Fixpoint all_chars (p : ascii -> bool) (s : string) : bool :=
  match s with
  | EmptyString => true
  | String c s' => p c && all_chars p s'
  end.

Fixpoint mem_char (a : ascii) (s : string) : bool :=
  match s with
  | EmptyString => false
  | String c s' => Ascii.eqb a c || mem_char a s'
  end.

(** [/^\d+$/.test(s)] *)
Definition is_numeric (s : string) : bool :=
  match s with
  | EmptyString => false
  | _ => all_chars is_digit s
  end.

(** [parseInt(s)] for a string of decimal digits (the only strings the
    program hands to it, below 2^53 where a Number is exact). *)
Definition parseInt (s : string) : N :=
  match DecimalString.NilEmpty.uint_of_string s with
  | Some u => N.of_uint u
  | None => 0%N
  end.

(** [`${i}`] for a non-negative integer [i]. *)
Definition of_index (n : N) : string :=
  DecimalString.NilEmpty.string_of_uint (N.to_uint n).

(** A canonical array index: the decimal form, without leading zeros, of
    an integer below 2^32 - 1. *)
Definition is_array_index (s : string) : bool :=
  is_numeric s && (of_index (parseInt s) =? s) && (parseInt s <? 4294967295)%N.

Fixpoint skip (n : nat) (s : string) : string :=
  match n, s with
  | O, _ => s
  | S n', String _ s' => skip n' s'
  | S _, EmptyString => EmptyString
  end.

(** [s.split(d)] for a separator [d = String a d'] that is not empty: scan
    [s] from the left; [acc] is the piece read since the last separator. *)
Equations? split_at (a : ascii) (d' : string) (acc s : string) : list string
  by wf (String.length s) lt :=
  split_at a d' acc EmptyString := [acc];
  split_at a d' acc (String c s') :=
    if Ascii.eqb a c && String.prefix d' s'
    then acc :: split_at a d' EmptyString (skip (String.length d') s')
    else split_at a d' (acc +++ String c EmptyString) s'.
Proof.
  all: assert (shorter : forall n t, String.length (skip n t) <= String.length t)
    by (intro n; induction n; intros [|? ?]; simpl; auto);
    specialize (shorter (String.length d') s'); lia.
Qed.

Fixpoint chars (s : string) : list string :=
  match s with
  | EmptyString => []
  | String c s' => String c EmptyString :: chars s'
  end.

(** [String.prototype.split] with a string separator; the empty separator
    cuts between all characters. *)
Definition split (s d : string) : list string :=
  match d with
  | EmptyString => chars s
  | String a d' => split_at a d' EmptyString s
  end.

End Str.

(** ** Ordinary objects *)

(** The own string-keyed properties of an object, kept in the order in which
    they were created.  [entries] is the order every enumeration of the
    object uses ([Object.keys], [Object.entries], [for ... of] over them):
    array-index keys first, by increasing value, then the other keys in
    creation order. *)
Module Obj.

Section Props.

Variable A : Type.

Definition t := list (string * A).

Fixpoint get (k : string) (o : t) : option A :=
  match o with
  | [] => None
  | (k', v) :: o' => if k' =? k then Some v else get k o'
  end.

(** Writing an own property: an existing key keeps its place. *)
Fixpoint set (k : string) (v : A) (o : t) : t :=
  match o with
  | [] => [(k, v)]
  | (k', v') :: o' => if k' =? k then (k, v) :: o' else (k', v') :: set k v o'
  end.

Definition index_of (e : string * A) : N := Str.parseInt (fst e).

Definition has_index (e : string * A) : bool := Str.is_array_index (fst e).

Fixpoint insert_by_index (e : string * A) (l : t) : t :=
  match l with
  | [] => [e]
  | e' :: l' =>
      if (index_of e <=? index_of e')%N then e :: l
      else e' :: insert_by_index e l'
  end.

Fixpoint sort_by_index (l : t) : t :=
  match l with
  | [] => []
  | e :: l' => insert_by_index e (sort_by_index l')
  end.

Definition entries (o : t) : t :=
  sort_by_index (filter has_index o) ++ filter (fun e => negb (has_index e)) o.

Definition keys (o : t) : list string := map fst (entries o).

(** [o[k] = v] on an ordinary object whose prototype is
    [Object.prototype]: the only inherited setter is [__proto__]. *)
Definition assign (k : string) (v : A) (o : t) : outcome t :=
  match get k o with
  | Some _ => Returns (set k v o)
  | None => if k =? "__proto__" then Exotic else Returns (set k v o)
  end.

(** A loop [for (const e of l) body(e)] over a state. *)
Fixpoint for_each {E S : Type} (l : list E) (body : E -> S -> outcome S) (s : S)
  : outcome S :=
  match l with
  | [] => Returns s
  | e :: l' => s' <- body e s ;; for_each l' body s'
  end.

End Props.

Arguments get {A}.
Arguments set {A}.
Arguments entries {A}.
Arguments keys {A}.
Arguments assign {A}.
Arguments has_index {A}.
Arguments index_of {A}.
Arguments sort_by_index {A}.
Arguments insert_by_index {A}.

End Obj.

(** ** Values *)

(** [type JsonValue = string | number | boolean | null | JsonValue[] |
    { [key: string]: JsonValue }].  Numbers are never computed with; they
    are represented by integers. *)
Inductive JsonValue : Type :=
  | JNull
  | JBool (b : bool)
  | JNum (n : Z)
  | JStr (s : string)
  | JArr (items : list JsonValue)
  | JObj (props : list (string * JsonValue)).

(** [Record<string, JsonValue>] *)
Definition FlatMap := Obj.t JsonValue.

(** ** Flatten *)

(** [prefix ? `${prefix}${delimiter}${key}` : key] *)
Definition child_path (prefix delimiter key : string) : string :=
  match prefix with
  | EmptyString => key
  | _ => prefix +++ delimiter +++ key
  end.

Section Flatten.

Variable delimiter : string.

Definition visitor := string -> FlatMap -> outcome FlatMap.

(** [for (let i = ...; i < obj.length; i++) flatten(obj[i], delimiter, key, result)],
    the recursive calls being given as [visits]. *)
Fixpoint visit_items (visits : list visitor) (i : N) (prefix : string)
  (result : FlatMap) : outcome FlatMap :=
  match visits with
  | [] => Returns result
  | f :: rest =>
      r <- f (child_path prefix delimiter (Str.of_index i)) result ;;
      visit_items rest (N.succ i) prefix r
  end.

(** [for (const key of keys) flatten(obj[key], delimiter, newPrefix, result)] *)
Definition visit_keys (visits : list (string * visitor)) (prefix : string)
  (result : FlatMap) : outcome FlatMap :=
  Obj.for_each visits
    (fun kv r => snd kv (child_path prefix delimiter (fst kv)) r) result.

(** [flatten(obj, delimiter, prefix, result)]; the accumulator [result] is
    threaded through the calls. *)
Fixpoint flatten_into (obj : JsonValue) : visitor :=
  fun prefix result =>
    match obj with
    | JNull | JBool _ | JNum _ | JStr _ => Obj.assign prefix obj result
    | JArr [] => Obj.assign prefix (JArr []) result
    | JArr items => visit_items (map flatten_into items) 0 prefix result
    | JObj [] => Obj.assign prefix (JObj []) result
    | JObj props =>
        visit_keys
          (Obj.entries (map (fun kv => (fst kv, flatten_into (snd kv))) props))
          prefix result
    end.

End Flatten.

(** [flatten(obj, delimiter)], with the default [prefix = ''] and
    [result = {}]. *)
Definition flatten (obj : JsonValue) (delimiter : string) : outcome FlatMap :=
  flatten_into delimiter obj "" [].

(** ** Values under construction *)

(** [unflatten] builds its result in [result: any]: besides the JSON values
    it holds arrays with holes and arrays carrying named properties. *)
Inductive JsValue : Type :=
  | VNull
  | VBool (b : bool)
  | VNum (n : Z)
  | VStr (s : string)
  | VArr (elems : list (option JsValue)) (named : list (string * JsValue))
  | VObj (props : list (string * JsValue)).

(** A JSON value as a value under construction. *)
Fixpoint of_json (v : JsonValue) : JsValue :=
  match v with
  | JNull => VNull
  | JBool b => VBool b
  | JNum n => VNum n
  | JStr s => VStr s
  | JArr items => VArr (map (fun x => Some (of_json x)) items) []
  | JObj props => VObj (map (fun kv => (fst kv, of_json (snd kv))) props)
  end.

(** String-keyed properties of the builtin prototype objects (ECMAScript 2024
    with Annex B). *)
Module Proto.

Definition Object_ : list string :=
  ["constructor"; "__defineGetter__"; "__defineSetter__"; "hasOwnProperty";
   "__lookupGetter__"; "__lookupSetter__"; "isPrototypeOf";
   "propertyIsEnumerable"; "toString"; "valueOf"; "__proto__";
   "toLocaleString"].

Definition Array_ : list string :=
  ["length"; "constructor"; "at"; "concat"; "copyWithin"; "fill"; "find";
   "findIndex"; "findLast"; "findLastIndex"; "lastIndexOf"; "pop"; "push";
   "reverse"; "shift"; "unshift"; "slice"; "sort"; "splice"; "includes";
   "indexOf"; "join"; "keys"; "entries"; "values"; "forEach"; "filter";
   "flat"; "flatMap"; "map"; "every"; "some"; "reduce"; "reduceRight";
   "toLocaleString"; "toString"; "toReversed"; "toSorted"; "toSpliced";
   "with"].

Definition String_ : list string :=
  ["length"; "constructor"; "anchor"; "at"; "big"; "blink"; "bold"; "charAt";
   "charCodeAt"; "codePointAt"; "concat"; "endsWith"; "fontcolor";
   "fontsize"; "fixed"; "includes"; "indexOf"; "isWellFormed"; "italics";
   "lastIndexOf"; "link"; "localeCompare"; "match"; "matchAll"; "normalize";
   "padEnd"; "padStart"; "repeat"; "replace"; "replaceAll"; "search";
   "slice"; "small"; "split"; "strike"; "sub"; "substr"; "substring"; "sup";
   "startsWith"; "toString"; "toWellFormed"; "trim"; "trimStart";
   "trimLeft"; "trimEnd"; "trimRight"; "toLocaleLowerCase";
   "toLocaleUpperCase"; "toLowerCase"; "toUpperCase"; "valueOf"].

Definition Number_ : list string :=
  ["constructor"; "toExponential"; "toFixed"; "toPrecision"; "toString";
   "valueOf"; "toLocaleString"].

Definition Boolean_ : list string := ["constructor"; "toString"; "valueOf"].

Definition mem (k : string) (l : list string) : bool := existsb (String.eqb k) l.

(** Does the prototype chain of [v] have a property named [k]? *)
Definition inherits (v : JsValue) (k : string) : bool :=
  match v with
  | VNull => false
  | VBool _ => mem k Boolean_ || mem k Object_
  | VNum _ => mem k Number_ || mem k Object_
  | VStr _ => mem k String_ || mem k Object_
  | VArr _ _ => mem k Array_ || mem k Object_
  | VObj _ => mem k Object_
  end.

End Proto.

(** ** Property access *)

Definition char_at (s : string) (i : nat) : option string :=
  option_map (fun c => String c EmptyString) (String.get i s).

(** The own property [key] of [current], if any. *)
Definition get_own (current : JsValue) (key : string) : option JsValue :=
  match current with
  | VObj props => Obj.get key props
  | VArr elems named =>
      if Str.is_array_index key then
        match nth_error elems (N.to_nat (Str.parseInt key)) with
        | Some (Some v) => Some v
        | _ => None
        end
      else if key =? "length" then Some (VNum (Z.of_nat (List.length elems)))
      else Obj.get key named
  | VStr s =>
      if Str.is_array_index key then
        option_map VStr (char_at s (N.to_nat (Str.parseInt key)))
      else if key =? "length" then Some (VNum (Z.of_nat (String.length s)))
      else None
  | _ => None
  end.

(** [current[key]]; [None] is [undefined]. *)
Definition Get (current : JsValue) (key : string) : outcome (option JsValue) :=
  match current with
  | VNull => Throws TypeError
  | _ =>
      match get_own current key with
      | Some v => Returns (Some v)
      | None => if Proto.inherits current key then Exotic else Returns None
      end
  end.

(** [arr[i] = v] for an array index [i]: beyond its end the array grows,
    leaving holes. *)
Fixpoint store_elem (elems : list (option JsValue)) (i : nat) (v : JsValue)
  : list (option JsValue) :=
  match i, elems with
  | O, [] => [Some v]
  | O, _ :: rest => Some v :: rest
  | S i', [] => None :: store_elem [] i' v
  | S i', e :: rest => e :: store_elem rest i' v
  end.

(** Writing the own property [key] of a container. *)
Definition store (current : JsValue) (key : string) (v : JsValue) : JsValue :=
  match current with
  | VObj props => VObj (Obj.set key v props)
  | VArr elems named =>
      if Str.is_array_index key
      then VArr (store_elem elems (N.to_nat (Str.parseInt key)) v) named
      else VArr elems (Obj.set key v named)
  | _ => current
  end.

(** [current[key] = v] in strict code. *)
Definition Put (current : JsValue) (key : string) (v : JsValue) : outcome JsValue :=
  match current with
  | VNull => Throws TypeError
  | VBool _ | VNum _ | VStr _ => if key =? "__proto__" then Exotic else Throws TypeError
  | VArr _ named =>
      if Str.is_array_index key then Returns (store current key v)
      else if key =? "length" then Exotic
      else match Obj.get key named with
           | Some _ => Returns (store current key v)
           | None => if key =? "__proto__" then Exotic else Returns (store current key v)
           end
  | VObj props =>
      match Obj.get key props with
      | Some _ => Returns (store current key v)
      | None => if key =? "__proto__" then Exotic else Returns (store current key v)
      end
  end.

(** ** Unflatten *)

Definition splitKey (key delimiter : string) : list string :=
  if delimiter =? "." then Str.split key "." else Str.split key delimiter.

(** The body of the loop over the entries: walk down from [current] along
    [keys], creating the containers that are missing, and assign [value] at
    the last key.  The walk follows references, so the assignment is seen
    from the root: here each container is rebuilt on the way back.  The last
    key of an empty [keys] is [undefined], which names the property
    ["undefined"]. *)
Fixpoint place (current : JsValue) (keys : list string) (value : JsValue)
  : outcome JsValue :=
  match keys with
  | [] => Put current "undefined" value
  | key :: rest =>
      match rest with
      | [] => Put current key value
      | nextKey :: _ =>
          found <- Get current key ;;
          match found with
          | None =>
              let fresh := if Str.is_numeric nextKey then VArr [] [] else VObj [] in
              created <- Put current key fresh ;;
              child <- place fresh rest value ;;
              Returns (store created key child)
          | Some next =>
              child <- place next rest value ;;
              Returns (store current key child)
          end
      end
  end.

(** [arr[parseInt(k)] = v] on a plain array: an array index below 2^32 - 1
    is an element, a larger number below 2^53 names a property. *)
Definition put_number (arr : JsValue) (n : N) (v : JsValue) : outcome JsValue :=
  if (n <? 9007199254740992)%N then Put arr (Str.of_index n) v else Exotic.

(** [keys.length > 0 && keys.every(k => /^\d+$/.test(k))] *)
Definition all_numeric (keys : list string) : bool :=
  match keys with
  | [] => false
  | _ => forallb Str.is_numeric keys
  end.

(** The outcomes of a list of calls, in order. *)
Fixpoint sequence {A} (l : list (string * outcome A)) : outcome (list (string * A)) :=
  match l with
  | [] => Returns []
  | (k, m) :: l' => v <- m ;; r <- sequence l' ;; Returns ((k, v) :: r)
  end.

(** [maybeConvertToArray(obj)]; the children are converted as the loops
    reach them, [arr] starting as [[]]. *)
Fixpoint maybeConvertToArray (obj : JsValue) : outcome JsValue :=
  match obj with
  | VObj props =>
      let converted := map (fun kv => (fst kv, maybeConvertToArray (snd kv))) props in
      if all_numeric (Obj.keys props) then
        Obj.for_each (Obj.entries converted)
          (fun kv arr => v <- snd kv ;; put_number arr (Str.parseInt (fst kv)) v)
          (VArr [] [])
      else
        props' <- sequence converted ;; Returns (VObj props')
  | _ => Returns obj
  end.

(** One turn of [for (const [flatKey, value] of Object.entries(obj))]. *)
Definition place_entry (delimiter : string) (e : string * JsonValue)
  (result : JsValue) : outcome JsValue :=
  place result (splitKey (fst e) delimiter) (of_json (snd e)).

(** [unflatten(obj, delimiter)], [result] starting as [{}]. *)
Definition unflatten (obj : FlatMap) (delimiter : string) : outcome JsValue :=
  result <- Obj.for_each (Obj.entries obj) (place_entry delimiter) (VObj []) ;;
  maybeConvertToArray result.

(** [unflatten(flatten(v, d), d)] *)
Definition round_trip (v : JsonValue) (d : string) : outcome JsValue :=
  flat <- flatten v d ;; unflatten flat d.

(** ** Filtering *)

(** The regular expressions [filterByPath] can build, and the part of
    [new RegExp] and [RegExp.prototype.test] (no flags) that reads them. *)
Module Regex.

Inductive atom : Type :=
  | Lit (c : ascii)      (* a character, possibly written with a backslash *)
  | NotDot               (* the class [^.] *)
  | Dot.                 (* [.]: any character but a line terminator *)

Inductive token : Type := TBol | TEol | TStar | TAtom (a : atom).

Inductive item : Type := Bol | Eol | One (a : atom) | Star (a : atom).

(** The syntax characters of a pattern. *)
Definition syntax_char (c : ascii) : bool := Str.mem_char c "^$\.*+?()[]{}|".

Fixpoint lex (s : string) : option (list token) :=
  match s with
  | EmptyString => Some []
  | String "\" (String c r) =>
      if syntax_char c then option_map (cons (TAtom (Lit c))) (lex r) else None
  | String "[" (String "^" (String "." (String "]" r))) =>
      option_map (cons (TAtom NotDot)) (lex r)
  | String c r =>
      if Ascii.eqb c "^" then option_map (cons TBol) (lex r)
      else if Ascii.eqb c "$" then option_map (cons TEol) (lex r)
      else if Ascii.eqb c "*" then option_map (cons TStar) (lex r)
      else if Ascii.eqb c "." then option_map (cons (TAtom Dot)) (lex r)
      else if syntax_char c then None
      else option_map (cons (TAtom (Lit c))) (lex r)
  end.

Fixpoint quantify (l : list token) : option (list item) :=
  match l with
  | [] => Some []
  | TAtom a :: TStar :: r => option_map (cons (Star a)) (quantify r)
  | TAtom a :: r => option_map (cons (One a)) (quantify r)
  | TBol :: r => option_map (cons Bol) (quantify r)
  | TEol :: r => option_map (cons Eol) (quantify r)
  | TStar :: _ => None
  end.

(** [new RegExp(source)]; [None] is a [SyntaxError] or a pattern outside
    the fragment. *)
Definition parse (source : string) : option (list item) :=
  match lex source with
  | Some l => quantify l
  | None => None
  end.

Definition line_terminator (c : ascii) : bool :=
  Ascii.eqb c "010" || Ascii.eqb c "013".

Definition accepts (a : atom) (c : ascii) : bool :=
  match a with
  | Lit c' => Ascii.eqb c' c
  | NotDot => negb (Ascii.eqb c ".")
  | Dot => negb (line_terminator c)
  end.

(** Does [r] match a prefix of [s]?  [at_start] tells whether [s] begins
    the input. *)
Fixpoint matches (r : list item) (at_start : bool) (s : string) : bool :=
  match r with
  | [] => true
  | Bol :: r' => at_start && matches r' at_start s
  | Eol :: r' =>
      match s with EmptyString => matches r' at_start s | _ => false end
  | One a :: r' =>
      match s with
      | String c s' => accepts a c && matches r' false s'
      | EmptyString => false
      end
  | Star a :: r' =>
      (fix star (at_start : bool) (s : string) : bool :=
         matches r' at_start s ||
         match s with
         | String c s' => accepts a c && star false s'
         | EmptyString => false
         end) at_start s
  end.

(** [regex.test(s)]: a match starting at some position of [s]. *)
Fixpoint search (r : list item) (at_start : bool) (s : string) : bool :=
  matches r at_start s ||
  match s with
  | String _ s' => search r false s'
  | EmptyString => false
  end.

Definition test (r : list item) (s : string) : bool := search r true s.

End Regex.

(** The characters of the class [[.+?^${}()|[\]\\]]. *)
Definition is_meta (c : ascii) : bool := Str.mem_char c ".+?^${}()|[]\".

(** [pattern.replace(/[.+?^${}()|[\]\\]/g, '\\$&')] *)
Fixpoint escape_meta (s : string) : string :=
  match s with
  | EmptyString => EmptyString
  | String c r =>
      if is_meta c
      then String "\" (String c (escape_meta r))
      else String c (escape_meta r)
  end.

(** [.replace(/\*/g, '[^.]*')] *)
Fixpoint replace_star (s : string) : string :=
  match s with
  | EmptyString => EmptyString
  | String c r =>
      if Ascii.eqb c "*" then "[^.]*" +++ replace_star r
      else String c (replace_star r)
  end.

(** [.replace(/\*\*/g, '.*')] *)
Fixpoint replace_star_star (s : string) : string :=
  match s with
  | EmptyString => EmptyString
  | String c r =>
      match r with
      | String c' r' =>
          if Ascii.eqb c "*" && Ascii.eqb c' "*" then ".*" +++ replace_star_star r'
          else String c (replace_star_star r)
      | EmptyString => String c EmptyString
      end
  end.

(** The source handed to [new RegExp]. *)
Definition regex_source (pattern : string) : string :=
  "^" +++ replace_star_star (replace_star (escape_meta pattern)) +++ "$".

(** [filterByPath(flat, pattern)], [result] starting as [{}]. *)
Definition filterByPath (flat : FlatMap) (pattern : string) : outcome FlatMap :=
  match Regex.parse (regex_source pattern) with
  | None => Throws SyntaxError
  | Some regex =>
      Obj.for_each (Obj.entries flat)
        (fun kv result =>
           if Regex.test regex (fst kv) then Obj.assign (fst kv) (snd kv) result
           else Returns result)
        []
  end.


(** ** Statistics *)

(** [interface FlatStats] *)
Record FlatStats : Type := {
  totalKeys : nat;
  maxDepth : nat;
  types : Obj.t nat
}.

(** [value === null ? 'null' : typeof value] *)
Definition type_name (value : JsonValue) : string :=
  match value with
  | JNull => "null"
  | JBool _ => "boolean"
  | JNum _ => "number"
  | JStr _ => "string"
  | JArr _ | JObj _ => "object"
  end.

(** [types[name] || 0]; none of the names of [type_name] is a property of
    [Object.prototype]. *)
Definition count_of (name : string) (types : Obj.t nat) : nat :=
  match Obj.get name types with
  | Some n => n
  | None => 0
  end.

(** The body of the loop of [getStats] over the pair [(maxDepth, types)]. *)
Definition count_entry (delimiter : string) (s : nat * Obj.t nat)
  (e : string * JsonValue) : nat * Obj.t nat :=
  let depth := List.length (Str.split (fst e) delimiter) in
  let name := type_name (snd e) in
  (if Nat.ltb (fst s) depth then depth else fst s,
   Obj.set name (count_of name (snd s) + 1) (snd s)).

(** [getStats(flat, delimiter)] *)
Definition getStats (flat : FlatMap) (delimiter : string) : FlatStats :=
  let s := fold_left (count_entry delimiter) (Obj.entries flat) (0, []) in
  {| totalKeys := List.length (Obj.keys flat);
     maxDepth := fst s;
     types := snd s |}.

(** ** Command line *)

(** The options [main] reads from [process.argv.slice(2)]: its local
    variables, and the loop with the [switch] that sets them.  [main]
    reaches the loop when none of [--help], [-h], [--version] and [-v] is
    among the arguments. *)
Module Cli.

Record Options : Type := {
  filePath : string;
  doUnflatten : bool;
  delimiter : string;
  filterPattern : string;
  jsonOutput : bool;
  showStats : bool;
  compact : bool;
  keysOnly : bool;
  valuesOnly : bool;
  countOnly : bool
}.

(** The values the variables are declared with. *)
Definition initial : Options :=
  {| filePath := ""; doUnflatten := false; delimiter := "."; filterPattern := "";
     jsonOutput := false; showStats := false; compact := false; keysOnly := false;
     valuesOnly := false; countOnly := false |}.

Definition set_filePath (v : string) (o : Options) : Options :=
  {| filePath := v; doUnflatten := doUnflatten o; delimiter := delimiter o;
     filterPattern := filterPattern o; jsonOutput := jsonOutput o;
     showStats := showStats o; compact := compact o; keysOnly := keysOnly o;
     valuesOnly := valuesOnly o; countOnly := countOnly o |}.

Definition set_doUnflatten (o : Options) : Options :=
  {| filePath := filePath o; doUnflatten := true; delimiter := delimiter o;
     filterPattern := filterPattern o; jsonOutput := jsonOutput o;
     showStats := showStats o; compact := compact o; keysOnly := keysOnly o;
     valuesOnly := valuesOnly o; countOnly := countOnly o |}.

Definition set_delimiter (v : string) (o : Options) : Options :=
  {| filePath := filePath o; doUnflatten := doUnflatten o; delimiter := v;
     filterPattern := filterPattern o; jsonOutput := jsonOutput o;
     showStats := showStats o; compact := compact o; keysOnly := keysOnly o;
     valuesOnly := valuesOnly o; countOnly := countOnly o |}.

Definition set_filterPattern (v : string) (o : Options) : Options :=
  {| filePath := filePath o; doUnflatten := doUnflatten o; delimiter := delimiter o;
     filterPattern := v; jsonOutput := jsonOutput o;
     showStats := showStats o; compact := compact o; keysOnly := keysOnly o;
     valuesOnly := valuesOnly o; countOnly := countOnly o |}.

Definition set_jsonOutput (o : Options) : Options :=
  {| filePath := filePath o; doUnflatten := doUnflatten o; delimiter := delimiter o;
     filterPattern := filterPattern o; jsonOutput := true;
     showStats := showStats o; compact := compact o; keysOnly := keysOnly o;
     valuesOnly := valuesOnly o; countOnly := countOnly o |}.

Definition set_showStats (o : Options) : Options :=
  {| filePath := filePath o; doUnflatten := doUnflatten o; delimiter := delimiter o;
     filterPattern := filterPattern o; jsonOutput := jsonOutput o;
     showStats := true; compact := compact o; keysOnly := keysOnly o;
     valuesOnly := valuesOnly o; countOnly := countOnly o |}.

Definition set_compact (o : Options) : Options :=
  {| filePath := filePath o; doUnflatten := doUnflatten o; delimiter := delimiter o;
     filterPattern := filterPattern o; jsonOutput := jsonOutput o;
     showStats := showStats o; compact := true; keysOnly := keysOnly o;
     valuesOnly := valuesOnly o; countOnly := countOnly o |}.

Definition set_keysOnly (o : Options) : Options :=
  {| filePath := filePath o; doUnflatten := doUnflatten o; delimiter := delimiter o;
     filterPattern := filterPattern o; jsonOutput := jsonOutput o;
     showStats := showStats o; compact := compact o; keysOnly := true;
     valuesOnly := valuesOnly o; countOnly := countOnly o |}.

Definition set_valuesOnly (o : Options) : Options :=
  {| filePath := filePath o; doUnflatten := doUnflatten o; delimiter := delimiter o;
     filterPattern := filterPattern o; jsonOutput := jsonOutput o;
     showStats := showStats o; compact := compact o; keysOnly := keysOnly o;
     valuesOnly := true; countOnly := countOnly o |}.

Definition set_countOnly (o : Options) : Options :=
  {| filePath := filePath o; doUnflatten := doUnflatten o; delimiter := delimiter o;
     filterPattern := filterPattern o; jsonOutput := jsonOutput o;
     showStats := showStats o; compact := compact o; keysOnly := keysOnly o;
     valuesOnly := valuesOnly o; countOnly := true |}.

(** [value || fallback] for a string or [undefined]. *)
Definition or_else (value : option string) (fallback : string) : string :=
  match value with
  | Some (String c s) => String c s
  | _ => fallback
  end.

(** [args[i].startsWith('-')] *)
Definition starts_with_dash (arg : string) : bool := String.prefix "-" arg.

(** [for (let i = 0; i < args.length; i++) switch (args[i]) ...]; an option
    that takes a value reads [args[++i]], which is [undefined] after the
    last argument. *)
Fixpoint parse (args : list string) (o : Options) : Options :=
  match args with
  | [] => o
  | arg :: rest =>
      let with_value (set : option string -> Options) : Options :=
        match rest with
        | value :: rest' => parse rest' (set (Some value))
        | [] => set None
        end in
      if (arg =? "-f") || (arg =? "--file") then
        with_value (fun value => set_filePath (or_else value "") o)
      else if (arg =? "-u") || (arg =? "--unflatten") then parse rest (set_doUnflatten o)
      else if (arg =? "-d") || (arg =? "--delimiter") then
        with_value (fun value => set_delimiter (or_else value ".") o)
      else if arg =? "--filter" then
        with_value (fun value => set_filterPattern (or_else value "") o)
      else if arg =? "--json" then parse rest (set_jsonOutput o)
      else if arg =? "--stats" then parse rest (set_showStats o)
      else if arg =? "--compact" then parse rest (set_compact o)
      else if arg =? "--keys-only" then parse rest (set_keysOnly o)
      else if arg =? "--values-only" then parse rest (set_valuesOnly o)
      else if arg =? "--count" then parse rest (set_countOnly o)
      else if negb (starts_with_dash arg) && (filePath o =? "")
      then parse rest (set_filePath arg o)
      else parse rest o
  end.

End Cli.
(** ** Notions used to state the properties *)

(** Does [d] occur in [s]? *)
Fixpoint occurs (d s : string) : bool :=
  String.prefix d s ||
  match s with String _ s' => occurs d s' | EmptyString => false end.

(** The path [flatten] builds for a sequence of steps below the root. *)
Definition encode (d : string) (steps : list string) : string :=
  fold_left (fun prefix key => child_path prefix d key) steps "".

(** Scalars and empty containers: the values [flatten] emits as they are. *)
Definition is_leaf (v : JsonValue) : bool :=
  match v with
  | JArr (_ :: _) | JObj (_ :: _) => false
  | _ => true
  end.

(** The value found by following own properties along [path]. *)
Fixpoint lookup_path (v : JsValue) (path : list string) : option JsValue :=
  match path with
  | [] => Some v
  | key :: rest =>
      match get_own v key with
      | Some child => lookup_path child rest
      | None => None
      end
  end.

Definition is_container (v : JsValue) : bool :=
  match v with
  | VArr _ _ | VObj _ => true
  | _ => false
  end.

Inductive shape : Type := Sequence | Map | Scalar.

Definition shape_of (v : JsValue) : shape :=
  match v with
  | VArr _ _ => Sequence
  | VObj _ => Map
  | _ => Scalar
  end.

(** Is the list of steps [p] an initial segment of [q]? *)
Fixpoint is_prefix (p q : list string) : bool :=
  match p, q with
  | [], _ => true
  | a :: p', b :: q' => (a =? b) && is_prefix p' q'
  | _ :: _, [] => false
  end.

(** Can [key] hold a value of its own in [current]? *)
Definition slot (current : JsValue) (key : string) : bool :=
  match current with
  | VObj _ => true
  | VArr _ _ => Str.is_array_index key || negb (key =? "length")
  | _ => false
  end.

(** A pattern read as a glob: [*] stands for a run, possibly empty, of
    characters other than [.], and every other character for itself. *)
Fixpoint glob (pattern path : string) : bool :=
  match pattern with
  | EmptyString => match path with EmptyString => true | _ => false end
  | String p pattern' =>
      if Ascii.eqb p "*" then
        (fix run (path : string) : bool :=
           glob pattern' path ||
           match path with
           | String c path' => negb (Ascii.eqb c ".") && run path'
           | EmptyString => false
           end) path
      else
        match path with
        | String c path' => Ascii.eqb p c && glob pattern' path'
        | EmptyString => false
        end
  end.

(** What the three replacements write for each character of a pattern. *)
Fixpoint translate (pattern : string) : string :=
  match pattern with
  | EmptyString => EmptyString
  | String c r =>
      if Ascii.eqb c "*" then "[^.]*" +++ translate r
      else if is_meta c then String "\" (String c (translate r))
      else String c (translate r)
  end.

(** The regular expression a pattern compiles to, item by item and token
    by token. *)
Definition glob_item (c : ascii) : Regex.item :=
  if Ascii.eqb c "*" then Regex.Star Regex.NotDot else Regex.One (Regex.Lit c).

Definition glob_items (pattern : string) : list Regex.item :=
  map glob_item (list_ascii_of_string pattern).

Definition starts_with_star (s : string) : bool :=
  match s with String c _ => Ascii.eqb c "*" | EmptyString => false end.

Definition glob_tokens (c : ascii) : list Regex.token :=
  if Ascii.eqb c "*" then [Regex.TAtom Regex.NotDot; Regex.TStar]
  else [Regex.TAtom (Regex.Lit c)].

(** The body of the loop of [filterByPath] for a given test. *)
Definition select (test : string -> bool) (kv : string * JsonValue) (result : FlatMap)
  : outcome FlatMap :=
  if test (fst kv) then Obj.assign (fst kv) (snd kv) result else Returns result.

(** The body of the converting loop of [maybeConvertToArray]. *)
Definition convert_into (kv : string * outcome JsValue) (arr : JsValue)
  : outcome JsValue :=
  v <- snd kv ;; put_number arr (Str.parseInt (fst kv)) v.

(** The entries [flatten] creates, in the order it creates them: a
    depth-first walk that visits the keys of a map in enumeration order and
    the items of a sequence by increasing index. *)
Definition walker := string -> list (string * JsonValue).

Fixpoint walk_items (d : string) (walks : list walker) (i : N) (prefix : string)
  : list (string * JsonValue) :=
  match walks with
  | [] => []
  | w :: rest =>
      w (child_path prefix d (Str.of_index i)) ++ walk_items d rest (N.succ i) prefix
  end.

Definition walk_keys (d : string) (walks : list (string * walker)) (prefix : string)
  : list (string * JsonValue) :=
  flat_map (fun kw => snd kw (child_path prefix d (fst kw))) walks.

Fixpoint leaves (d : string) (v : JsonValue) : walker :=
  fun prefix =>
    match v with
    | JArr ((_ :: _) as items) => walk_items d (map (leaves d) items) 0 prefix
    | JObj ((_ :: _) as props) =>
        walk_keys d (Obj.entries (map (fun kv => (fst kv, leaves d (snd kv))) props))
          prefix
    | _ => [(prefix, v)]
    end.

(** The depth-first pre-order traversal of the specification: the keys of a
    map in their original order, the items of a sequence by increasing
    index; a scalar or an empty container is a leaf. *)
Fixpoint preorder (d : string) (v : JsonValue) : walker :=
  fun prefix =>
    match v with
    | JArr ((_ :: _) as items) => walk_items d (map (preorder d) items) 0 prefix
    | JObj ((_ :: _) as props) =>
        walk_keys d (map (fun kv => (fst kv, preorder d (snd kv))) props) prefix
    | _ => [(prefix, v)]
    end.

(** No map of [v] has a key that is an array index. *)
Fixpoint no_index_keys (v : JsonValue) : bool :=
  match v with
  | JArr items => forallb no_index_keys items
  | JObj props =>
      forallb (fun kv => negb (Str.is_array_index (fst kv)) && no_index_keys (snd kv))
        props
  | _ => true
  end.

(** [result[path] = value] for an entry. *)
Definition assign_entry (e : string * JsonValue) (result : FlatMap) : outcome FlatMap :=
  Obj.assign (fst e) (snd e) result.

(** A tree with a nested map and a sequence. *)
Definition sample_tree : JsonValue :=
  JObj [("user", JObj [("name", JStr "Jane"); ("tags", JArr [JStr "dev"; JStr "admin"])])].

Definition lift_value {A B : Type} (f : A -> B) (kv : string * A) : string * B :=
  (fst kv, f (snd kv)).

(** Trees that [flatten] and [unflatten] carry unchanged, for a delimiter
    whose first character is [a]: the keys of a map are distinct, and each
    is not empty, is not a string of digits, does not contain [a] and does
    not name a property of [Object.prototype]; an array has at most
    2^32 - 1 items. *)
Definition plain_key (a : ascii) (k : string) : bool :=
  negb (k =? "") && negb (Str.is_numeric k) && negb (Str.mem_char a k)
  && negb (Proto.mem k Proto.Object_).

Fixpoint distinct (keys : list string) : bool :=
  match keys with
  | [] => true
  | k :: rest => negb (existsb (String.eqb k) rest) && distinct rest
  end.

Fixpoint faithful (a : ascii) (v : JsonValue) : bool :=
  match v with
  | JArr items =>
      (N.of_nat (List.length items) <? 4294967296)%N && forallb (faithful a) items
  | JObj props =>
      distinct (map fst props)
      && forallb (fun kv => plain_key a (fst kv) && faithful a (snd kv)) props
  | _ => true
  end.

(** The leaves of a tree with the steps that lead to them. *)
Definition steps_entry : Type := list string * JsonValue.

Definition block (k : string) (entries : list steps_entry) : list steps_entry :=
  map (fun e => (k :: fst e, snd e)) entries.

Fixpoint steps_items (blocks : list (list steps_entry)) (i : N) : list steps_entry :=
  match blocks with
  | [] => []
  | b :: rest => block (Str.of_index i) b ++ steps_items rest (N.succ i)
  end.

Fixpoint leaf_steps (v : JsonValue) : list steps_entry :=
  match v with
  | JArr ((_ :: _) as items) => steps_items (map leaf_steps items) 0
  | JObj ((_ :: _) as props) =>
      flat_map (fun kv => block (fst kv) (leaf_steps (snd kv))) props
  | _ => [([], v)]
  end.

(** The items of an array as properties named by their index. *)
Fixpoint indexed (items : list JsonValue) (i : N) : list (string * JsonValue) :=
  match items with
  | [] => []
  | x :: rest => (Str.of_index i, x) :: indexed rest (N.succ i)
  end.

Definition children (v : JsonValue) : list (string * JsonValue) :=
  match v with
  | JArr items => indexed items 0
  | JObj props => props
  | _ => []
  end.

Definition subtree_steps (kd : string * JsonValue) : list steps_entry :=
  block (fst kd) (leaf_steps (snd kd)).

Definition with_path (d : string) (ks : list string) (e : steps_entry)
  : string * JsonValue :=
  (String.concat d (ks ++ fst e), snd e).

(** Placing an entry given by its steps. *)
Definition place_steps (e : steps_entry) (root : JsValue) : outcome JsValue :=
  place root (fst e) (of_json (snd e)).

(** The container created on the way to [step]. *)
Definition fresh_for (step : string) : JsValue :=
  if Str.is_numeric step then VArr [] [] else VObj [].

Definition first_step (entries : list steps_entry) : option string :=
  match entries with
  | (step :: _, _) :: _ => Some step
  | _ => None
  end.

(** The key [k] is absent from the container [current] and can be created
    there. *)
Definition vacant (current : JsValue) (k : string) : Prop :=
  get_own current k = None
  /\ Proto.inherits current k = false
  /\ forall x, Put current k x = Returns (store current k x).

(** Placing the leaves of the subtree [e] under a vacant key builds [e]
    there. *)
Definition placed (e : JsonValue) : Prop :=
  forall cur k,
    vacant cur k ->
    Obj.for_each (block k (leaf_steps e)) place_steps cur
    = Returns (store cur k (of_json e)).

(** The flat entries below the property [kd] of the root. *)
Definition subtree_paths (d : string) (kd : string * JsonValue)
  : list (string * JsonValue) :=
  map (with_path d []) (subtree_steps kd).

(** A property of the root that [flatten] emits as it is, under an
    array-index path. *)
Definition index_leaf (kd : string * JsonValue) : bool :=
  is_leaf (snd kd) && Str.is_array_index (fst kd).

Definition index_le {A : Type} (x y : string * A) : Prop :=
  (Obj.index_of x <= Obj.index_of y)%N.

Definition index_lt {A : Type} (x y : string * A) : Prop :=
  (Obj.index_of x < Obj.index_of y)%N.

(** The keys that finalisation turns into indices are below 2^53, where
    [parseInt] is exact: the keys of the all-numeric maps reached through
    maps. *)
Fixpoint exact_keys (v : JsValue) : bool :=
  match v with
  | VObj props =>
      (negb (all_numeric (Obj.keys props))
       || forallb (fun kv => (Str.parseInt (fst kv) <? 9007199254740992)%N) props)
      && forallb (fun kv => exact_keys (snd kv)) props
  | _ => true
  end.

(** The [*] of a pattern are lone: no two of them are adjacent. *)
Fixpoint lone_stars (pattern : string) : bool :=
  match pattern with
  | String "*" (String "*" _) => false
  | String _ rest => lone_stars rest
  | EmptyString => true
  end.


(** The sum of the counts of a histogram. *)
Definition total_count (types : Obj.t nat) : nat :=
  fold_right (fun kv n => snd kv + n) 0 types.

(** The number of entries of a flat mapping whose value has the type named
    [name]. *)
Definition entries_of_type (name : string) (flat : FlatMap) : nat :=
  List.length (filter (fun e => type_name (snd e) =? name) flat).

(** The number of steps [unflatten] reads in the key of an entry. *)
Definition depth_of (delimiter : string) (e : string * JsonValue) : nat :=
  List.length (splitKey (fst e) delimiter).

(** The longest path from the root of a tree to a leaf, in steps. *)
Fixpoint height (v : JsonValue) : nat :=
  match v with
  | JArr ((_ :: _) as items) => S (list_max (map height items))
  | JObj ((_ :: _) as props) => S (list_max (map (fun kv => height (snd kv)) props))
  | _ => 0
  end.

(** The property of the root that an entry with the steps [keys] is placed
    under: its first step, and [undefined] when there is none. *)
Definition root_step (keys : list string) : string :=
  match keys with
  | [] => "undefined"
  | key :: _ => key
  end.

(** Keys that are single steps and name a map entry: free of the first
    character [a] of the delimiter, not all digits, not a property of
    [Object.prototype]. *)
Definition single_step (a : ascii) (k : string) : bool :=
  negb (Str.mem_char a k) && negb (Str.is_numeric k)
  && negb (Proto.mem k Proto.Object_).

(** The test [filterByPath] applies to an entry. *)
Definition selects (pattern : string) (kv : string * JsonValue) : bool :=
  glob pattern (fst kv).

(** A pattern without [*]. *)
Definition star_free (pattern : string) : bool := negb (Str.mem_char "*" pattern).

(** The number of dots of a string. *)
Fixpoint dots (s : string) : nat :=
  match s with
  | EmptyString => 0
  | String c s' => (if Ascii.eqb c "." then 1 else 0) + dots s'
  end.

(** The options that take the next argument as their value. *)
Definition takes_value (arg : string) : bool :=
  existsb (String.eqb arg) ["-f"; "--file"; "-d"; "--delimiter"; "--filter"].

(** The first argument that can name the input file: not empty and not
    starting with a dash. *)
Definition first_positional (args : list string) : string :=
  hd "" (filter (fun arg => negb (Cli.starts_with_dash arg) && negb (arg =? "")) args).

(** Is one of [names] among the arguments? *)
Definition given (names args : list string) : bool :=
  existsb (fun arg => existsb (String.eqb arg) names) args.

(** The arguments do not end in an option that still waits for its value. *)
Fixpoint complete (args : list string) : bool :=
  match args with
  | [] => true
  | arg :: rest =>
      if takes_value arg then
        match rest with
        | _ :: rest' => complete rest'
        | [] => false
        end
      else complete rest
  end.

(** Does [k] name a property of one of the builtin prototype objects? *)
Definition builtin_name (k : string) : bool :=
  Proto.mem k Proto.Object_ || Proto.mem k Proto.Array_ || Proto.mem k Proto.String_
  || Proto.mem k Proto.Number_ || Proto.mem k Proto.Boolean_.

(** A pattern read with every [*] standing for a run of any characters,
    and every other character for itself. *)
Fixpoint loose (pattern path : string) : bool :=
  match pattern with
  | EmptyString => match path with EmptyString => true | _ => false end
  | String p pattern' =>
      if Ascii.eqb p "*" then
        (fix run (path : string) : bool :=
           loose pattern' path ||
           match path with
           | String _ path' => run path'
           | EmptyString => false
           end) path
      else
        match path with
        | String c path' => Ascii.eqb p c && loose pattern' path'
        | EmptyString => false
        end
  end.

(** The steps that are left when the empty steps at the front are dropped. *)
Fixpoint drop_empty (steps : list string) : list string :=
  match steps with
  | "" :: rest => drop_empty rest
  | _ => steps
  end.
(** * Properties *)

Unset Implicit Arguments.

Lemma append_nil_r s : s +++ "" = s.
Proof. induction s; simpl; congruence. Qed.

Lemma append_assoc (s t u : string) : (s +++ t) +++ u = s +++ (t +++ u).
Proof. induction s; simpl; congruence. Qed.

Lemma prefix_skip d s : String.prefix d s = true -> s = d +++ Str.skip (String.length d) s.
Proof.
  revert s; induction d as [|a d IH]; intros s H; simpl.
  - destruct s; reflexivity.
  - destruct s as [|b s]; simpl in H; [discriminate|].
    destruct (ascii_dec a b); [subst|discriminate].
    simpl. f_equal. auto.
Qed.

Lemma prefix_append d s t : String.prefix d s = true -> String.prefix d (s +++ t) = true.
Proof.
  revert s; induction d as [|a d IH]; intros s H.
  - destruct (s +++ t); reflexivity.
  - destruct s as [|b s]; simpl in *; [discriminate|].
    destruct (ascii_dec a b); auto.
Qed.

Lemma split_at_not_nil a d' acc s : Str.split_at a d' acc s <> [].
Proof.
  funelim (Str.split_at a d' acc s); simp split_at; try discriminate.
  destruct (_ && _); [discriminate | assumption].
Qed.

Lemma concat_cons d x l : l <> [] -> String.concat d (x :: l) = x +++ d +++ String.concat d l.
Proof. destruct l; [congruence | reflexivity]. Qed.

Lemma concat_split_at a d' acc s :
  String.concat (String a d') (Str.split_at a d' acc s) = acc +++ s.
Proof.
  funelim (Str.split_at a d' acc s); simp split_at.
  - simpl. now rewrite append_nil_r.
  - destruct (Ascii.eqb a c && String.prefix d' s') eqn:E.
    + rewrite concat_cons by apply split_at_not_nil.
      rewrite H. apply andb_true_iff in E as [E1 E2].
      apply Ascii.eqb_eq in E1; subst c. simpl.
      rewrite <- (prefix_skip _ _ E2). reflexivity.
    + rewrite H0. rewrite append_assoc. reflexivity.
Qed.

Lemma occurs_false d s :
  occurs d s = false <-> forall i, String.prefix d (Str.skip i s) = false.
Proof.
  induction s as [|c s IH]; simpl.
  - rewrite orb_false_r. split.
    + intros H [|i]; simpl; exact H.
    + intros H. exact (H 0).
  - rewrite orb_false_iff, IH. split.
    + intros [H1 H2] [|i]; simpl; auto.
    + intros H. split; [exact (H 0) | intro i; exact (H (S i))].
Qed.

Lemma skip_append_lt i s t :
  i <= String.length s -> Str.skip i (s +++ t) = Str.skip i s +++ t.
Proof.
  revert s; induction i as [|i IH]; intros s Hi; [reflexivity|].
  destruct s as [|c s]; simpl in *; [lia|]. apply IH. lia.
Qed.

Lemma skip_all i s : String.length s <= i -> Str.skip i s = "".
Proof.
  revert s; induction i as [|i IH]; intros [|c s] Hi; simpl in *; auto; try lia.
  apply IH; lia.
Qed.

Lemma skip_length_append s t : Str.skip (String.length s) (s +++ t) = t.
Proof. induction s; simpl; auto. Qed.

Lemma length_append s t : String.length (s +++ t) = String.length s + String.length t.
Proof. induction s; simpl; auto. Qed.

Lemma prefix_empty a d' : String.prefix (String a d') "" = false.
Proof. reflexivity. Qed.

Lemma prefix_cons a d' c s :
  String.prefix (String a d') (String c s) = Ascii.eqb a c && String.prefix d' s.
Proof.
  simpl. destruct (ascii_dec a c) as [->|n].
  - now rewrite Ascii.eqb_refl.
  - apply Ascii.eqb_neq in n. now rewrite n.
Qed.

Lemma split_at_pieces a d' acc s :
  (forall i, i < String.length acc ->
     String.prefix (String a d') (Str.skip i (acc +++ s)) = false) ->
  Forall (fun piece => occurs (String a d') piece = false) (Str.split_at a d' acc s).
Proof.
  funelim (Str.split_at a d' acc s); simp split_at; intros Hacc.
  - constructor; [|constructor]. apply occurs_false. intro i.
    destruct (Nat.lt_ge_cases i (String.length acc)) as [Hi|Hi].
    + specialize (Hacc i Hi). now rewrite append_nil_r in Hacc.
    + now rewrite skip_all.
  - destruct (Ascii.eqb a c && String.prefix d' s') eqn:E.
    + constructor.
      * apply occurs_false. intro i.
        destruct (Nat.lt_ge_cases i (String.length acc)) as [Hi|Hi].
        -- specialize (Hacc i Hi). rewrite skip_append_lt in Hacc by lia.
           destruct (String.prefix (String a d') (Str.skip i acc)) eqn:P; auto.
           eapply prefix_append in P. rewrite P in Hacc. discriminate.
        -- now rewrite skip_all.
      * apply H. simpl. intros i Hi. lia.
    + apply H0. intros i Hi. rewrite append_assoc. simpl.
      rewrite length_append in Hi. simpl in Hi.
      destruct (Nat.eq_dec i (String.length acc)) as [->|Hne].
      * rewrite skip_length_append. now rewrite prefix_cons.
      * apply Hacc. lia.
Qed.

Lemma split_at_empty_acc_pieces a d' s :
  Forall (fun piece => occurs (String a d') piece = false) (Str.split_at a d' "" s).
Proof. apply split_at_pieces. simpl. intros i Hi. lia. Qed.

Lemma splitKey_split key d : splitKey key d = Str.split key d.
Proof.
  unfold splitKey. destruct (String.eqb_spec d "."); [subst|]; reflexivity.
Qed.

Lemma encode_from d steps p :
  p <> "" ->
  fold_left (fun prefix key => child_path prefix d key) steps p = String.concat d (p :: steps).
Proof.
  revert p; induction steps as [|k rest IH]; intros p Hp; [reflexivity|].
  simpl fold_left.
  assert (E : child_path p d k = p +++ d +++ k) by (destruct p; [congruence | reflexivity]).
  rewrite E, IH.
  - destruct rest as [|k' rest]; [reflexivity|].
    change (String.concat d ((p +++ d +++ k) :: k' :: rest))
      with ((p +++ d +++ k) +++ d +++ String.concat d (k' :: rest)).
    change (String.concat d (p :: k :: k' :: rest))
      with (p +++ d +++ k +++ d +++ String.concat d (k' :: rest)).
    now rewrite !append_assoc.
  - destruct p; [congruence | discriminate].
Qed.

Lemma encode_concat d steps :
  hd_error steps <> Some "" -> encode d steps = String.concat d steps.
Proof.
  unfold encode. destruct steps as [|k rest]; [reflexivity|]. intro Hs.
  simpl fold_left. apply encode_from. intros ->. now apply Hs.
Qed.

Lemma split_empty_key d : d <> "" -> Str.split "" d = [""].
Proof. destruct d; [congruence|]. intros _. reflexivity. Qed.

(** Property lists *)

Lemma get_set_same {A} k (v : A) o : Obj.get k (Obj.set k v o) = Some v.
Proof.
  induction o as [|[k' v'] o IH]; simpl.
  - now rewrite String.eqb_refl.
  - destruct (String.eqb_spec k' k); simpl.
    + now rewrite String.eqb_refl.
    + destruct (String.eqb_spec k' k); [congruence | assumption].
Qed.

Lemma get_set_other {A} k k' (v : A) o : k <> k' -> Obj.get k' (Obj.set k v o) = Obj.get k' o.
Proof.
  intro Hne. induction o as [|[k0 v0] o IH]; simpl.
  - destruct (String.eqb_spec k k'); [congruence | reflexivity].
  - destruct (String.eqb_spec k0 k); simpl.
    + subst. destruct (String.eqb_spec k k'); [congruence | reflexivity].
    + destruct (String.eqb_spec k0 k'); auto.
Qed.

Lemma nth_store_elem_same elems i v : nth_error (store_elem elems i v) i = Some (Some v).
Proof.
  revert elems; induction i as [|i IH]; intros [|e elems]; simpl; auto.
Qed.

Lemma nth_store_elem_other elems i j v x :
  i <> j -> nth_error elems j = Some (Some x) ->
  nth_error (store_elem elems i v) j = Some (Some x).
Proof.
  revert elems j; induction i as [|i IH]; intros [|e elems] [|j] Hne H; simpl in *;
    try congruence; try discriminate; try (now destruct j).
  apply IH; auto.
Qed.

Lemma store_elem_twice elems i v w :
  store_elem (store_elem elems i v) i w = store_elem elems i w.
Proof.
  revert elems; induction i as [|i IH]; intros [|e elems]; simpl; auto;
    f_equal; apply IH.
Qed.

Lemma set_twice {A} k (v w : A) o : Obj.set k w (Obj.set k v o) = Obj.set k w o.
Proof.
  induction o as [|[k' v'] o IH]; simpl.
  - now rewrite String.eqb_refl.
  - destruct (String.eqb_spec k' k); simpl.
    + now rewrite String.eqb_refl.
    + destruct (String.eqb_spec k' k); [congruence | now rewrite IH].
Qed.

Lemma Put_returns cur k v r :
  Put cur k v = Returns r -> slot cur k = true /\ r = store cur k v.
Proof.
  unfold Put, slot. destruct cur; try discriminate;
    try (destruct (k =? "__proto__"); discriminate).
  - destruct (Str.is_array_index k) eqn:I; [intros [= <-]; auto|].
    destruct (k =? "length") eqn:L; [discriminate|].
    destruct (Obj.get k named); [intros [= <-]; auto|].
    destruct (k =? "__proto__"); [discriminate | intros [= <-]; auto].
  - destruct (Obj.get k props); [intros [= <-]; auto|].
    destruct (k =? "__proto__"); [discriminate | intros [= <-]; auto].
Qed.

Lemma shape_store cur k v : shape_of (store cur k v) = shape_of cur.
Proof. destruct cur; simpl; auto. destruct (Str.is_array_index k); auto. Qed.

Lemma slot_store cur k v k' : slot (store cur k v) k' = slot cur k'.
Proof. destruct cur; simpl; auto. destruct (Str.is_array_index k); auto. Qed.

Lemma get_own_store_same cur k v : slot cur k = true -> get_own (store cur k v) k = Some v.
Proof.
  destruct cur; simpl; try discriminate.
  - destruct (Str.is_array_index k) eqn:I; simpl; rewrite I.
    + now rewrite nth_store_elem_same.
    + simpl. intros L. apply negb_true_iff in L. rewrite L. apply get_set_same.
  - intros _. apply get_set_same.
Qed.

Lemma store_store cur k x v : store (store cur k x) k v = store cur k v.
Proof.
  destruct cur; simpl; auto.
  - destruct (Str.is_array_index k) eqn:I; simpl; rewrite I.
    + now rewrite store_elem_twice.
    + now rewrite set_twice.
  - now rewrite set_twice.
Qed.

Lemma array_index_inj k k' :
  Str.is_array_index k = true -> Str.is_array_index k' = true ->
  Str.parseInt k = Str.parseInt k' -> k = k'.
Proof.
  unfold Str.is_array_index. intros H H' E.
  apply andb_true_iff in H as [H _]. apply andb_true_iff in H as [_ H].
  apply andb_true_iff in H' as [H' _]. apply andb_true_iff in H' as [_ H'].
  apply String.eqb_eq in H, H'. congruence.
Qed.

Lemma get_own_primitive s k c :
  is_container s = false -> get_own s k = Some c -> is_container c = false.
Proof.
  destruct s; simpl; try discriminate.
  intros _. destruct (Str.is_array_index k).
  - destruct (char_at s _); simpl; [intros [= <-]; reflexivity | discriminate].
  - destruct (k =? "length"); [intros [= <-]; reflexivity | discriminate].
Qed.

Lemma get_own_container_slot cur k c :
  get_own cur k = Some c -> is_container c = true -> slot cur k = true.
Proof.
  intros H C. destruct (is_container cur) eqn:Cc.
  - destruct cur; try discriminate; simpl in *; [|reflexivity].
    destruct (Str.is_array_index k); [reflexivity|]. simpl.
    destruct (k =? "length"); [injection H as <-; discriminate | reflexivity].
  - eapply get_own_primitive in H; eauto. congruence.
Qed.

Lemma get_own_store_other cur k k' v c :
  k <> k' -> get_own cur k' = Some c -> is_container c = true ->
  get_own (store cur k v) k' = Some c.
Proof.
  intros Hne. destruct (is_container cur) eqn:Cc.
  2:{ intros H C. eapply get_own_primitive in H; eauto. congruence. }
  destruct cur; try discriminate; simpl.
  - destruct (Str.is_array_index k) eqn:I, (Str.is_array_index k') eqn:I'; simpl;
      rewrite ?I'.
    + destruct (nth_error elems (N.to_nat (Str.parseInt k'))) as [[x|]|] eqn:E;
        try discriminate. intros [= <-] _.
      erewrite nth_store_elem_other; eauto.
      intro E'. apply N2Nat.inj in E'. apply Hne. now apply array_index_inj.
    + destruct (k' =? "length"); auto. intros [= <-]. discriminate.
    + auto.
    + destruct (k' =? "length"); [auto|]. intros H _. now rewrite get_set_other.
  - intros H _. now rewrite get_set_other.
Qed.

Lemma Put_primitive s k v r : is_container s = false -> Put s k v <> Returns r.
Proof.
  intros Hs H. apply Put_returns in H as [H _]. destruct s; discriminate.
Qed.

Lemma place_walk cur k next rest v :
  place cur (k :: next :: rest) v =
  (found <- Get cur k ;;
   match found with
   | None =>
       let fresh := if Str.is_numeric next then VArr [] [] else VObj [] in
       created <- Put cur k fresh ;;
       child <- place fresh (next :: rest) v ;;
       Returns (store created k child)
   | Some c =>
       child <- place c (next :: rest) v ;;
       Returns (store cur k child)
   end).
Proof. reflexivity. Qed.

Lemma Get_returns cur k found :
  Get cur k = Returns found -> get_own cur k = found.
Proof.
  unfold Get. destruct cur; try discriminate.
  all: match goal with |- context [get_own ?c ?x] => destruct (get_own c x) eqn:G end.
  all: try (intros [= <-]; reflexivity).
  all: destruct (Proto.inherits _ _); [discriminate | intros [= <-]; reflexivity].
Qed.

(** Once the walk stands on a scalar or on [null], the call does not return. *)
Lemma place_primitive keys : forall s v r,
  is_container s = false -> place s keys v <> Returns r.
Proof.
  induction keys as [|k rest IH]; intros s v r Hs.
  - now apply Put_primitive.
  - destruct rest as [|next rest']; [now apply Put_primitive|].
    rewrite place_walk.
    destruct (Get s k) as [[c|]| |] eqn:G; cbn [bind]; try discriminate.
    + apply Get_returns in G. apply get_own_primitive in G; auto.
      destruct (place c (next :: rest') v) eqn:P; try discriminate.
      exfalso. eapply IH; eauto.
    + destruct (Put s k _) eqn:P; try discriminate.
      exfalso. eapply Put_primitive; eauto.
Qed.

(** One step of the walk, as seen from a returning call. *)
Lemma place_step cur k next rest v r :
  place cur (k :: next :: rest) v = Returns r ->
  exists start child,
    place start (next :: rest) v = Returns child
    /\ r = store cur k child
    /\ slot cur k = true
    /\ match get_own cur k with
       | Some c => start = c
       | None => start = if Str.is_numeric next then VArr [] [] else VObj []
       end.
Proof.
  rewrite place_walk.
  destruct (Get cur k) as [[c|]| |] eqn:G; cbn [bind]; try discriminate;
    apply Get_returns in G; rewrite G.
  - destruct (place c (next :: rest) v) as [child| |] eqn:P; try discriminate.
    cbn [bind]. intros [= <-]. exists c, child. repeat split; auto.
    destruct (is_container c) eqn:C.
    + eapply get_own_container_slot; eauto.
    + exfalso. eapply place_primitive; eauto.
  - cbv zeta. destruct (Put cur k _) as [created| |] eqn:P; try discriminate.
    cbn [bind]. apply Put_returns in P as [Hslot ->].
    destruct (place _ (next :: rest) v) as [child| |] eqn:Pl; try discriminate.
    cbn [bind]. intros [= <-]. eexists _, child. repeat split; eauto.
    now rewrite store_store.
Qed.

Lemma place_last cur k v r :
  place cur [k] v = Returns r -> slot cur k = true /\ r = store cur k v.
Proof. apply Put_returns. Qed.

Lemma place_shape_root keys : forall root v root',
  place root keys v = Returns root' -> shape_of root' = shape_of root.
Proof.
  destruct keys as [|k [|next rest]]; intros root v root' H.
  - apply Put_returns in H as [_ ->]. apply shape_store.
  - apply Put_returns in H as [_ ->]. apply shape_store.
  - apply place_step in H as (start & child & _ & -> & _). apply shape_store.
Qed.

Lemma last_write_wins keys : forall root key v root',
  place root (keys ++ [key]) v = Returns root' ->
  lookup_path root' (keys ++ [key]) = Some v.
Proof.
  induction keys as [|k keys IH]; intros root key v root' H.
  - apply place_last in H as [Hs ->]. simpl.
    now rewrite get_own_store_same.
  - simpl app in *. destruct (keys ++ [key]) as [|next rest] eqn:E.
    + destruct keys; discriminate.
    + apply place_step in H as (start & child & Hp & -> & Hs & _).
      simpl. rewrite get_own_store_same by assumption.
      rewrite <- E in Hp. apply IH in Hp. now rewrite E in Hp.
Qed.

Lemma lookup_primitive q : forall s c,
  is_container s = false -> lookup_path s q = Some c -> is_container c = false.
Proof.
  induction q as [|k q IH]; intros s c Hs H; simpl in H.
  - congruence.
  - destruct (get_own s k) as [c1|] eqn:G; [|discriminate].
    apply (IH c1 c); auto. eapply get_own_primitive; eauto.
Qed.

Lemma containers_keep_shape keys : forall root v root' q c,
  place root keys v = Returns root' ->
  keys <> [] ->
  lookup_path root q = Some c -> is_container c = true ->
  is_prefix keys q = false ->
  exists c', lookup_path root' q = Some c' /\ shape_of c' = shape_of c.
Proof.
  induction keys as [|k rest IH]; intros root v root' q c H Hne Hq Hc Hpre;
    [congruence|].
  destruct q as [|k' q'].
  - simpl in Hq. injection Hq as <-. exists root'. split; [reflexivity|].
    eapply place_shape_root; eauto.
  - simpl in Hq. destruct (get_own root k') as [c1|] eqn:G1; [|discriminate].
    assert (C1 : is_container c1 = true).
    { destruct (is_container c1) eqn:C1; auto.
      apply (lookup_primitive _ _ _ C1) in Hq. congruence. }
    destruct (String.eqb_spec k k') as [<-|Hkk].
    + simpl in Hpre. rewrite String.eqb_refl in Hpre. simpl in Hpre.
      destruct rest as [|next rest']; [discriminate|].
      apply place_step in H as (start & child & Hp & -> & Hs & Hstart).
      rewrite G1 in Hstart. subst start.
      simpl. rewrite get_own_store_same by assumption.
      eapply IH; eauto. discriminate.
    + assert (Hr : exists x, root' = store root k x).
      { destruct rest as [|next rest'].
        - apply place_last in H as [_ ->]. eauto.
        - apply place_step in H as (start & child & _ & -> & _). eauto. }
      destruct Hr as [x ->]. simpl.
      erewrite get_own_store_other; eauto.
Qed.

Lemma fresh_lookup next p :
  lookup_path (if Str.is_numeric next then VArr [] [] else VObj []) (next :: p) = None.
Proof.
  destruct (Str.is_numeric next) eqn:Hn; simpl; auto.
  destruct (Str.is_array_index next).
  - destruct (N.to_nat (Str.parseInt next)); reflexivity.
  - destruct (String.eqb_spec next "length"); [subst; discriminate | reflexivity].
Qed.

Lemma created_shape p : forall root next rest v root',
  place root (p ++ next :: rest) v = Returns root' ->
  p <> [] ->
  lookup_path root p = None ->
  exists c', lookup_path root' p = Some c'
             /\ shape_of c' = if Str.is_numeric next then Sequence else Map.
Proof.
  induction p as [|k p IH]; intros root next rest v root' H Hne Hnone; [congruence|].
  simpl app in H. destruct (p ++ next :: rest) as [|next0 rest0] eqn:E.
  { destruct p; discriminate. }
  apply place_step in H as (start & child & Hp & -> & Hs & Hstart).
  simpl. rewrite get_own_store_same by assumption.
  simpl in Hnone. destruct p as [|k2 p2].
  - injection E as <- <-. destruct (get_own root k); [discriminate|]. subst start.
    exists child. split; [reflexivity|].
    rewrite (place_shape_root _ _ _ _ Hp). now destruct (Str.is_numeric next).
  - injection E as <- <-. apply (IH start next rest v); try discriminate; auto.
    destruct (get_own root k) as [c1|]; subst start; auto.
    apply fresh_lookup.
Qed.

Lemma place_primitive_throws keys : forall s v,
  is_container s = false ->
  place s keys v = Throws TypeError \/ place s keys v = Exotic.
Proof.
  assert (PutP : forall s k v, is_container s = false ->
            Put s k v = Throws TypeError \/ Put s k v = Exotic).
  { intros s k v Hs. destruct s; try discriminate; simpl; auto;
      destruct (k =? "__proto__"); auto. }
  induction keys as [|k rest IH]; intros s v Hs.
  - now apply PutP.
  - destruct rest as [|next rest']; [now apply PutP|].
    rewrite place_walk.
    destruct (Get s k) as [[c|]|e|] eqn:G; cbn [bind]; auto.
    + apply Get_returns in G. apply get_own_primitive in G; auto.
      destruct (IH c v G) as [-> | ->]; auto.
    + cbv zeta. destruct (PutP s k (if Str.is_numeric next then VArr [] [] else VObj []) Hs)
        as [-> | ->]; auto.
    + left. unfold Get in G. destruct s; try discriminate; try (injection G as <-; reflexivity).
      all: match type of G with context [get_own ?c ?x] => destruct (get_own c x) end;
        try discriminate; destruct (Proto.inherits _ _); discriminate.
Qed.

Lemma loop_keeps_shape d entries : forall root final q c,
  Obj.for_each entries (place_entry d) root = Returns final ->
  lookup_path root q = Some c -> is_container c = true ->
  (forall e, In e entries -> is_prefix (splitKey (fst e) d) q = false) ->
  exists c', lookup_path final q = Some c' /\ shape_of c' = shape_of c.
Proof.
  induction entries as [|e entries IH]; intros root final q c H Hq Hc Hpre.
  - injection H as <-. eauto.
  - simpl in H. destruct (place_entry d e root) as [staged| |] eqn:P; try discriminate.
    cbn [bind] in H. unfold place_entry in P.
    assert (Hk : is_prefix (splitKey (fst e) d) q = false) by (apply Hpre; now left).
    destruct (containers_keep_shape _ _ _ _ q c P) as (c1 & Hq1 & Hs1); auto.
    { intro E. rewrite E in Hk. discriminate. }
    destruct (IH staged final q c1 H Hq1) as (c2 & Hq2 & Hs2).
    + destruct c1, c; simpl in *; congruence.
    + intros e' He'. apply Hpre. now right.
    + exists c2. split; congruence.
Qed.

(** C10. During the placement loop of [unflatten] the shape of an
    intermediate container is fixed when it is created: a container that
    does not exist when an entry walks through its path [p] is created as a
    sequence if and only if the step following [p] in that entry's path is
    an all-digit string, and otherwise as a map; and a container that
    exists keeps its shape through every entry, those walking through it
    included, as long as no entry assigns at its path or above it (which
    would replace it as a child of its parent). *)
Theorem C10_container_shape_fixed_at_creation :
  forall (d : string) (e : string * JsonValue) (later : FlatMap) (root final : JsValue),
    Obj.for_each (e :: later) (place_entry d) root = Returns final ->
    (forall p next rest,
        splitKey (fst e) d = p ++ next :: rest -> p <> [] ->
        lookup_path root p = None ->
        (forall e', In e' later -> is_prefix (splitKey (fst e') d) p = false) ->
        exists c, lookup_path final p = Some c
                  /\ shape_of c = if Str.is_numeric next then Sequence else Map)
    /\ (forall q c,
        lookup_path root q = Some c -> is_container c = true ->
        (forall e', In e' (e :: later) -> is_prefix (splitKey (fst e') d) q = false) ->
        exists c', lookup_path final q = Some c' /\ shape_of c' = shape_of c).
Proof.
  intros d e later root final H. split.
  - intros p next rest Hkeys Hp Hnone Hlater.
    simpl in H. destruct (place_entry d e root) as [staged| |] eqn:P; try discriminate.
    cbn [bind] in H. unfold place_entry in P. rewrite Hkeys in P.
    destruct (created_shape _ _ _ _ _ _ P Hp Hnone) as (c1 & Hc1 & Hs1).
    destruct (loop_keeps_shape _ _ _ _ _ c1 H Hc1) as (c2 & Hc2 & Hs2); auto.
    + destruct c1; simpl in *; auto; destruct (Str.is_numeric next); discriminate.
    + exists c2. split; congruence.
  - intros q c Hq Hc Hpre. eapply loop_keeps_shape; eauto.
Qed.

Lemma C10_witness :
  Obj.for_each [("a.0", JNum 1%Z); ("a.b", JNum 2%Z)] (place_entry ".") (VObj [])
    = Returns (VObj [("a", VArr [Some (VNum 1%Z)] [("b", VNum 2%Z)])])
  /\ exists c, lookup_path (VObj [("a", VArr [Some (VNum 1%Z)] [("b", VNum 2%Z)])]) ["a"] = Some c
               /\ shape_of c = Sequence.
Proof.
  assert (H : Obj.for_each [("a.0", JNum 1%Z); ("a.b", JNum 2%Z)] (place_entry ".") (VObj [])
    = Returns (VObj [("a", VArr [Some (VNum 1%Z)] [("b", VNum 2%Z)])])) by reflexivity.
  split; [exact H|].
  destruct (C10_container_shape_fixed_at_creation _ _ _ _ _ H) as [Hcreated _].
  apply (Hcreated ["a"] "0" []); try reflexivity; try discriminate.
  intros e' [<-|[]]. reflexivity.
Defined.

(** C5, as amended.  For a flat mapping whose single entry has the empty
    string as key and a scalar or an empty array or object as value,
    [unflatten] (with a non-empty delimiter) returns a map holding that
    value under the key [""]: the value is wrapped, it is not the root.
    Dually [flatten] of such a root value emits it under the key [""]. *)
Theorem C5_root_scalar_is_wrapped :
  forall (v : JsonValue) (d : string),
    d <> "" -> is_leaf v = true ->
    unflatten [("", v)] d = Returns (VObj [("", of_json v)])
    /\ flatten v d = Returns [("", v)].
Proof.
  intros v d Hd Hv. split.
  - unfold unflatten. cbn [Obj.entries filter Obj.has_index fst Obj.sort_by_index app negb].
    change (Str.is_array_index "") with false. cbn.
    unfold place_entry. cbn [fst snd]. rewrite splitKey_split, split_empty_key by assumption.
    destruct v as [| | | |[|x l]|[|kv l]]; try discriminate; reflexivity.
  - destruct v as [| | | |[|x l]|[|kv l]]; try discriminate; reflexivity.
Qed.

Lemma C5_witness :
  unflatten [("", JStr "x")] "." = Returns (VObj [("", VStr "x")]).
Proof.
  apply (C5_root_scalar_is_wrapped (JStr "x") "."); [discriminate | reflexivity].
Defined.

(** The claim C5 as stated fails: the root scalar [5] and the empty array
    come back wrapped in a map. *)
Lemma C5_counterexample :
  unflatten [("", JNum 5%Z)] "." = Returns (VObj [("", VNum 5%Z)])
  /\ unflatten [("", JNum 5%Z)] "." <> Returns (of_json (JNum 5%Z))
  /\ unflatten [("", JArr [])] "." <> Returns (of_json (JArr [])).
Proof. repeat split; vm_compute; discriminate. Qed.

(** C7. Empty containers are kept: flattening [{"a": [], "b": {}}] with
    delimiter [.] gives exactly the two entries [a -> []] and [b -> {}], and
    unflattening these gives the tree back, the empty array still an array
    and the empty object still an object. *)
Theorem C7_empty_containers_preserved :
  flatten (JObj [("a", JArr []); ("b", JObj [])]) "."
    = Returns [("a", JArr []); ("b", JObj [])]
  /\ unflatten [("a", JArr []); ("b", JObj [])] "."
    = Returns (VObj [("a", VArr [] []); ("b", VObj [])])
  /\ of_json (JObj [("a", JArr []); ("b", JObj [])])
    = VObj [("a", VArr [] []); ("b", VObj [])].
Proof. repeat split; vm_compute; reflexivity. Qed.

Lemma replace_star_escape p : replace_star (escape_meta p) = translate p.
Proof.
  induction p as [|c p IH]; [reflexivity|]. cbn [escape_meta translate].
  destruct (Ascii.eqb_spec c "*") as [->|Hc].
  - change (is_meta "*") with false. cbn [replace_star]. cbn [Ascii.eqb Bool.eqb].
    now rewrite IH.
  - apply Ascii.eqb_neq in Hc.
    destruct (is_meta c); cbn [replace_star]; rewrite ?Hc, IH; reflexivity.
Qed.

Lemma translate_head p : starts_with_star (translate p) = false.
Proof.
  destruct p as [|c p]; [reflexivity|]. simpl.
  destruct (Ascii.eqb_spec c "*"); [reflexivity|].
  destruct (is_meta c); simpl; [reflexivity|].
  now apply Ascii.eqb_neq.
Qed.

Lemma replace_star_star_cons c s :
  starts_with_star s = false ->
  replace_star_star (String c s) = String c (replace_star_star s).
Proof.
  destruct s as [|c' s]; simpl; [reflexivity|]. intros ->.
  now rewrite andb_false_r.
Qed.

Lemma replace_star_star_nonstar c s :
  Ascii.eqb c "*" = false ->
  replace_star_star (String c s) = String c (replace_star_star s).
Proof.
  destruct s as [|c' s]; simpl; [reflexivity|]. now intros ->.
Qed.

(** The third replacement finds nothing to replace. *)
Lemma replace_star_star_translate p : replace_star_star (translate p) = translate p.
Proof.
  induction p as [|c p IH]; [reflexivity|]. simpl.
  destruct (Ascii.eqb_spec c "*") as [->|Hc].
  - change ("[^.]*" +++ translate p)
      with (String "[" (String "^" (String "." (String "]" (String "*" (translate p)))))).
    rewrite !replace_star_star_nonstar by reflexivity.
    rewrite replace_star_star_cons by apply translate_head. now rewrite IH.
  - destruct (is_meta c) eqn:M.
    + rewrite replace_star_star_nonstar by reflexivity.
      rewrite replace_star_star_cons by apply translate_head. now rewrite IH.
    + rewrite replace_star_star_cons by apply translate_head. now rewrite IH.
Qed.

Lemma regex_source_translate p : regex_source p = "^" +++ translate p +++ "$".
Proof.
  unfold regex_source. now rewrite replace_star_escape, replace_star_star_translate.
Qed.

Lemma meta_is_syntax c : is_meta c = true -> Regex.syntax_char c = true.
Proof.
  destruct c as [[|] [|] [|] [|] [|] [|] [|] [|]]; vm_compute; congruence.
Qed.

Lemma lex_plain c r :
  is_meta c = false -> Ascii.eqb c "*" = false ->
  Regex.lex (String c r) = option_map (cons (Regex.TAtom (Regex.Lit c))) (Regex.lex r).
Proof.
  destruct c as [[|] [|] [|] [|] [|] [|] [|] [|]]; vm_compute is_meta;
    vm_compute Ascii.eqb; intros M S; try discriminate; reflexivity.
Qed.

Lemma lex_translate p : forall tail,
  Regex.lex (translate p +++ tail) =
  option_map (app (flat_map glob_tokens (list_ascii_of_string p))) (Regex.lex tail).
Proof.
  induction p as [|c p IH]; intro tail.
  - simpl. now destruct (Regex.lex tail).
  - cbn [translate list_ascii_of_string flat_map]. unfold glob_tokens at 1.
    destruct (Ascii.eqb c "*") eqn:S.
    + change (("[^.]*" +++ translate p) +++ tail) with
        (String "[" (String "^" (String "." (String "]" (String "*" (translate p +++ tail)))))).
      cbn [Regex.lex]. cbn. rewrite IH. now destruct (Regex.lex tail).
    + destruct (is_meta c) eqn:M.
      * cbn [String.append]. cbn [Regex.lex]. rewrite (meta_is_syntax _ M), IH.
        now destruct (Regex.lex tail).
      * cbn [String.append]. rewrite lex_plain, IH by assumption.
        now destruct (Regex.lex tail).
Qed.

Lemma quantify_glob p : forall tail items,
  Regex.quantify tail = Some items ->
  (match tail with Regex.TStar :: _ => False | _ => True end) ->
  Regex.quantify (flat_map glob_tokens (list_ascii_of_string p) ++ tail)
  = Some (glob_items p ++ items).
Proof.
  induction p as [|c p IH]; intros tail items Ht Hhead; [exact Ht|].
  unfold glob_items. cbn [list_ascii_of_string flat_map map].
  fold (glob_items p). specialize (IH tail items Ht Hhead).
  unfold glob_tokens at 1, glob_item. destruct (Ascii.eqb c "*") eqn:S.
  - cbn [app Regex.quantify]. now rewrite IH.
  - cbn [app Regex.quantify].
    destruct (flat_map glob_tokens (list_ascii_of_string p) ++ tail) as [|t l] eqn:E.
    + now rewrite IH.
    + destruct t; try (now rewrite IH).
      exfalso. destruct p as [|c' p]; simpl in E.
      * subst tail. exact Hhead.
      * unfold glob_tokens in E. destruct (Ascii.eqb c' "*"); discriminate.
Qed.

Lemma parse_regex_source p :
  Regex.parse (regex_source p) = Some (Regex.Bol :: glob_items p ++ [Regex.Eol]).
Proof.
  rewrite regex_source_translate. unfold Regex.parse.
  change ("^" +++ translate p +++ "$") with (String "^" (translate p +++ "$")).
  cbn [Regex.lex]. cbn [Ascii.eqb Bool.eqb]. rewrite lex_translate.
  cbn [Regex.lex option_map]. cbn [Ascii.eqb Bool.eqb option_map].
  cbn [Regex.quantify].
  rewrite (quantify_glob p [Regex.TEol] [Regex.Eol]); auto.
Qed.

Lemma matches_glob p : forall b s,
  Regex.matches (glob_items p ++ [Regex.Eol]) b s = glob p s.
Proof.
  induction p as [|c p IH]; intros b s.
  - destruct s; reflexivity.
  - unfold glob_items. cbn [list_ascii_of_string map app]. fold (glob_items p).
    unfold glob_item. cbn [glob]. destruct (Ascii.eqb c "*") eqn:S.
    + cbn [Regex.matches]. revert b.
      induction s as [|x s IHs]; intro b.
      * rewrite IH. reflexivity.
      * rewrite IH. cbn [Regex.accepts]. rewrite IHs. reflexivity.
    + cbn [Regex.matches]. destruct s as [|x s]; [reflexivity|].
      cbn [Regex.accepts]. now rewrite IH.
Qed.

Lemma search_anchored r : forall s,
  Regex.search (Regex.Bol :: r) false s = false.
Proof. induction s as [|x s IH]; simpl; auto. Qed.

Lemma test_glob p s :
  Regex.test (Regex.Bol :: glob_items p ++ [Regex.Eol]) s = glob p s.
Proof.
  unfold Regex.test. destruct s as [|x s]; cbn [Regex.search].
  - cbn [Regex.matches andb]. rewrite matches_glob. apply orb_false_r.
  - rewrite search_anchored, orb_false_r. cbn [Regex.matches andb]. apply matches_glob.
Qed.

(** Enumeration order is a rearrangement of the properties. *)
Lemma in_insert_by_index {A} (e x : string * A) l :
  In x (Obj.insert_by_index e l) <-> x = e \/ In x l.
Proof.
  induction l as [|e' l IH]; simpl.
  - intuition.
  - destruct (Obj.index_of e <=? Obj.index_of e')%N; simpl; rewrite ?IH; intuition.
Qed.

Lemma in_sort_by_index {A} (x : string * A) l : In x (Obj.sort_by_index l) <-> In x l.
Proof.
  induction l as [|e l IH]; simpl; [tauto|].
  rewrite in_insert_by_index, IH. intuition.
Qed.

Lemma in_entries {A} (x : string * A) o : In x (Obj.entries o) <-> In x o.
Proof.
  unfold Obj.entries. rewrite in_app_iff, in_sort_by_index, !filter_In.
  destruct (Obj.has_index x); simpl; intuition.
Qed.

Lemma in_keys_set {A} k k' (v : A) o :
  In k (map fst (Obj.set k' v o)) <-> k = k' \/ In k (map fst o).
Proof.
  induction o as [|[k0 v0] o IH]; simpl.
  - intuition.
  - destruct (String.eqb_spec k0 k'); simpl.
    + subst. intuition.
    + rewrite IH. intuition.
Qed.

Lemma assign_returns {A} k (v : A) o r :
  Obj.assign k v o = Returns r -> r = Obj.set k v o.
Proof.
  unfold Obj.assign. destruct (Obj.get k o); [congruence|].
  destruct (k =? "__proto__"); congruence.
Qed.

Lemma assign_plain {A} k (v : A) o :
  k <> "__proto__" -> Obj.assign k v o = Returns (Obj.set k v o).
Proof.
  intro H. unfold Obj.assign. destruct (Obj.get k o); [reflexivity|].
  destruct (String.eqb_spec k "__proto__"); [contradiction | reflexivity].
Qed.

Lemma select_loop_keys test entries : forall acc r,
  Obj.for_each entries (select test) acc = Returns r ->
  forall k, In k (map fst r) <->
            In k (map fst acc) \/ (In k (map fst entries) /\ test k = true).
Proof.
  induction entries as [|[k0 v0] entries IH]; intros acc r H k.
  - injection H as <-. simpl. tauto.
  - simpl in H. destruct (select test (k0, v0) acc) as [acc'| |] eqn:S; try discriminate.
    cbn [bind] in H. rewrite (IH _ _ H k). unfold select in S. simpl in S. simpl.
    destruct (test k0) eqn:T.
    + apply assign_returns in S. subst acc'. rewrite in_keys_set.
      split; [intros [[->|?]|[? ?]] | intros [?|[[<-|?] ?]]]; auto.
    + injection S as <-.
      split; [intros [?|[? ?]] | intros [?|[[<-|?] ?]]]; auto. congruence.
Qed.

Lemma select_loop_returns test entries : forall acc,
  test "__proto__" = false ->
  exists r, Obj.for_each entries (select test) acc = Returns r.
Proof.
  induction entries as [|[k0 v0] entries IH]; intros acc Hp; simpl.
  - eauto.
  - unfold select at 1. simpl. destruct (test k0) eqn:T.
    + rewrite assign_plain by congruence. cbn [bind]. auto.
    + cbn [bind]. auto.
Qed.

Lemma filterByPath_select flat pattern :
  filterByPath flat pattern =
  Obj.for_each (Obj.entries flat) (select (glob pattern)) [].
Proof.
  unfold filterByPath. rewrite parse_regex_source.
  assert (E : forall l acc,
    Obj.for_each l (fun (kv : string * JsonValue) result =>
      if Regex.test (Regex.Bol :: glob_items pattern ++ [Regex.Eol]) (fst kv)
      then Obj.assign (fst kv) (snd kv) result else Returns result) acc
    = Obj.for_each l (select (glob pattern)) acc).
  { induction l as [|kv l IH]; intro acc; [reflexivity|]. simpl.
    unfold select at 1. rewrite test_glob.
    destruct (if glob pattern (fst kv) then _ else _); cbn [bind]; auto. }
  apply E.
Qed.

Lemma filterByPath_keys flat pattern r :
  filterByPath flat pattern = Returns r ->
  forall k, In k (map fst r) <-> In k (map fst flat) /\ glob pattern k = true.
Proof.
  rewrite filterByPath_select. intros H k.
  rewrite (select_loop_keys _ _ _ _ H k). simpl.
  assert (P : In k (map fst (Obj.entries flat)) <-> In k (map fst flat)).
  { rewrite !in_map_iff. split; intros (x & Hx & Hin); exists x; split; auto;
      now apply in_entries. }
  rewrite P. tauto.
Qed.

(** C3, as amended.  For every pattern whose [*] are lone (no two of them
    adjacent) and every path, the compiled pattern is a well-formed regular
    expression in which every character other than [*] stands for itself
    (the metacharacters being escaped) and the match is anchored at both
    ends of the path; a lone [*] matches any run, empty or not, of
    characters other than [.], the dot being fixed whatever delimiter was
    configured.  So [filterByPath] keeps exactly the entries whose key the
    pattern matches in this sense; in particular [user.*] matches
    [user.name] and [user.age] and not [user.address.city]. *)
Theorem C3_star_matches_a_run_without_dot :
  forall (flat : FlatMap) (pattern : string) (selected : FlatMap),
    lone_stars pattern = true ->
    filterByPath flat pattern = Returns selected ->
    (forall path, exists regex,
        Regex.parse (regex_source pattern) = Some regex
        /\ Regex.test regex path = glob pattern path)
    /\ (forall key, In key (map fst selected) <->
                    In key (map fst flat) /\ glob pattern key = true)
    /\ glob "user.*" "user.name" = true
    /\ glob "user.*" "user.age" = true
    /\ glob "user.*" "user.address.city" = false
    /\ filterByPath [("user.name", JStr "Jane"); ("user.age", JNum 28%Z);
                     ("user.address.city", JStr "Portland")] "user.*"
       = Returns [("user.name", JStr "Jane"); ("user.age", JNum 28%Z)].
Proof.
  intros flat pattern selected _ H. split; [|split].
  - intro path. eexists. split; [apply parse_regex_source | apply test_glob].
  - now apply filterByPath_keys.
  - repeat split.
Qed.

Lemma C3_witness :
  In "user.age" (map fst [("user.name", JStr "Jane"); ("user.age", JNum 28%Z)]) <->
    In "user.age" (map fst [("user.name", JStr "Jane"); ("user.age", JNum 28%Z);
                            ("user.address.city", JStr "Portland")])
    /\ glob "user.*" "user.age" = true.
Proof.
  apply (C3_star_matches_a_run_without_dot
           [("user.name", JStr "Jane"); ("user.age", JNum 28%Z);
            ("user.address.city", JStr "Portland")] "user.*"
           [("user.name", JStr "Jane"); ("user.age", JNum 28%Z)]);
    reflexivity.
Defined.

(** The claim C3 as stated fails: [*] matches the empty segment of [user.],
    and with the delimiter [/] it runs across two segments. *)
Lemma C3_counterexample :
  filterByPath [("user.", JNum 1%Z)] "user.*" = Returns [("user.", JNum 1%Z)]
  /\ (flat <- flatten (JObj [("user", JObj [("a", JObj [("b", JNum 1%Z)])])]) "/" ;;
      filterByPath flat "user/*") = Returns [("user/a/b", JNum 1%Z)].
Proof. split; reflexivity. Qed.

Lemma perm_insert_by_index {A} (e : string * A) l :
  Permutation (Obj.insert_by_index e l) (e :: l).
Proof.
  induction l as [|e' l IH]; simpl; [reflexivity|].
  destruct (Obj.index_of e <=? Obj.index_of e')%N; [reflexivity|].
  rewrite IH. apply perm_swap.
Qed.

Lemma perm_sort_by_index {A} (l : list (string * A)) :
  Permutation (Obj.sort_by_index l) l.
Proof.
  induction l as [|e l IH]; simpl; [reflexivity|].
  rewrite perm_insert_by_index. now constructor.
Qed.

Lemma perm_filter_split {A} (p : A -> bool) l :
  Permutation (filter p l ++ filter (fun x => negb (p x)) l) l.
Proof.
  induction l as [|x l IH]; simpl; [reflexivity|].
  destruct (p x); simpl.
  - now constructor.
  - rewrite <- Permutation_middle. now constructor.
Qed.

Lemma perm_entries {A} (o : list (string * A)) : Permutation (Obj.entries o) o.
Proof.
  unfold Obj.entries. rewrite perm_sort_by_index. apply perm_filter_split.
Qed.

Lemma array_index_print k :
  Str.is_array_index k = true -> Str.of_index (Str.parseInt k) = k.
Proof.
  unfold Str.is_array_index. intro H.
  apply andb_true_iff in H as [H _]. apply andb_true_iff in H as [_ H].
  now apply String.eqb_eq.
Qed.

Lemma array_index_small k :
  Str.is_array_index k = true -> (Str.parseInt k < 4294967295)%N.
Proof.
  unfold Str.is_array_index. intro H.
  apply andb_true_iff in H as [_ H]. now apply N.ltb_lt.
Qed.

Lemma put_number_returns arr n v r :
  put_number arr n v = Returns r -> r = store arr (Str.of_index n) v.
Proof.
  unfold put_number. destruct (n <? 9007199254740992)%N; [|discriminate].
  intro H. now apply Put_returns in H.
Qed.

Lemma convert_loop_shape l : forall arr r,
  Obj.for_each l convert_into arr = Returns r -> shape_of r = shape_of arr.
Proof.
  induction l as [|[k m] l IH]; intros arr r H.
  - now injection H as <-.
  - simpl in H. unfold convert_into at 1 in H. simpl in H.
    destruct m as [x| |]; try discriminate. cbn [bind] in H.
    destruct (put_number arr (Str.parseInt k) x) as [arr'| |] eqn:P; try discriminate.
    cbn [bind] in H. apply put_number_returns in P. subst arr'.
    rewrite (IH _ _ H). apply shape_store.
Qed.

Lemma get_own_store_index arr k k' v x :
  shape_of arr = Sequence ->
  Str.is_array_index k = true -> Str.is_array_index k' = true -> k <> k' ->
  get_own arr k' = Some x -> get_own (store arr k v) k' = Some x.
Proof.
  intros Ha Hk Hk' Hne. destruct arr; try discriminate. simpl.
  rewrite Hk. simpl. rewrite Hk'.
  destruct (nth_error elems (N.to_nat (Str.parseInt k'))) as [[y|]|] eqn:E;
    try discriminate. intros [= <-].
  erewrite nth_store_elem_other; eauto.
  intro E'. apply N2Nat.inj in E'. apply Hne. now apply array_index_inj.
Qed.

Lemma convert_loop_places l : forall arr r,
  Obj.for_each l convert_into arr = Returns r ->
  shape_of arr = Sequence ->
  NoDup (map fst l) ->
  (forall kv, In kv l -> Str.is_array_index (fst kv) = true) ->
  (forall k m, In (k, m) l -> exists x, m = Returns x /\ get_own r k = Some x)
  /\ (forall k x, Str.is_array_index k = true -> ~ In k (map fst l) ->
        get_own arr k = Some x -> get_own r k = Some x).
Proof.
  induction l as [|[k0 m0] l IH]; intros arr r H Ha Hnd Hidx.
  - injection H as <-. split; [intros k m []|auto].
  - simpl in H. unfold convert_into at 1 in H. simpl in H.
    destruct m0 as [x0| |]; try discriminate. cbn [bind] in H.
    destruct (put_number arr (Str.parseInt k0) x0) as [arr'| |] eqn:P; try discriminate.
    cbn [bind] in H. apply put_number_returns in P.
    assert (I0 : Str.is_array_index k0 = true) by (apply (Hidx (k0, Returns x0)); now left).
    rewrite (array_index_print _ I0) in P. subst arr'.
    inversion Hnd as [|? ? Hnotin Hnd']; subst.
    assert (Ha' : shape_of (store arr k0 x0) = Sequence) by now rewrite shape_store.
    destruct (IH _ _ H Ha' Hnd') as [IH1 IH2].
    { intros kv Hin. apply Hidx. now right. }
    split.
    + intros k m [[= <- <-]|Hin].
      * exists x0. split; [reflexivity|]. apply IH2; auto.
        apply get_own_store_same. destruct arr; try discriminate. simpl. now rewrite I0.
      * now apply IH1.
    + intros k x Hk Hnot Hget. apply IH2; auto.
      * intro Hin. apply Hnot. now right.
      * apply get_own_store_index; auto.
        intros ->. apply Hnot. now left.
Qed.

Lemma sequence_returns (f : JsValue -> outcome JsValue) props : forall props',
  sequence (map (fun kv => (fst kv, f (snd kv))) props) = Returns props' ->
  map fst props' = map fst props
  /\ Forall2 (fun kv kv' => f (snd kv) = Returns (snd kv')) props props'.
Proof.
  induction props as [|[k v] props IH]; intros props' H; simpl in H.
  - injection H as <-. split; [reflexivity | constructor].
  - destruct (f v) as [x| |] eqn:F; try discriminate. cbn [bind] in H.
    destruct (sequence _) as [rest| |]; try discriminate. cbn [bind] in H.
    injection H as <-. destruct (IH rest eq_refl) as [IH1 IH2]. split.
    + simpl. now rewrite IH1.
    + constructor; auto.
Qed.

Lemma maybeConvertToArray_object props :
  maybeConvertToArray (VObj props) =
  if all_numeric (Obj.keys props) then
    Obj.for_each
      (Obj.entries (map (fun kv => (fst kv, maybeConvertToArray (snd kv))) props))
      convert_into (VArr [] [])
  else
    props' <- sequence (map (fun kv => (fst kv, maybeConvertToArray (snd kv))) props) ;;
    Returns (VObj props').
Proof. reflexivity. Qed.

Lemma JsonValue_induction (P : JsonValue -> Prop) :
  P JNull -> (forall b, P (JBool b)) -> (forall n, P (JNum n)) -> (forall s, P (JStr s)) ->
  (forall items, Forall P items -> P (JArr items)) ->
  (forall props, Forall (fun kv => P (snd kv)) props -> P (JObj props)) ->
  forall v, P v.
Proof.
  intros Hnull Hbool Hnum Hstr Harr Hobj. fix IH 1. intros [| b | n | s | items | props].
  - exact Hnull.
  - apply Hbool.
  - apply Hnum.
  - apply Hstr.
  - apply Harr. induction items as [|x items IHi]; constructor; [apply IH | exact IHi].
  - apply Hobj. induction props as [|[k x] props IHp]; constructor; [apply IH | exact IHp].
Qed.

Lemma for_each_app {E S} (body : E -> S -> outcome S) l1 : forall l2 s,
  Obj.for_each (l1 ++ l2) body s = (s' <- Obj.for_each l1 body s ;; Obj.for_each l2 body s').
Proof.
  induction l1 as [|e l1 IH]; intros l2 s; simpl; [reflexivity|].
  destruct (body e s); cbn [bind]; auto.
Qed.

(** Enumeration order depends on the keys only. *)
Lemma insert_by_index_map {A B} (f : A -> B) e l :
  Obj.insert_by_index (lift_value f e) (map (lift_value f) l)
  = map (lift_value f) (Obj.insert_by_index e l).
Proof.
  induction l as [|e' l IH]; simpl; [reflexivity|].
  unfold Obj.index_of in *. simpl.
  destruct (Str.parseInt (fst e) <=? Str.parseInt (fst e'))%N; simpl; [reflexivity|].
  now rewrite IH.
Qed.

Lemma sort_by_index_map {A B} (f : A -> B) l :
  Obj.sort_by_index (map (lift_value f) l) = map (lift_value f) (Obj.sort_by_index l).
Proof.
  induction l as [|e l IH]; simpl; [reflexivity|].
  now rewrite IH, insert_by_index_map.
Qed.

Lemma filter_map_keys {A B} (f : A -> B) (p : string -> bool) l :
  filter (fun e => p (fst e)) (map (lift_value f) l)
  = map (lift_value f) (filter (fun e => p (fst e)) l).
Proof.
  induction l as [|e l IH]; simpl; [reflexivity|].
  destruct (p (fst e)); simpl; now rewrite IH.
Qed.

Lemma entries_map {A B} (f : A -> B) l :
  Obj.entries (map (fun kv => (fst kv, f (snd kv))) l)
  = map (fun kv => (fst kv, f (snd kv))) (Obj.entries l).
Proof.
  change (fun kv : string * A => (fst kv, f (snd kv))) with (lift_value f).
  unfold Obj.entries, Obj.has_index.
  rewrite (filter_map_keys f Str.is_array_index).
  rewrite (filter_map_keys f (fun k => negb (Str.is_array_index k))).
  now rewrite sort_by_index_map, map_app.
Qed.

Lemma visit_items_walk d items :
  Forall (fun x => forall prefix result,
            flatten_into d x prefix result =
            Obj.for_each (leaves d x prefix) assign_entry result) items ->
  forall i prefix result,
    visit_items d (map (flatten_into d) items) i prefix result =
    Obj.for_each (walk_items d (map (leaves d) items) i prefix) assign_entry result.
Proof.
  induction 1 as [|y ys Hy Hys IHys]; intros i prefix result; [reflexivity|].
  cbn [map visit_items walk_items]. rewrite for_each_app, Hy.
  destruct (Obj.for_each _ _ _); cbn [bind]; auto.
Qed.

Lemma visit_keys_walk d (es : list (string * JsonValue)) :
  Forall (fun kv => forall prefix result,
            flatten_into d (snd kv) prefix result =
            Obj.for_each (leaves d (snd kv) prefix) assign_entry result) es ->
  forall prefix result,
    visit_keys d (map (fun kv => (fst kv, flatten_into d (snd kv))) es) prefix result =
    Obj.for_each
      (walk_keys d (map (fun kv => (fst kv, leaves d (snd kv))) es) prefix)
      assign_entry result.
Proof.
  unfold visit_keys, walk_keys.
  induction 1 as [|y ys Hy Hys IHys]; intros prefix result; [reflexivity|].
  cbn [map Obj.for_each flat_map fst snd]. rewrite for_each_app, Hy.
  destruct (Obj.for_each _ _ _); cbn [bind]; auto.
Qed.

Lemma assign_leaf (v : JsonValue) prefix result :
  Obj.assign prefix v result = Obj.for_each [(prefix, v)] assign_entry result.
Proof. simpl. unfold assign_entry. simpl. now destruct (Obj.assign _ _ _). Qed.

Lemma flatten_into_leaves d v : forall prefix result,
  flatten_into d v prefix result = Obj.for_each (leaves d v prefix) assign_entry result.
Proof.
  induction v as [| b | n | s | items IH | props IH] using JsonValue_induction;
    intros prefix result.
  1-4: apply assign_leaf.
  - destruct items as [|x items]; [apply assign_leaf|].
    change (visit_items d (map (flatten_into d) (x :: items)) 0 prefix result =
            Obj.for_each (walk_items d (map (leaves d) (x :: items)) 0 prefix)
              assign_entry result).
    now apply visit_items_walk.
  - destruct props as [|kv props]; [apply assign_leaf|].
    change (visit_keys d
              (Obj.entries (map (fun e => (fst e, flatten_into d (snd e))) (kv :: props)))
              prefix result =
            Obj.for_each
              (walk_keys d
                 (Obj.entries (map (fun e => (fst e, leaves d (snd e))) (kv :: props)))
                 prefix)
              assign_entry result).
    rewrite (entries_map (flatten_into d)), (entries_map (leaves d)).
    apply visit_keys_walk.
    apply Forall_forall. intros e He. apply (proj1 (in_entries _ _)) in He.
    rewrite Forall_forall in IH. now apply IH.
Qed.

Lemma get_not_in {A} k (o : list (string * A)) : ~ In k (map fst o) -> Obj.get k o = None.
Proof.
  induction o as [|[k' v'] o IH]; simpl; [reflexivity|]. intro H.
  destruct (String.eqb_spec k' k); [tauto | apply IH; tauto].
Qed.

Lemma set_not_in {A} k (v : A) o : ~ In k (map fst o) -> Obj.set k v o = o ++ [(k, v)].
Proof.
  induction o as [|[k' v'] o IH]; simpl; [reflexivity|]. intro H.
  destruct (String.eqb_spec k' k); [tauto | rewrite IH; tauto].
Qed.

(** Assigning entries with fresh keys appends them. *)
Lemma assign_all_fresh l : forall acc,
  NoDup (map fst (acc ++ l)) -> ~ In "__proto__" (map fst l) ->
  Obj.for_each l assign_entry acc = Returns (acc ++ l).
Proof.
  induction l as [|[k v] l IH]; intros acc Hnd Hp.
  - now rewrite app_nil_r.
  - simpl. unfold assign_entry at 1. simpl.
    assert (Hk : ~ In k (map fst acc)).
    { rewrite map_app in Hnd. simpl in Hnd. apply NoDup_remove_2 in Hnd.
      intro Hin. apply Hnd. apply in_or_app. now left. }
    rewrite assign_plain by (intros ->; apply Hp; now left).
    cbn [bind]. rewrite set_not_in by assumption.
    rewrite IH.
    + now rewrite <- app_assoc.
    + now rewrite <- app_assoc.
    + intro Hin. apply Hp. now right.
Qed.

Lemma flatten_leaves d v :
  NoDup (map fst (leaves d v "")) -> ~ In "__proto__" (map fst (leaves d v "")) ->
  flatten v d = Returns (leaves d v "").
Proof.
  intros Hnd Hp. unfold flatten. rewrite flatten_into_leaves.
  now apply (assign_all_fresh _ []).
Qed.

Lemma entries_no_index {A} (o : list (string * A)) :
  Forall (fun k => Str.is_array_index k = false) (map fst o) -> Obj.entries o = o.
Proof.
  intro H. unfold Obj.entries.
  assert (E1 : filter Obj.has_index o = []).
  { induction o as [|e o IH]; [reflexivity|]. inversion H as [|? ? He Ho]; subst.
    cbn [filter]. unfold Obj.has_index at 1. rewrite He. now apply IH. }
  assert (E2 : filter (fun e => negb (Obj.has_index e)) o = o).
  { clear E1. induction o as [|e o IH]; [reflexivity|].
    inversion H as [|? ? He Ho]; subst.
    cbn [filter]. unfold Obj.has_index at 1. rewrite He. cbn [negb].
    f_equal. now apply IH. }
  now rewrite E1, E2.
Qed.

Lemma walk_items_ext d (f g : JsonValue -> walker) items :
  Forall (fun x => forall prefix, f x prefix = g x prefix) items ->
  forall i prefix, walk_items d (map f items) i prefix = walk_items d (map g items) i prefix.
Proof.
  induction 1 as [|x xs Hx Hxs IH]; intros i prefix; [reflexivity|].
  cbn [map walk_items]. now rewrite Hx, IH.
Qed.

Lemma walk_keys_ext d (f g : JsonValue -> walker) (es : list (string * JsonValue)) :
  Forall (fun kv => forall prefix, f (snd kv) prefix = g (snd kv) prefix) es ->
  forall prefix,
    walk_keys d (map (fun kv => (fst kv, f (snd kv))) es) prefix =
    walk_keys d (map (fun kv => (fst kv, g (snd kv))) es) prefix.
Proof.
  unfold walk_keys.
  induction 1 as [|x xs Hx Hxs IH]; intros prefix; [reflexivity|].
  cbn [map flat_map fst snd]. now rewrite Hx, IH.
Qed.

Lemma leaves_preorder d v :
  no_index_keys v = true -> forall prefix, leaves d v prefix = preorder d v prefix.
Proof.
  induction v as [| b | n | s | items IH | props IH] using JsonValue_induction;
    intros Hv prefix; try reflexivity.
  - destruct items as [|x items]; [reflexivity|].
    change (walk_items d (map (leaves d) (x :: items)) 0 prefix =
            walk_items d (map (preorder d) (x :: items)) 0 prefix).
    apply walk_items_ext. simpl in Hv. rewrite Forall_forall in *.
    intros y Hy. apply IH; auto.
    change (forallb no_index_keys (x :: items) = true) in Hv.
    rewrite forallb_forall in Hv. auto.
  - destruct props as [|kv props]; [reflexivity|].
    change (walk_keys d
              (Obj.entries (map (fun e => (fst e, leaves d (snd e))) (kv :: props)))
              prefix =
            walk_keys d (map (fun e => (fst e, preorder d (snd e))) (kv :: props)) prefix).
    change (forallb (fun e => negb (Str.is_array_index (fst e)) && no_index_keys (snd e))
              (kv :: props) = true) in Hv.
    rewrite forallb_forall in Hv.
    rewrite entries_no_index.
    + apply walk_keys_ext. rewrite Forall_forall in *. intros e He.
      apply IH; auto. specialize (Hv e He). now apply andb_true_iff in Hv.
    + rewrite map_map. cbn [fst]. apply Forall_forall. intros k Hk.
      apply in_map_iff in Hk as (e & <- & He). specialize (Hv e He).
      apply andb_true_iff in Hv as [Hv _]. now apply negb_true_iff.
Qed.

(** C4, as amended.  [flatten] creates the entries of the flat mapping in
    the order of a depth-first walk that visits the keys of a map in the
    map's enumeration order (array-index keys first, by increasing value,
    then the other keys in their original order) and the items of a
    sequence by increasing index; this holds whenever the emitted paths are
    pairwise distinct and none is [__proto__].  The iteration order of the
    flat mapping is this creation order when no emitted path is an
    array-index string, and the walk is the pre-order traversal in original
    key order when no map of the tree has an array-index key. *)
Theorem C4_flat_mapping_order :
  forall (v : JsonValue) (d : string),
    NoDup (map fst (leaves d v "")) ->
    ~ In "__proto__" (map fst (leaves d v "")) ->
    flatten v d = Returns (leaves d v "")
    /\ (Forall (fun path => Str.is_array_index path = false) (map fst (leaves d v "")) ->
        Obj.entries (leaves d v "") = leaves d v "")
    /\ (no_index_keys v = true -> leaves d v "" = preorder d v "").
Proof.
  intros v d Hnd Hp. split; [|split].
  - now apply flatten_leaves.
  - apply entries_no_index.
  - intro Hv. now apply leaves_preorder.
Qed.

Lemma C4_witness :
  flatten sample_tree "." = Returns (preorder "." sample_tree "")
  /\ Obj.entries (preorder "." sample_tree "") = preorder "." sample_tree "".
Proof.
  destruct (C4_flat_mapping_order sample_tree ".") as (H1 & H2 & H3).
  - vm_compute. repeat constructor; simpl; intuition discriminate.
  - vm_compute. intuition discriminate.
  - rewrite <- (H3 eq_refl). split; [exact H1|]. apply H2.
    repeat (constructor; [vm_compute; reflexivity|]). constructor.
Defined.

(** The claim C4 as stated fails: in the flat mapping of [[{"a": 1}, 5]] the
    path [1] is iterated before [0.a], and the map [{"2": "a", "1": "b"}] is
    flattened and iterated with [1] before [2]. *)
Lemma C4_counterexample :
  (flat <- flatten (JArr [JObj [("a", JNum 1%Z)]; JNum 5%Z]) "." ;;
   Returns (Obj.keys flat)) = Returns ["1"; "0.a"]
  /\ map fst (preorder "." (JArr [JObj [("a", JNum 1%Z)]; JNum 5%Z]) "") = ["0.a"; "1"]
  /\ (flat <- flatten (JObj [("2", JStr "a"); ("1", JStr "b")]) "." ;;
      Returns (Obj.keys flat)) = Returns ["1"; "2"]
  /\ map fst (preorder "." (JObj [("2", JStr "a"); ("1", JStr "b")]) "") = ["2"; "1"].
Proof. repeat split; vm_compute; reflexivity. Qed.

(** Decimal index strings *)

Lemma digits_of_uint u :
  Str.all_chars Str.is_digit (DecimalString.NilEmpty.string_of_uint u) = true.
Proof. induction u; simpl; auto. Qed.

Lemma of_index_digits n : Str.all_chars Str.is_digit (Str.of_index n) = true.
Proof. apply digits_of_uint. Qed.

Lemma of_index_not_empty n : Str.of_index n <> "".
Proof.
  unfold Str.of_index. destruct n as [|p]; [discriminate|]. simpl.
  pose proof (DecimalPos.Unsigned.to_uint_nonnil p) as H.
  destruct (Pos.to_uint p); [congruence | discriminate ..].
Qed.

Lemma of_index_numeric n : Str.is_numeric (Str.of_index n) = true.
Proof.
  unfold Str.is_numeric. pose proof (of_index_not_empty n) as H.
  destruct (Str.of_index n) eqn:E; [congruence|]. rewrite <- E. apply of_index_digits.
Qed.

Lemma parseInt_of_index n : Str.parseInt (Str.of_index n) = n.
Proof.
  unfold Str.parseInt, Str.of_index. rewrite DecimalString.NilEmpty.usu.
  apply DecimalN.Unsigned.of_to.
Qed.

Lemma of_index_array_index n :
  (n < 4294967295)%N -> Str.is_array_index (Str.of_index n) = true.
Proof.
  intro H. unfold Str.is_array_index.
  rewrite of_index_numeric, parseInt_of_index, String.eqb_refl. simpl.
  now apply N.ltb_lt.
Qed.

Lemma of_index_inj n m : Str.of_index n = Str.of_index m -> n = m.
Proof. intro H. rewrite <- (parseInt_of_index n), H. apply parseInt_of_index. Qed.

Lemma array_index_numeric k : Str.is_array_index k = true -> Str.is_numeric k = true.
Proof.
  unfold Str.is_array_index. intro H.
  apply andb_true_iff in H as [H _]. now apply andb_true_iff in H as [H _].
Qed.

Lemma digits_exclude a s :
  Str.is_digit a = false -> Str.all_chars Str.is_digit s = true -> Str.mem_char a s = false.
Proof.
  intros Ha. induction s as [|c s IH]; simpl; [reflexivity|]. intro H.
  apply andb_true_iff in H as [Hc Hs]. rewrite (IH Hs), orb_false_r.
  apply Ascii.eqb_neq. intros ->. congruence.
Qed.

Lemma numeric_not_builtin k names :
  forallb (fun n => negb (Str.is_numeric n)) names = true ->
  Str.is_numeric k = true -> Proto.mem k names = false.
Proof.
  intros Hn Hk. unfold Proto.mem. apply not_true_is_false. intro H.
  apply existsb_exists in H as (n & Hin & E). apply String.eqb_eq in E. subst n.
  rewrite forallb_forall in Hn. specialize (Hn k Hin). rewrite Hk in Hn. discriminate.
Qed.

Lemma numeric_not_in_Object k : Str.is_numeric k = true -> Proto.mem k Proto.Object_ = false.
Proof. apply numeric_not_builtin. vm_compute. reflexivity. Qed.

Lemma numeric_not_in_Array k : Str.is_numeric k = true -> Proto.mem k Proto.Array_ = false.
Proof. apply numeric_not_builtin. vm_compute. reflexivity. Qed.

(** Splitting a joined path *)

Lemma split_at_free a d' s : forall acc rest,
  Str.mem_char a s = false ->
  Str.split_at a d' acc (s +++ rest) = Str.split_at a d' (acc +++ s) rest.
Proof.
  induction s as [|c s IH]; intros acc rest H.
  - simpl. now rewrite append_nil_r.
  - simpl in H. apply orb_false_iff in H as [Hc Hs].
    cbn [String.append]. simp split_at. rewrite Hc. cbn [andb].
    rewrite IH by assumption. now rewrite append_assoc.
Qed.

Lemma prefix_self d rest : String.prefix d (d +++ rest) = true.
Proof.
  induction d as [|c d IH]; simpl; [now destruct rest|].
  destruct (ascii_dec c c); [assumption | congruence].
Qed.

Lemma split_at_delimiter a d' acc rest :
  Str.split_at a d' acc (String a d' +++ rest) = acc :: Str.split_at a d' "" rest.
Proof.
  cbn [String.append]. simp split_at.
  rewrite Ascii.eqb_refl, prefix_self. cbn [andb].
  now rewrite skip_length_append.
Qed.

Lemma split_at_end a d' acc : Str.split_at a d' acc "" = [acc].
Proof. now simp split_at. Qed.

Lemma split_concat a d' s steps : forall acc,
  Forall (fun step => Str.mem_char a step = false) (s :: steps) ->
  Str.split_at a d' acc (String.concat (String a d') (s :: steps)) = (acc +++ s) :: steps.
Proof.
  revert s. induction steps as [|s2 steps IH]; intros s acc H.
  - inversion H; subst. simpl. rewrite <- (append_nil_r s) at 1.
    rewrite split_at_free by assumption. apply split_at_end.
  - inversion H as [|? ? Hs Hrest]; subst.
    change (String.concat (String a d') (s :: s2 :: steps))
      with (s +++ String a d' +++ String.concat (String a d') (s2 :: steps)).
    rewrite split_at_free by assumption. rewrite split_at_delimiter.
    now rewrite IH.
Qed.

Lemma splitKey_concat a d' steps :
  steps <> [] -> Forall (fun step => Str.mem_char a step = false) steps ->
  splitKey (String.concat (String a d') steps) (String a d') = steps.
Proof.
  intros Hne H. rewrite splitKey_split. unfold Str.split.
  destruct steps as [|s steps]; [congruence|]. now rewrite split_concat.
Qed.

Lemma steps_items_indexed items : forall i,
  steps_items (map leaf_steps items) i = flat_map subtree_steps (indexed items i).
Proof.
  induction items as [|x items IH]; intro i; [reflexivity|].
  simpl. now rewrite IH.
Qed.

Lemma leaf_steps_children v :
  is_leaf v = false -> leaf_steps v = flat_map subtree_steps (children v).
Proof.
  destruct v as [| | | |[|x items]|[|kv props]]; try discriminate; intros _.
  - apply (steps_items_indexed (x :: items)).
  - reflexivity.
Qed.

Lemma concat_not_empty d k ks : k <> "" -> String.concat d (k :: ks) <> "".
Proof.
  intro Hk. destruct ks; simpl; [assumption|].
  destruct k; [congruence | discriminate].
Qed.

Lemma concat_snoc d ks k :
  Forall (fun s => s <> "") ks ->
  child_path (String.concat d ks) d k = String.concat d (ks ++ [k]).
Proof.
  intro H. destruct ks as [|k0 ks]; [reflexivity|].
  inversion H as [|? ? Hk0 Hks]; subst.
  assert (E : child_path (String.concat d (k0 :: ks)) d k
              = String.concat d (k0 :: ks) +++ d +++ k).
  { pose proof (concat_not_empty d k0 ks Hk0) as Hne. unfold child_path.
    destruct (String.concat d (k0 :: ks)); [congruence | reflexivity]. }
  rewrite E. clear E Hk0 H. revert k0. induction ks as [|k1 ks IH]; intro k0.
  - reflexivity.
  - inversion Hks; subst.
    change (String.concat d (k0 :: k1 :: ks)) with (k0 +++ d +++ String.concat d (k1 :: ks)).
    change (String.concat d ((k0 :: k1 :: ks) ++ [k]))
      with (k0 +++ d +++ String.concat d ((k1 :: ks) ++ [k])).
    rewrite <- IH by assumption. now rewrite !append_assoc.
Qed.

Lemma plain_key_spec a k :
  plain_key a k = true ->
  k <> "" /\ Str.is_numeric k = false /\ Str.mem_char a k = false
  /\ Proto.mem k Proto.Object_ = false.
Proof.
  unfold plain_key. intro H.
  apply andb_true_iff in H as [H H4]. apply andb_true_iff in H as [H H3].
  apply andb_true_iff in H as [H1 H2].
  apply negb_true_iff in H1, H2, H3, H4. apply String.eqb_neq in H1. auto.
Qed.

Lemma faithful_items a items :
  faithful a (JArr items) = true ->
  (N.of_nat (List.length items) < 4294967296)%N
  /\ Forall (fun x => faithful a x = true) items.
Proof.
  simpl. intro H. apply andb_true_iff in H as [H1 H2]. split.
  - now apply N.ltb_lt.
  - apply Forall_forall. now apply forallb_forall.
Qed.

Lemma faithful_props a props :
  faithful a (JObj props) = true ->
  distinct (map fst props) = true
  /\ Forall (fun kv => plain_key a (fst kv) = true /\ faithful a (snd kv) = true) props.
Proof.
  simpl. intro H. apply andb_true_iff in H as [H1 H2]. split; [assumption|].
  apply Forall_forall. intros kv Hin. rewrite forallb_forall in H2.
  specialize (H2 kv Hin). now apply andb_true_iff in H2.
Qed.

Lemma preorder_steps a d' v : forall ks,
  faithful a v = true ->
  Forall (fun s => s <> "") ks ->
  preorder (String a d') v (String.concat (String a d') ks)
  = map (with_path (String a d') ks) (leaf_steps v).
Proof.
  set (d := String a d').
  induction v as [| b | n | s | items IH | props IH] using JsonValue_induction;
    intros ks Hv Hks;
    try (simpl; unfold with_path; simpl; now rewrite app_nil_r).
  - destruct items as [|x items];
      [simpl; unfold with_path; simpl; now rewrite app_nil_r|].
    apply faithful_items in Hv as [_ Hv].
    change (walk_items d (map (preorder d) (x :: items)) 0 (String.concat d ks) =
            map (with_path d ks) (steps_items (map leaf_steps (x :: items)) 0)).
    generalize (x :: items) IH Hv. clear x items IH Hv. generalize 0%N.
    intros i items IH Hv. revert i.
    induction items as [|y items IHi]; intro i; [reflexivity|].
    inversion IH as [|? ? IHy IHrest]; subst. inversion Hv as [|? ? Hy Hrest]; subst.
    cbn [map walk_items steps_items]. rewrite map_app, IHi by assumption. f_equal.
    rewrite concat_snoc by assumption. rewrite IHy; auto.
    + unfold block. rewrite map_map. apply map_ext. intros [s e]. unfold with_path. simpl.
      now rewrite <- app_assoc.
    + apply Forall_app. split; [assumption|]. constructor; [apply of_index_not_empty|constructor].
  - destruct props as [|kv props];
      [simpl; unfold with_path; simpl; now rewrite app_nil_r|].
    apply faithful_props in Hv as [_ Hv].
    change (walk_keys d (map (fun e => (fst e, preorder d (snd e))) (kv :: props))
              (String.concat d ks) =
            map (with_path d ks)
              (flat_map (fun e => block (fst e) (leaf_steps (snd e))) (kv :: props))).
    generalize (kv :: props) IH Hv. clear kv props IH Hv. intros props IH Hv.
    unfold walk_keys.
    induction props as [|[k y] props IHp]; [reflexivity|].
    inversion IH as [|? ? IHy IHrest]; subst. inversion Hv as [|? ? [Hk Hy] Hrest]; subst.
    cbn [map flat_map fst snd] in *. rewrite map_app, IHp by assumption. f_equal.
    apply plain_key_spec in Hk as (Hk & _).
    rewrite concat_snoc by assumption. rewrite IHy; auto.
    + unfold block. rewrite map_map. apply map_ext. intros [s e]. unfold with_path. simpl.
      now rewrite <- app_assoc.
    + apply Forall_app. split; [assumption|]. constructor; [assumption|constructor].
Qed.

Lemma Get_found cur k c : get_own cur k = Some c -> Get cur k = Returns (Some c).
Proof.
  intro H. unfold Get. destruct cur; try discriminate; now rewrite H.
Qed.

Lemma vacant_slot cur k : vacant cur k -> slot cur k = true.
Proof.
  intros (_ & _ & H). specialize (H VNull). now apply Put_returns in H.
Qed.

Lemma Get_vacant cur k : vacant cur k -> Get cur k = Returns None.
Proof.
  intros V. pose proof (vacant_slot _ _ V) as Hs. destruct V as (Hg & Hi & _).
  unfold Get. destruct cur; try discriminate; now rewrite Hg, Hi.
Qed.

Lemma for_each_cons_returns {E S} (body : E -> S -> outcome S) e l s r :
  Obj.for_each (e :: l) body s = Returns r ->
  exists s1, body e s = Returns s1 /\ Obj.for_each l body s1 = Returns r.
Proof.
  simpl. destruct (body e s) as [s1| |]; try discriminate. cbn [bind]. eauto.
Qed.

Lemma descend_existing T : forall t cur k start child,
  get_own cur k = Some start -> slot cur k = true ->
  (forall e, In e (t :: T) -> fst e <> []) ->
  Obj.for_each (t :: T) place_steps start = Returns child ->
  Obj.for_each (block k (t :: T)) place_steps cur = Returns (store cur k child).
Proof.
  induction T as [|t2 T IH]; intros t cur k start child Hg Hs Hne H;
    apply for_each_cons_returns in H as (c1 & H1 & H2).
  - injection H2 as <-. destruct t as [[|s1 r1] v]; [exfalso; apply (Hne ([], v)); [now left | reflexivity]|].
    cbn [block map Obj.for_each fst snd]. unfold place_steps at 1. cbn [fst snd].
    rewrite place_walk, (Get_found _ _ _ Hg). cbn [bind].
    unfold place_steps in H1. cbn [fst snd] in H1. now rewrite H1.
  - destruct t as [[|s1 r1] v]; [exfalso; apply (Hne ([], v)); [now left | reflexivity]|].
    change (block k ((s1 :: r1, v) :: t2 :: T))
      with ((k :: s1 :: r1, v) :: block k (t2 :: T)).
    cbn [Obj.for_each]. unfold place_steps at 1. cbn [fst snd].
    rewrite place_walk, (Get_found _ _ _ Hg). cbn [bind].
    unfold place_steps in H1. cbn [fst snd] in H1. rewrite H1. cbn [bind].
    rewrite (IH t2 (store cur k c1) k c1 child); auto.
    + now rewrite store_store.
    + now apply get_own_store_same.
    + now rewrite slot_store.
    + intros e He. apply Hne. now right.
Qed.

Lemma descend_vacant S cur k s1 child :
  vacant cur k -> first_step S = Some s1 ->
  (forall e, In e S -> fst e <> []) ->
  Obj.for_each S place_steps (fresh_for s1) = Returns child ->
  Obj.for_each (block k S) place_steps cur = Returns (store cur k child).
Proof.
  intros V Hfirst Hne H.
  destruct S as [|[[|s r1] v] T]; try discriminate. injection Hfirst as ->.
  apply for_each_cons_returns in H as (c1 & H1 & H2).
  change (block k ((s1 :: r1, v) :: T)) with ((k :: s1 :: r1, v) :: block k T).
  cbn [Obj.for_each]. unfold place_steps at 1. cbn [fst snd].
  rewrite place_walk, (Get_vacant _ _ V). cbn [bind]. cbv zeta.
  fold (fresh_for s1). destruct V as (_ & _ & HP). rewrite HP. cbn [bind].
  unfold place_steps in H1. cbn [fst snd] in H1. rewrite H1. cbn [bind].
  rewrite store_store.
  assert (Hs : slot cur k = true).
  { specialize (HP VNull). now apply Put_returns in HP. }
  destruct T as [|t2 T].
  - injection H2 as <-. reflexivity.
  - rewrite <- (store_store cur k c1 child).
    apply (descend_existing T t2 (store cur k c1) k c1 child); auto.
    + now apply get_own_store_same.
    + now rewrite slot_store.
    + intros e He. apply Hne. now right.
Qed.

Lemma store_elem_push (elems : list (option JsValue)) y : store_elem elems (List.length elems) y = elems ++ [Some y].
Proof. induction elems as [|e elems IH]; simpl; [reflexivity | now rewrite IH]. Qed.

Lemma index_of_length (elems : list (option JsValue)) :
  N.to_nat (Str.parseInt (Str.of_index (N.of_nat (List.length elems)))) = List.length elems.
Proof. rewrite parseInt_of_index. apply Nat2N.id. Qed.

Lemma store_push (elems : list (option JsValue)) y :
  (N.of_nat (List.length elems) < 4294967295)%N ->
  store (VArr elems []) (Str.of_index (N.of_nat (List.length elems))) y
  = VArr (elems ++ [Some y]) [].
Proof.
  intro H. unfold store. rewrite of_index_array_index by assumption.
  now rewrite index_of_length, store_elem_push.
Qed.

Lemma vacant_array (elems : list (option JsValue)) :
  (N.of_nat (List.length elems) < 4294967295)%N ->
  vacant (VArr elems []) (Str.of_index (N.of_nat (List.length elems))).
Proof.
  intro H. pose proof (of_index_array_index _ H) as I. repeat split.
  - simpl. rewrite I, index_of_length.
    replace (nth_error elems (List.length elems)) with (@None (option JsValue));
      [reflexivity|]. symmetry. apply nth_error_None. lia.
  - unfold Proto.inherits. rewrite numeric_not_in_Array, numeric_not_in_Object;
      auto using of_index_numeric.
  - intro x. simpl. now rewrite I.
Qed.

Lemma not_builtin_not_proto k : Proto.mem k Proto.Object_ = false -> (k =? "__proto__") = false.
Proof.
  intro H. destruct (String.eqb_spec k "__proto__"); [subst; discriminate | reflexivity].
Qed.

Lemma vacant_object acc k :
  Proto.mem k Proto.Object_ = false -> ~ In k (map fst acc) -> vacant (VObj acc) k.
Proof.
  intros Hk Hin. repeat split.
  - simpl. now apply get_not_in.
  - exact Hk.
  - intro x. simpl. now rewrite get_not_in, not_builtin_not_proto.
Qed.

Lemma place_children_object D : forall acc,
  Forall (fun kd => placed (snd kd) /\ Proto.mem (fst kd) Proto.Object_ = false) D ->
  NoDup (map fst acc ++ map fst D) ->
  Obj.for_each (flat_map subtree_steps D) place_steps (VObj acc)
  = Returns (VObj (acc ++ map (lift_value of_json) D)).
Proof.
  induction D as [|[k e] D IH]; intros acc HD Hnd.
  - simpl. now rewrite app_nil_r.
  - inversion HD as [|? ? [Hp Hk] HD']; subst. cbn [fst snd] in *.
    cbn [flat_map]. rewrite for_each_app. unfold subtree_steps at 1. cbn [fst snd].
    assert (Hfresh : ~ In k (map fst acc)).
    { simpl in Hnd. apply NoDup_remove_2 in Hnd. intro Hin. apply Hnd.
      apply in_or_app. now left. }
    rewrite (Hp (VObj acc) k) by now apply vacant_object.
    cbn [bind]. simpl store. rewrite set_not_in by assumption.
    rewrite IH; auto.
    + simpl. unfold lift_value at 2. simpl. now rewrite <- app_assoc.
    + rewrite map_app. simpl. rewrite <- app_assoc. exact Hnd.
Qed.

Lemma place_children_array items : forall elems,
  Forall placed items ->
  (N.of_nat (List.length elems + List.length items) < 4294967296)%N ->
  Obj.for_each (flat_map subtree_steps (indexed items (N.of_nat (List.length elems))))
    place_steps (VArr elems [])
  = Returns (VArr (elems ++ map (fun x => Some (of_json x)) items) []).
Proof.
  induction items as [|x items IH]; intros elems HP Hlen.
  - simpl. now rewrite app_nil_r.
  - inversion HP as [|? ? Hx HP']; subst.
    cbn [indexed flat_map]. rewrite for_each_app. unfold subtree_steps at 1. cbn [fst snd].
    assert (Hi : (N.of_nat (List.length elems) < 4294967295)%N) by (simpl in Hlen; lia).
    rewrite (Hx (VArr elems []) _ (vacant_array elems Hi)). cbn [bind].
    rewrite store_push by assumption.
    replace (N.succ (N.of_nat (List.length elems)))
      with (N.of_nat (List.length (elems ++ [Some (of_json x)])))
      by (rewrite length_app; simpl; lia).
    rewrite IH; auto.
    + now rewrite <- app_assoc.
    + rewrite length_app. simpl in *. lia.
Qed.

Lemma leaf_steps_not_nil v : leaf_steps v <> [].
Proof.
  induction v as [| b | n | s | items IH | props IH] using JsonValue_induction;
    try discriminate.
  - destruct items as [|x items]; [discriminate|].
    inversion IH as [|? ? Hx _]; subst.
    change (block (Str.of_index 0) (leaf_steps x)
            ++ steps_items (map leaf_steps items) (N.succ 0) <> []).
    destruct (leaf_steps x); [congruence | discriminate].
  - destruct props as [|[k y] props]; [discriminate|].
    inversion IH as [|? ? Hy _]; subst. simpl in *.
    destruct (leaf_steps y); [congruence | discriminate].
Qed.

Lemma first_step_block k S rest : S <> [] -> first_step (block k S ++ rest) = Some k.
Proof. destruct S as [|[s v] S]; [congruence | reflexivity]. Qed.

Lemma steps_not_empty v e : is_leaf v = false -> In e (leaf_steps v) -> fst e <> [].
Proof.
  intros Hv He. rewrite (leaf_steps_children v Hv) in He.
  apply in_flat_map in He as (kd & _ & He). unfold subtree_steps, block in He.
  apply in_map_iff in He as (e0 & <- & _). discriminate.
Qed.

Lemma distinct_NoDup keys : distinct keys = true -> NoDup keys.
Proof.
  induction keys as [|k keys IH]; simpl; intro H; constructor.
  - apply andb_true_iff in H as [H _]. apply negb_true_iff in H.
    intro Hin. apply not_true_iff_false in H. apply H.
    apply existsb_exists. exists k. split; [assumption | apply String.eqb_refl].
  - apply IH. now apply andb_true_iff in H.
Qed.

Lemma place_leaf e : is_leaf e = true -> placed e.
Proof.
  intros He cur k (_ & _ & HP).
  assert (E : leaf_steps e = [([], e)])
    by (destruct e as [| | | |[|? ?]|[|? ?]]; try discriminate; reflexivity).
  rewrite E. cbn [block map Obj.for_each fst snd]. unfold place_steps. cbn [fst snd place].
  now rewrite HP.
Qed.

(** Placing the leaves of a faithful subtree rebuilds it. *)
Lemma place_subtree a e : faithful a e = true -> placed e.
Proof.
  induction e as [| b | n | s | items IH | props IH] using JsonValue_induction;
    intro He; try (now apply place_leaf).
  - destruct items as [|x items]; [now apply place_leaf|].
    apply faithful_items in He as [Hlen Hitems].
    assert (HP : Forall placed (x :: items)).
    { rewrite Forall_forall in *. intros y Hy. apply IH; auto. }
    intros cur k V.
    apply (descend_vacant (leaf_steps (JArr (x :: items))) cur k (Str.of_index 0)); auto.
    + change (leaf_steps (JArr (x :: items)))
        with (block (Str.of_index 0) (leaf_steps x)
              ++ steps_items (map leaf_steps items) (N.succ 0)).
      apply first_step_block, leaf_steps_not_nil.
    + intros e. now apply steps_not_empty.
    + rewrite leaf_steps_children by reflexivity.
      unfold fresh_for. rewrite of_index_numeric.
      apply (place_children_array (x :: items) []); auto.
  - destruct props as [|[k1 y] props]; [now apply place_leaf|].
    apply faithful_props in He as [Hd Hprops].
    pose proof (Forall_inv Hprops) as [Hk1 _]. apply plain_key_spec in Hk1.
    cbn [fst snd] in Hk1.
    intros cur k V.
    apply (descend_vacant (leaf_steps (JObj ((k1, y) :: props))) cur k k1); auto.
    + change (leaf_steps (JObj ((k1, y) :: props)))
        with (block k1 (leaf_steps y)
              ++ flat_map (fun kv => block (fst kv) (leaf_steps (snd kv))) props).
      apply first_step_block, leaf_steps_not_nil.
    + intros e. now apply steps_not_empty.
    + rewrite leaf_steps_children by reflexivity.
      unfold fresh_for. destruct Hk1 as (_ & -> & _).
      apply (place_children_object ((k1, y) :: props) []).
      * rewrite Forall_forall in *. intros kd Hkd. destruct (Hprops kd Hkd) as [Hk Hf].
        split; [now apply IH | now apply plain_key_spec in Hk].
      * now apply distinct_NoDup.
Qed.

Lemma map_flat_map {A B C} (g : B -> C) (f : A -> list B) l :
  map g (flat_map f l) = flat_map (fun x => map g (f x)) l.
Proof. induction l as [|x l IH]; simpl; [reflexivity|]. now rewrite map_app, IH. Qed.

Lemma filter_flat_map {A B} (p : B -> bool) (f : A -> list B) l :
  filter p (flat_map f l) = flat_map (fun x => filter p (f x)) l.
Proof. induction l as [|x l IH]; simpl; [reflexivity|]. now rewrite filter_app, IH. Qed.

Lemma mem_char_append a s t :
  Str.mem_char a (s +++ t) = Str.mem_char a s || Str.mem_char a t.
Proof. induction s as [|c s IH]; simpl; [reflexivity|]. now rewrite IH, orb_assoc. Qed.

Lemma numeric_all_digits s : Str.is_numeric s = true -> Str.all_chars Str.is_digit s = true.
Proof. destruct s; [discriminate | auto]. Qed.

(** A path of two steps or more holds the delimiter: it is no array index. *)
Lemma long_path_not_index a d' k s steps :
  Str.is_digit a = false ->
  Str.is_array_index (String.concat (String a d') (k :: s :: steps)) = false.
Proof.
  intro Ha. apply not_true_is_false. intro H.
  apply array_index_numeric, numeric_all_digits in H.
  apply (digits_exclude a) in H; [|assumption].
  change (String.concat (String a d') (k :: s :: steps))
    with (k +++ String a d' +++ String.concat (String a d') (s :: steps)) in H.
  rewrite mem_char_append in H. cbn [String.append Str.mem_char] in H.
  rewrite Ascii.eqb_refl in H. cbn [orb] in H. rewrite orb_true_r in H. discriminate.
Qed.

Lemma subtree_paths_leaf d kd : is_leaf (snd kd) = true -> subtree_paths d kd = [kd].
Proof.
  destruct kd as [k e]. cbn [snd]. intro He.
  assert (E : leaf_steps e = [([], e)])
    by (destruct e as [| | | |[|? ?]|[|? ?]]; try discriminate; reflexivity).
  unfold subtree_paths, subtree_steps. cbn [fst snd]. rewrite E. reflexivity.
Qed.

Lemma subtree_paths_not_index a d' kd :
  Str.is_digit a = false -> is_leaf (snd kd) = false ->
  Forall (fun e => Obj.has_index e = false) (subtree_paths (String a d') kd).
Proof.
  intros Ha He. destruct kd as [k e]. cbn [snd] in He.
  unfold subtree_paths, subtree_steps, block. cbn [fst snd]. rewrite map_map.
  apply Forall_forall. intros x Hx. apply in_map_iff in Hx as (e0 & <- & He0).
  unfold with_path, Obj.has_index. cbn [fst snd app].
  pose proof (steps_not_empty e e0 He He0) as Hne.
  destruct (fst e0) as [|s steps]; [congruence|].
  now apply long_path_not_index.
Qed.

Lemma filter_none {A} (p : A -> bool) l :
  Forall (fun x => p x = false) l -> filter p l = [].
Proof.
  induction 1 as [|x l Hx Hl IH]; simpl; [reflexivity|]. now rewrite Hx.
Qed.

Lemma filter_all {A} (p : A -> bool) l :
  Forall (fun x => p x = true) l -> filter p l = l.
Proof.
  induction 1 as [|x l Hx Hl IH]; simpl; [reflexivity|]. now rewrite Hx, IH.
Qed.

Lemma index_leaf_of_leaf kd : is_leaf (snd kd) = true -> index_leaf kd = Obj.has_index kd.
Proof. intro L. unfold index_leaf, Obj.has_index. now rewrite L. Qed.

Lemma index_leaf_of_node kd : is_leaf (snd kd) = false -> index_leaf kd = false.
Proof. intro L. unfold index_leaf. now rewrite L. Qed.

Lemma filter_index_paths a d' D :
  Str.is_digit a = false ->
  filter Obj.has_index (flat_map (subtree_paths (String a d')) D) = filter index_leaf D.
Proof.
  intro Ha. rewrite filter_flat_map.
  induction D as [|kd D IH]; [reflexivity|]. cbn [flat_map filter]. rewrite IH.
  destruct (is_leaf (snd kd)) eqn:L.
  - rewrite subtree_paths_leaf, index_leaf_of_leaf by assumption. cbn [filter].
    now destruct (Obj.has_index kd).
  - rewrite index_leaf_of_node by assumption.
    rewrite filter_none; [reflexivity|]. now apply subtree_paths_not_index.
Qed.

Lemma filter_other_paths a d' D :
  Str.is_digit a = false ->
  filter (fun e => negb (Obj.has_index e)) (flat_map (subtree_paths (String a d')) D)
  = flat_map (subtree_paths (String a d')) (filter (fun kd => negb (index_leaf kd)) D).
Proof.
  intro Ha. rewrite filter_flat_map.
  induction D as [|kd D IH]; [reflexivity|]. cbn [flat_map filter]. rewrite IH.
  destruct (is_leaf (snd kd)) eqn:L.
  - rewrite subtree_paths_leaf, index_leaf_of_leaf by assumption. cbn [filter].
    destruct (Obj.has_index kd); cbn [negb flat_map app]; [reflexivity|].
    now rewrite subtree_paths_leaf.
  - rewrite index_leaf_of_node by assumption. cbn [negb flat_map].
    rewrite filter_all; [reflexivity|].
    eapply Forall_impl; [|now apply subtree_paths_not_index].
    intros x Hx. simpl in Hx. now rewrite Hx.
Qed.

Lemma flat_map_leaves d D :
  Forall (fun kd => is_leaf (snd kd) = true) D -> flat_map (subtree_paths d) D = D.
Proof.
  induction 1 as [|kd D Hkd HD IH]; [reflexivity|].
  cbn [flat_map]. now rewrite subtree_paths_leaf, IH.
Qed.

(** The entries of the flat mapping are enumerated subtree by subtree, the
    subtrees of the root being taken in some order. *)
Lemma entries_by_subtree a d' D :
  Str.is_digit a = false ->
  Obj.entries (flat_map (subtree_paths (String a d')) D)
  = flat_map (subtree_paths (String a d'))
      (Obj.sort_by_index (filter index_leaf D) ++ filter (fun kd => negb (index_leaf kd)) D).
Proof.
  intro Ha. unfold Obj.entries.
  rewrite filter_index_paths, filter_other_paths by assumption.
  rewrite flat_map_app. f_equal. symmetry. apply flat_map_leaves.
  apply Forall_forall. intros kd Hkd. apply (proj1 (in_sort_by_index _ _)) in Hkd.
  apply filter_In in Hkd as [_ Hkd]. unfold index_leaf in Hkd.
  now apply andb_true_iff in Hkd.
Qed.

Lemma place_paths a d' S : forall root,
  (forall e, In e S ->
     fst e <> [] /\ Forall (fun s => Str.mem_char a s = false) (fst e)) ->
  Obj.for_each (map (with_path (String a d') []) S) (place_entry (String a d')) root
  = Obj.for_each S place_steps root.
Proof.
  induction S as [|e S IH]; intros root H; [reflexivity|].
  cbn [map Obj.for_each]. unfold place_entry at 1, place_steps at 1.
  change (with_path (String a d') [] e) with (String.concat (String a d') (fst e), snd e).
  cbn [fst snd]. destruct (H e (or_introl eq_refl)) as [Hne Hfree].
  rewrite splitKey_concat by assumption.
  destruct (place root (fst e) (of_json (snd e))); cbn [bind]; auto.
  apply IH. intros e' He'. apply H. now right.
Qed.

Lemma steps_free a v :
  Str.is_digit a = false -> faithful a v = true ->
  forall e, In e (leaf_steps v) -> Forall (fun s => Str.mem_char a s = false) (fst e).
Proof.
  intro Ha.
  induction v as [| b | n | s | items IH | props IH] using JsonValue_induction;
    intros Hv e He;
    try (destruct He as [<-|[]]; constructor).
  - destruct items as [|x items]; [destruct He as [<-|[]]; constructor|].
    apply faithful_items in Hv as [_ Hv].
    change (In e (steps_items (map leaf_steps (x :: items)) 0)) in He.
    revert He. generalize 0%N. generalize (x :: items) IH Hv. clear x items IH Hv.
    intro items. induction items as [|y items IHi]; intros IH Hv i He; [destruct He|].
    inversion IH; subst. inversion Hv; subst.
    cbn [map steps_items] in He. apply in_app_or in He as [He|He].
    + unfold block in He. apply in_map_iff in He as (e0 & <- & He0). cbn [fst].
      constructor; [|auto].
      apply digits_exclude; [assumption | apply of_index_digits].
    + eapply IHi; eauto.
  - destruct props as [|kv props]; [destruct He as [<-|[]]; constructor|].
    apply faithful_props in Hv as [_ Hv].
    change (In e (flat_map (fun kv => block (fst kv) (leaf_steps (snd kv))) (kv :: props)))
      in He.
    apply in_flat_map in He as (kd & Hkd & He).
    unfold block in He. apply in_map_iff in He as (e0 & <- & He0). cbn [fst].
    rewrite Forall_forall in IH, Hv. destruct (Hv kd Hkd) as [Hk Hf].
    constructor; [now apply plain_key_spec in Hk | now apply (IH kd Hkd)].
Qed.

Lemma faithful_no_index_keys a v : faithful a v = true -> no_index_keys v = true.
Proof.
  induction v as [| b | n | s | items IH | props IH] using JsonValue_induction;
    intro Hv; try reflexivity.
  - apply faithful_items in Hv as [_ Hv]. simpl. apply forallb_forall.
    rewrite Forall_forall in *. auto.
  - apply faithful_props in Hv as [_ Hv]. simpl. apply forallb_forall.
    rewrite Forall_forall in *. intros kv Hkv. destruct (Hv kv Hkv) as [Hk Hf].
    apply andb_true_iff. split; [|now apply IH].
    apply plain_key_spec in Hk as (_ & Hn & _). apply negb_true_iff.
    apply not_true_is_false. intro Hi. apply array_index_numeric in Hi. congruence.
Qed.

Lemma leaves_by_subtree a d' v :
  faithful a v = true -> is_leaf v = false ->
  leaves (String a d') v "" = flat_map (subtree_paths (String a d')) (children v).
Proof.
  intros Hv Hl.
  rewrite leaves_preorder by (eapply faithful_no_index_keys; eauto).
  change "" with (String.concat (String a d') []) at 1.
  rewrite (preorder_steps a d' v []) by auto.
  rewrite leaf_steps_children by assumption. apply map_flat_map.
Qed.

Lemma indexed_keys items : forall i k,
  In k (map fst (indexed items i)) -> exists j, k = Str.of_index j /\ (i <= j)%N.
Proof.
  induction items as [|x items IH]; intros i k H; [destruct H|].
  destruct H as [<-|H].
  - exists i. split; [reflexivity | lia].
  - apply IH in H as (j & -> & Hj). exists j. split; [reflexivity | lia].
Qed.

Lemma indexed_NoDup items : forall i, NoDup (map fst (indexed items i)).
Proof.
  induction items as [|x items IH]; intro i; simpl; constructor; [|apply IH].
  intro H. apply indexed_keys in H as (j & E & Hj).
  apply of_index_inj in E. lia.
Qed.

Lemma indexed_In items : forall i kd,
  In kd (indexed items i) ->
  In (snd kd) items
  /\ exists j, fst kd = Str.of_index j /\ (j < i + N.of_nat (List.length items))%N.
Proof.
  induction items as [|x items IH]; intros i kd H; [destruct H|].
  destruct H as [<-|H].
  - split; [now left|]. exists i. split; [reflexivity | simpl; lia].
  - apply IH in H as (Hin & j & E & Hj). split; [now right|].
    exists j. split; [assumption | simpl; lia].
Qed.

(** The properties of the root of a faithful tree. *)
Lemma children_faithful a v :
  Str.is_digit a = false -> faithful a v = true ->
  NoDup (map fst (children v))
  /\ Forall (fun kd => faithful a (snd kd) = true
                       /\ Str.mem_char a (fst kd) = false
                       /\ Proto.mem (fst kd) Proto.Object_ = false) (children v).
Proof.
  intros Ha Hv. destruct v as [| | | |items|props]; simpl children;
    try (split; constructor).
  - apply faithful_items in Hv as [Hlen Hv]. split; [apply indexed_NoDup|].
    apply Forall_forall. intros kd Hkd. apply indexed_In in Hkd as (Hin & j & E & Hj).
    rewrite Forall_forall in Hv. rewrite E. repeat split; [auto | |].
    + apply digits_exclude; [assumption | apply of_index_digits].
    + apply numeric_not_in_Object, of_index_numeric.
  - apply faithful_props in Hv as [Hd Hv]. split; [now apply distinct_NoDup|].
    eapply Forall_impl; [|exact Hv]. intros kd [Hk Hf].
    apply plain_key_spec in Hk as (_ & _ & Hk1 & Hk2). auto.
Qed.

Lemma subtree_steps_free a kd :
  Str.is_digit a = false -> faithful a (snd kd) = true ->
  Str.mem_char a (fst kd) = false ->
  forall e, In e (subtree_steps kd) ->
    fst e <> [] /\ Forall (fun s => Str.mem_char a s = false) (fst e).
Proof.
  intros Ha Hf Hk e He. unfold subtree_steps, block in He.
  apply in_map_iff in He as (e0 & <- & He0). cbn [fst]. split; [discriminate|].
  constructor; [assumption|]. eapply steps_free; eauto.
Qed.

(** The emitted paths are pairwise distinct. *)
Lemma NoDup_subtrees D :
  NoDup (map fst D) ->
  Forall (fun kd => NoDup (map fst (leaf_steps (snd kd)))) D ->
  NoDup (map fst (flat_map subtree_steps D)).
Proof.
  induction D as [|[k e] D IH]; intros Hk HD; [constructor|].
  inversion Hk as [|? ? Hnotin Hk']; subst. inversion HD as [|? ? He HD']; subst.
  cbn [flat_map]. rewrite map_app. apply NoDup_app.
  - unfold subtree_steps, block. cbn [fst snd]. rewrite map_map. cbn [fst].
    rewrite <- (map_map fst (cons k)).
    apply NoDup_map_NoDup_ForallPairs; [|assumption].
    intros x y _ _ E. now injection E.
  - now apply IH.
  - intros s Hs Hs'. apply in_map_iff in Hs as (e1 & <- & He1).
    apply in_map_iff in Hs' as (e2 & E & He2).
    unfold subtree_steps, block in He1. cbn [fst snd] in He1.
    apply in_map_iff in He1 as (e1' & <- & _). cbn [fst] in E.
    apply in_flat_map in He2 as (kd & Hkd & He2).
    unfold subtree_steps, block in He2. apply in_map_iff in He2 as (e2' & <- & _).
    cbn [fst] in E. injection E as E _. apply Hnotin. rewrite <- E.
    now apply in_map.
Qed.

Lemma NoDup_steps a v : faithful a v = true -> NoDup (map fst (leaf_steps v)).
Proof.
  induction v as [| b | n | s | items IH | props IH] using JsonValue_induction;
    intro Hv; try (repeat constructor; intros []).
  - destruct items as [|x items]; [repeat constructor; intros []|].
    rewrite leaf_steps_children by reflexivity.
    pose proof (faithful_items a _ Hv) as [_ Hitems].
    apply NoDup_subtrees; [apply indexed_NoDup|].
    apply Forall_forall. intros kd Hkd. apply indexed_In in Hkd as [Hin _].
    rewrite Forall_forall in IH, Hitems. auto.
  - destruct props as [|kv props]; [repeat constructor; intros []|].
    rewrite leaf_steps_children by reflexivity.
    pose proof (faithful_props a _ Hv) as [Hd Hprops].
    apply NoDup_subtrees; [now apply distinct_NoDup|].
    apply Forall_forall. intros kd Hkd. rewrite Forall_forall in IH, Hprops.
    apply IH; auto. now destruct (Hprops kd Hkd).
Qed.

Lemma NoDup_paths a d' v :
  Str.is_digit a = false -> faithful a v = true -> is_leaf v = false ->
  NoDup (map fst (leaves (String a d') v "")).
Proof.
  intros Ha Hv Hl.
  rewrite leaves_preorder by (eapply faithful_no_index_keys; eauto).
  change "" with (String.concat (String a d') []) at 1.
  rewrite (preorder_steps a d' v []) by auto.
  assert (E : map fst (map (with_path (String a d') []) (leaf_steps v))
              = map (String.concat (String a d')) (map fst (leaf_steps v)))
    by (rewrite !map_map; apply map_ext; intros []; reflexivity).
  rewrite E. clear E.
  apply NoDup_map_NoDup_ForallPairs; [|now apply (NoDup_steps a)].
  intros s1 s2 H1 H2 E.
  apply in_map_iff in H1 as (e1 & <- & He1). apply in_map_iff in H2 as (e2 & <- & He2).
  rewrite <- (splitKey_concat a d' (fst e1)), <- (splitKey_concat a d' (fst e2)).
  - now rewrite E.
  - eapply steps_not_empty; eauto.
  - eapply steps_free; eauto.
  - eapply steps_not_empty; eauto.
  - eapply steps_free; eauto.
Qed.

(** Placing the entries of some subtrees of the root, in any order. *)
Lemma place_subtrees a d' D :
  Str.is_digit a = false ->
  NoDup (map fst D) ->
  Forall (fun kd => faithful a (snd kd) = true
                    /\ Str.mem_char a (fst kd) = false
                    /\ Proto.mem (fst kd) Proto.Object_ = false) D ->
  Obj.for_each (flat_map (subtree_paths (String a d')) D) (place_entry (String a d'))
    (VObj [])
  = Returns (VObj (map (lift_value of_json) D)).
Proof.
  intros Ha Hnd HD.
  assert (E : flat_map (subtree_paths (String a d')) D
              = map (with_path (String a d') []) (flat_map subtree_steps D))
    by (symmetry; apply map_flat_map).
  rewrite E, (place_paths a d').
  - apply (place_children_object D []); [|exact Hnd].
    eapply Forall_impl; [|exact HD]. intros kd (Hf & _ & Hk).
    split; [now apply (place_subtree a) | assumption].
  - intros e He. apply in_flat_map in He as (kd & Hkd & He).
    rewrite Forall_forall in HD. destruct (HD kd Hkd) as (Hf & Hk & _).
    now apply (subtree_steps_free a kd).
Qed.

(** Sorting by index *)

Lemma insert_by_index_sorted {A} (e : string * A) l :
  StronglySorted index_le l -> StronglySorted index_le (Obj.insert_by_index e l).
Proof.
  induction 1 as [|x l Hl IH Hx]; simpl.
  - repeat constructor.
  - destruct (N.leb_spec (Obj.index_of e) (Obj.index_of x)) as [Hle|Hgt].
    + constructor; [now constructor|]. constructor; [exact Hle|].
      eapply Forall_impl; [|exact Hx]. intros y Hy. unfold index_le in *. lia.
    + constructor; [assumption|]. apply Forall_forall. intros y Hy.
      apply in_insert_by_index in Hy as [->|Hy].
      * unfold index_le. lia.
      * rewrite Forall_forall in Hx. auto.
Qed.

Lemma sort_by_index_sorted {A} (l : list (string * A)) :
  StronglySorted index_le (Obj.sort_by_index l).
Proof.
  induction l as [|e l IH]; simpl; [constructor | now apply insert_by_index_sorted].
Qed.

Lemma sorted_unique {A} (l2 : list (string * A)) : forall l1,
  Permutation l1 l2 -> StronglySorted index_le l1 -> StronglySorted index_lt l2 ->
  l1 = l2.
Proof.
  induction l2 as [|y l2 IH]; intros l1 HP H1 H2.
  - apply Permutation_sym in HP. now apply Permutation_nil in HP.
  - destruct l1 as [|x l1]; [apply Permutation_nil in HP; discriminate|].
    apply StronglySorted_inv in H1 as [H1 Hx]. apply StronglySorted_inv in H2 as [H2 Hy].
    rewrite Forall_forall in Hx, Hy.
    assert (E : x = y).
    { assert (Hxin : In x (y :: l2)) by (eapply Permutation_in; [exact HP | now left]).
      assert (Hyin : In y (x :: l1))
        by (eapply Permutation_in; [apply Permutation_sym, HP | now left]).
      destruct Hxin as [<-|Hxin]; [reflexivity|].
      destruct Hyin as [<-|Hyin]; [reflexivity|].
      specialize (Hy x Hxin). specialize (Hx y Hyin).
      unfold index_le, index_lt in *. lia. }
    subst y. f_equal. apply IH; auto. now apply Permutation_cons_inv in HP.
Qed.

Lemma sort_by_index_of_sorted {A} (l l' : list (string * A)) :
  Permutation l l' -> StronglySorted index_lt l' -> Obj.sort_by_index l = l'.
Proof.
  intros HP Hs. apply sorted_unique; [|apply sort_by_index_sorted | assumption].
  now rewrite perm_sort_by_index.
Qed.

Lemma indexed_sorted items : forall i, StronglySorted index_lt (indexed items i).
Proof.
  induction items as [|x items IH]; intro i; simpl; constructor; [apply IH|].
  apply Forall_forall. intros kd Hkd.
  assert (Hk : In (fst kd) (map fst (indexed items (N.succ i)))) by now apply in_map.
  apply indexed_keys in Hk as (j & E & Hj).
  unfold index_lt, Obj.index_of. cbn [fst]. rewrite E, !parseInt_of_index. lia.
Qed.

(** Finalisation *)

Lemma sequence_all {A} (f : A -> outcome A) (l : list (string * A)) :
  Forall (fun kv => f (snd kv) = Returns (snd kv)) l ->
  sequence (map (fun kv => (fst kv, f (snd kv))) l) = Returns l.
Proof.
  induction 1 as [|[k v] l Hkv Hl IH]; [reflexivity|].
  simpl in *. now rewrite Hkv, IH.
Qed.

Lemma all_numeric_plain k keys : Str.is_numeric k = false -> all_numeric (k :: keys) = false.
Proof. intro H. simpl. now rewrite H. Qed.

Lemma maybeConvertToArray_faithful a e :
  faithful a e = true -> maybeConvertToArray (of_json e) = Returns (of_json e).
Proof.
  induction e as [| b | n | s | items IH | props IH] using JsonValue_induction;
    intro He; try reflexivity.
  change (of_json (JObj props)) with (VObj (map (lift_value of_json) props)).
  rewrite maybeConvertToArray_object.
  apply faithful_props in He as [_ He].
  assert (Hidx : Forall (fun k => Str.is_array_index k = false)
                   (map fst (map (lift_value of_json) props))).
  { rewrite map_map. apply Forall_forall. intros k Hk.
    apply in_map_iff in Hk as (kv & <- & Hkv). rewrite Forall_forall in He.
    destruct (He kv Hkv) as [Hp _]. apply plain_key_spec in Hp as (_ & Hn & _).
    apply not_true_is_false. intro Hi. apply array_index_numeric in Hi.
    cbn [lift_value fst] in Hi. congruence. }
  unfold Obj.keys. rewrite (entries_no_index _ Hidx).
  assert (Hnum : all_numeric (map fst (map (lift_value of_json) props)) = false).
  { destruct props as [|[k v] props]; [reflexivity|].
    apply all_numeric_plain. inversion He as [|? ? [Hp _] _]; subst.
    now apply plain_key_spec in Hp. }
  rewrite Hnum.
  rewrite (sequence_all maybeConvertToArray); [reflexivity|].
  apply Forall_forall. intros kv Hkv. apply in_map_iff in Hkv as (kv0 & <- & Hkv0).
  rewrite Forall_forall in IH, He. cbn [lift_value snd].
  apply IH; auto. now destruct (He kv0 Hkv0).
Qed.

Lemma convert_pushes items : forall elems : list (option JsValue),
  (N.of_nat (List.length elems + List.length items) < 4294967296)%N ->
  Obj.for_each
    (map (lift_value (fun x => Returns (of_json x)))
       (indexed items (N.of_nat (List.length elems))))
    convert_into (VArr elems [])
  = Returns (VArr (elems ++ map (fun x => Some (of_json x)) items) []).
Proof.
  induction items as [|x items IH]; intros elems Hlen.
  - simpl. now rewrite app_nil_r.
  - cbn [indexed map Obj.for_each]. unfold convert_into at 1.
    change (lift_value (fun x0 => Returns (of_json x0))
              (Str.of_index (N.of_nat (List.length elems)), x))
      with (Str.of_index (N.of_nat (List.length elems)), @Returns JsValue (of_json x)).
    cbn [fst snd bind]. rewrite parseInt_of_index.
    assert (Hi : (N.of_nat (List.length elems) < 4294967295)%N) by (simpl in Hlen; lia).
    unfold put_number.
    replace (N.of_nat (List.length elems) <? 9007199254740992)%N with true
      by (symmetry; apply N.ltb_lt; lia).
    destruct (vacant_array elems Hi) as (_ & _ & HP). rewrite HP. cbn [bind].
    rewrite store_push by assumption.
    replace (N.succ (N.of_nat (List.length elems)))
      with (N.of_nat (List.length (elems ++ [Some (of_json x)])))
      by (rewrite length_app; simpl; lia).
    rewrite IH.
    + now rewrite <- app_assoc.
    + rewrite length_app. simpl in *. lia.
Qed.

Lemma entries_all_index {A} (o : list (string * A)) :
  Forall (fun e => Obj.has_index e = true) o -> Obj.entries o = Obj.sort_by_index o.
Proof.
  intro H. unfold Obj.entries. rewrite filter_all by assumption.
  rewrite filter_none; [apply app_nil_r|].
  eapply Forall_impl; [|exact H]. intros e He. simpl in He. now rewrite He.
Qed.

Lemma indexed_has_index items : forall i,
  (i + N.of_nat (List.length items) < 4294967296)%N ->
  Forall (fun e : string * JsonValue => Obj.has_index e = true) (indexed items i).
Proof.
  intros i Hlen. apply Forall_forall. intros kd Hkd.
  apply indexed_In in Hkd as (_ & j & E & Hj).
  unfold Obj.has_index. rewrite E. apply of_index_array_index. lia.
Qed.

(** Finalising the staging root of an array. *)
Lemma finalise_array a items D :
  faithful a (JArr items) = true -> items <> [] ->
  Permutation D (indexed items 0) ->
  maybeConvertToArray (VObj (map (lift_value of_json) D)) = Returns (of_json (JArr items)).
Proof.
  intros Hv Hne HP. apply faithful_items in Hv as [Hlen Hv].
  pose proof (indexed_has_index items 0 ltac:(lia)) as Hidx.
  assert (HidxD : Forall (fun e : string * JsonValue => Obj.has_index e = true) D).
  { apply Forall_forall. intros e He. rewrite Forall_forall in Hidx. apply Hidx.
    eapply Permutation_in; eauto. }
  assert (Hsorted : Obj.entries D = indexed items 0).
  { rewrite entries_all_index by assumption.
    apply sort_by_index_of_sorted; [assumption | apply indexed_sorted]. }
  rewrite maybeConvertToArray_object.
  assert (Hkeys : Obj.keys (map (lift_value of_json) D) = map fst (indexed items 0)).
  { unfold Obj.keys.
    change (map (lift_value of_json) D) with (map (fun kv => (fst kv, of_json (snd kv))) D).
    rewrite (entries_map of_json), Hsorted, map_map. reflexivity. }
  assert (Hnum : all_numeric (map fst (indexed items 0)) = true).
  { destruct items as [|x items]; [congruence|]. unfold all_numeric.
    change (map fst (indexed (x :: items) 0))
      with (Str.of_index 0 :: map fst (indexed items (N.succ 0))).
    cbv iota. apply forallb_forall. intros k Hk.
    change (In k (map fst (indexed (x :: items) 0))) in Hk.
    apply indexed_keys in Hk as (j & -> & _). apply of_index_numeric. }
  rewrite Hkeys, Hnum.
  assert (Hconv : map (fun kv => (fst kv, maybeConvertToArray (snd kv)))
                    (map (lift_value of_json) D)
                  = map (fun kv => (fst kv, (fun x => Returns (of_json x)) (snd kv))) D).
  { rewrite map_map. apply map_ext_in. intros kd Hkd. cbn [lift_value fst snd].
    f_equal. apply (maybeConvertToArray_faithful a).
    assert (Hin : In kd (indexed items 0)) by (eapply Permutation_in; eauto).
    apply indexed_In in Hin as [Hin _]. rewrite Forall_forall in Hv. auto. }
  rewrite Hconv, (entries_map (fun x => Returns (of_json x))), Hsorted.
  apply (convert_pushes items []). simpl. lia.
Qed.

Lemma Forall_permutation {A} (P : A -> Prop) l l' :
  Permutation l l' -> Forall P l' -> Forall P l.
Proof.
  intros HP H. apply Forall_forall. intros x Hx. rewrite Forall_forall in H.
  apply H. eapply Permutation_in; eauto.
Qed.

Lemma plain_root_not_index a props :
  faithful a (JObj props) = true -> Forall (fun kd => index_leaf kd = false) props.
Proof.
  intro Hv. apply faithful_props in Hv as [_ Hv].
  eapply Forall_impl; [|exact Hv]. intros kd [Hp _].
  apply plain_key_spec in Hp as (_ & Hn & _).
  unfold index_leaf. apply andb_false_iff. right.
  apply not_true_is_false. intro Hi. apply array_index_numeric in Hi. congruence.
Qed.

(** C1, as amended.  Round trip: [unflatten(flatten(v, d), d)] is [v] for
    every tree [v] that is a non-empty map or a non-empty sequence at its
    root and whose map keys, at every depth, are distinct, not empty, not
    strings of digits, free of the first character of the delimiter [d] and
    not names of properties of [Object.prototype], for every delimiter [d]
    whose first character is not a decimal digit, provided that no emitted
    path is [__proto__]. *)
Theorem C1_round_trip :
  forall (v : JsonValue) (a : ascii) (d' : string),
    Str.is_digit a = false ->
    faithful a v = true ->
    is_leaf v = false ->
    ~ In "__proto__" (map fst (leaves (String a d') v "")) ->
    round_trip v (String a d') = Returns (of_json v).
Proof.
  intros v a d' Ha Hv Hroot Hproto.
  unfold round_trip.
  rewrite (flatten_leaves (String a d') v); [|now apply NoDup_paths | assumption].
  cbn [bind]. unfold unflatten.
  rewrite (leaves_by_subtree a d' v Hv Hroot).
  rewrite (entries_by_subtree a d' (children v) Ha).
  set (D := Obj.sort_by_index (filter index_leaf (children v))
            ++ filter (fun kd => negb (index_leaf kd)) (children v)).
  assert (HP : Permutation D (children v)).
  { unfold D. rewrite perm_sort_by_index. apply perm_filter_split. }
  destruct (children_faithful a v Ha Hv) as [Hnd Hch].
  rewrite (place_subtrees a d' D Ha).
  - cbn [bind]. destruct v as [| | | |items|props]; try discriminate Hroot.
    + apply (finalise_array a); auto. intros ->. discriminate Hroot.
    + assert (E : D = props).
      { unfold D. cbn [children].
        pose proof (plain_root_not_index a props Hv) as Hnone.
        rewrite filter_none by assumption. rewrite filter_all; [reflexivity|].
        eapply Forall_impl; [|exact Hnone]. intros kd Hkd. simpl in Hkd. now rewrite Hkd. }
      rewrite E. now apply (maybeConvertToArray_faithful a (JObj props)).
  - apply (Permutation_NoDup (l := map fst (children v))); [|assumption].
    apply Permutation_map. now symmetry.
  - now apply (Forall_permutation _ _ _ HP).
Qed.

Lemma C1_witness :
  round_trip (JArr [sample_tree; JNum 5%Z; JArr []]) "/"
  = Returns (of_json (JArr [sample_tree; JNum 5%Z; JArr []])).
Proof.
  apply (C1_round_trip (JArr [sample_tree; JNum 5%Z; JArr []]) "/" "").
  - reflexivity.
  - vm_compute. reflexivity.
  - reflexivity.
  - vm_compute. intuition discriminate.
Defined.

(** The claim C1 as stated fails: a bare root scalar comes back wrapped in a
    map, a map with the key [0] comes back as a sequence, and with the
    delimiter [::] the key [a:], which does not contain it, is cut
    differently. *)
Lemma C1_counterexample :
  round_trip (JNum 5%Z) "." = Returns (VObj [("", VNum 5%Z)])
  /\ round_trip (JNum 5%Z) "." <> Returns (of_json (JNum 5%Z))
  /\ round_trip (JObj [("0", JStr "x")]) "." = Returns (VArr [Some (VStr "x")] [])
  /\ round_trip (JObj [("0", JStr "x")]) "." <> Returns (of_json (JObj [("0", JStr "x")]))
  /\ round_trip (JObj [("a:", JObj [("b", JNum 1%Z)])]) "::"
     = Returns (VObj [("a", VObj [(":b", VNum 1%Z)])]).
Proof. repeat split; vm_compute; try reflexivity; discriminate. Qed.

Lemma JsValue_induction (P : JsValue -> Prop) :
  P VNull -> (forall b, P (VBool b)) -> (forall n, P (VNum n)) -> (forall s, P (VStr s)) ->
  (forall elems named, P (VArr elems named)) ->
  (forall props, Forall (fun kv => P (snd kv)) props -> P (VObj props)) ->
  forall v, P v.
Proof.
  intros Hnull Hbool Hnum Hstr Harr Hobj. fix IH 1.
  intros [| b | n | s | elems named | props].
  - exact Hnull.
  - apply Hbool.
  - apply Hnum.
  - apply Hstr.
  - apply Harr.
  - apply Hobj. induction props as [|[k x] props IHp]; constructor; [apply IH | exact IHp].
Qed.

Lemma Put_array_numeric elems named n x :
  Put (VArr elems named) (Str.of_index n) x
  = Returns (store (VArr elems named) (Str.of_index n) x).
Proof.
  unfold Put. destruct (Str.is_array_index (Str.of_index n)); [reflexivity|].
  pose proof (of_index_numeric n) as Hn.
  destruct (String.eqb_spec (Str.of_index n) "length") as [E|_];
    [rewrite E in Hn; discriminate|].
  destruct (Obj.get (Str.of_index n) named); [reflexivity|].
  destruct (String.eqb_spec (Str.of_index n) "__proto__") as [E|_];
    [rewrite E in Hn; discriminate | reflexivity].
Qed.

Lemma convert_loop_returns l : forall arr,
  shape_of arr = Sequence ->
  Forall (fun kv : string * outcome JsValue =>
            (exists x, snd kv = Returns x)
            /\ (Str.parseInt (fst kv) < 9007199254740992)%N) l ->
  exists r, Obj.for_each l convert_into arr = Returns r.
Proof.
  induction l as [|[k m] l IH]; intros arr Ha Hl; [simpl; eauto|].
  inversion Hl as [|? ? [[x Hx] Hk] Hl']; subst. cbn [fst snd] in *. subst m.
  cbn [Obj.for_each]. unfold convert_into at 1. cbn [fst snd bind].
  unfold put_number. apply N.ltb_lt in Hk. rewrite Hk.
  destruct arr as [| | | |elems named|]; try discriminate.
  rewrite Put_array_numeric. cbn [bind]. apply IH; [|assumption].
  now rewrite shape_store.
Qed.

Lemma sequence_some {A} (l : list (string * outcome A)) :
  Forall (fun kv => exists x, snd kv = Returns x) l -> exists r, sequence l = Returns r.
Proof.
  induction 1 as [|[k m] l [x Hx] Hl [r IH]]; simpl; [eauto|].
  simpl in Hx. subst m. cbn [bind]. rewrite IH. cbn [bind]. eauto.
Qed.

(** Finalisation returns when the numeric keys it converts are exact. *)
Lemma maybeConvertToArray_returns v :
  exact_keys v = true -> exists r, maybeConvertToArray v = Returns r.
Proof.
  induction v as [| b | n | s | elems named | props IH] using JsValue_induction;
    intro Hv; try (eexists; reflexivity).
  rewrite maybeConvertToArray_object.
  cbn [exact_keys] in Hv. apply andb_true_iff in Hv as [Hkeys Hsub].
  rewrite forallb_forall in Hsub.
  assert (Hconv : Forall (fun kv : string * outcome JsValue => exists x, snd kv = Returns x)
                    (map (fun kv => (fst kv, maybeConvertToArray (snd kv))) props)).
  { apply Forall_forall. intros kv Hkv. apply in_map_iff in Hkv as (kv0 & <- & Hkv0).
    cbn [snd]. rewrite Forall_forall in IH. apply IH; auto. }
  destruct (all_numeric (Obj.keys props)) eqn:Hnum.
  - cbn [negb orb] in Hkeys. rewrite forallb_forall in Hkeys.
    apply convert_loop_returns; [reflexivity|].
    apply Forall_forall. intros kv Hkv. apply (proj1 (in_entries _ _)) in Hkv.
    rewrite Forall_forall in Hconv. split; [now apply Hconv|].
    apply in_map_iff in Hkv as (kv0 & <- & Hkv0). cbn [fst].
    apply N.ltb_lt. now apply Hkeys.
  - destruct (sequence_some _ Hconv) as [r Hr]. rewrite Hr. cbn [bind]. eauto.
Qed.

(** C8, as amended.  After the entries are placed, [maybeConvertToArray]
    finalises the staging root and, children first, the map containers
    reached from it through maps; it returns whenever the numeric keys it
    turns into indices are below 2^53.  A map whose key set is not empty and
    consists of numeric strings only becomes a sequence; when its keys are
    distinct array indices each child, itself finalised, sits at the index
    its key names.  A map with no key or with a key that is not numeric
    remains a map with the same keys, its children finalised.  A container
    created as a sequence during placement is returned as it is, whatever
    keys it has received, and is not searched for maps.  In particular
    [unflatten({"0": "x", "1": "y"}, ".")] is the array [["x", "y"]]. *)
Theorem C8_finalisation_of_maps :
  forall (props : list (string * JsValue)),
    exact_keys (VObj props) = true ->
    exists r : JsValue,
      maybeConvertToArray (VObj props) = Returns r
      /\ (all_numeric (Obj.keys props) = true ->
          shape_of r = Sequence
          /\ (NoDup (map fst props) ->
              (forall kv, In kv props -> Str.is_array_index (fst kv) = true) ->
              forall k v, In (k, v) props ->
                exists x, maybeConvertToArray v = Returns x /\ get_own r k = Some x))
      /\ (all_numeric (Obj.keys props) = false ->
          exists props',
            r = VObj props'
            /\ map fst props' = map fst props
            /\ Forall2 (fun kv kv' => maybeConvertToArray (snd kv) = Returns (snd kv'))
                 props props')
      /\ (forall elems named,
            maybeConvertToArray (VArr elems named) = Returns (VArr elems named))
      /\ unflatten [("0", JStr "x"); ("1", JStr "y")] "."
         = Returns (VArr [Some (VStr "x"); Some (VStr "y")] []).
Proof.
  intros props Hexact.
  destruct (maybeConvertToArray_returns _ Hexact) as [r H].
  exists r. split; [exact H|].
  rewrite maybeConvertToArray_object in H.
  split; [|split; [|split; reflexivity]].
  - intro Hnum. rewrite Hnum in H. split.
    + now rewrite (convert_loop_shape _ _ _ H).
    + intros Hnd Hidx k v Hin.
      set (conv := map (fun kv => (fst kv, maybeConvertToArray (snd kv))) props) in *.
      assert (Hkeys : map fst conv = map fst props).
      { unfold conv. rewrite map_map. reflexivity. }
      destruct (convert_loop_places _ _ _ H eq_refl) as [Hp _].
      * apply (Permutation_NoDup (l := map fst conv)).
        -- apply Permutation_map. symmetry. apply perm_entries.
        -- now rewrite Hkeys.
      * intros kv Hkv. apply (proj1 (in_entries _ _)) in Hkv. unfold conv in Hkv.
        apply in_map_iff in Hkv as (kv0 & <- & Hkv0). simpl. now apply Hidx.
      * apply (Hp k (maybeConvertToArray v)). apply (proj2 (in_entries _ _)). unfold conv.
        apply in_map_iff. exists (k, v). split; auto.
  - intro Hnum. rewrite Hnum in H.
    destruct (sequence _) as [props'| |] eqn:S; try discriminate.
    cbn [bind] in H. injection H as <-.
    apply sequence_returns in S as [S1 S2]. eauto.
Qed.

Lemma C8_witness :
  exists r : JsValue,
    maybeConvertToArray (VObj [("0", VStr "x"); ("1", VStr "y")]) = Returns r
    /\ shape_of r = Sequence
    /\ get_own r "1" = Some (VStr "y").
Proof.
  destruct (C8_finalisation_of_maps [("0", VStr "x"); ("1", VStr "y")] eq_refl)
    as (r & Hr & Hnum & _).
  exists r. split; [exact Hr|].
  destruct (Hnum eq_refl) as [Hs Hat]. split; [exact Hs|].
  destruct (Hat ltac:(repeat constructor; simpl; intuition discriminate)
              ltac:(intros kv [<-|[<-|[]]]; reflexivity)
              "1" (VStr "y") ltac:(simpl; auto)) as (x & Hx & Hg).
  injection Hx as <-. exact Hg.
Defined.

(** The claim C8 as stated fails: the container [a], created as a sequence
    by its first entry, has the key [b] and is not a map; and the map under
    [a.0], whose only key is numeric, is inside a sequence and stays a
    map. *)
Lemma C8_counterexample :
  unflatten [("a.0", JNum 1%Z); ("a.b", JNum 2%Z)] "."
    = Returns (VObj [("a", VArr [Some (VNum 1%Z)] [("b", VNum 2%Z)])])
  /\ unflatten [("a.0", JObj []); ("a.0.0", JStr "x")] "."
    = Returns (VObj [("a", VArr [Some (VObj [("0", VStr "x")])] [])]).
Proof. split; reflexivity. Qed.

(** * Further properties of the code *)

(** Statistics *)

Lemma count_of_set_same name n types : count_of name (Obj.set name n types) = n.
Proof. unfold count_of. now rewrite get_set_same. Qed.

Lemma count_of_set_other name name' n types :
  name <> name' -> count_of name' (Obj.set name n types) = count_of name' types.
Proof. intro H. unfold count_of. now rewrite get_set_other. Qed.

Lemma total_count_set name types :
  total_count (Obj.set name (count_of name types + 1) types) = S (total_count types).
Proof.
  unfold count_of. induction types as [|[k n] types IH]; simpl; [lia|].
  destruct (String.eqb_spec k name); simpl; lia.
Qed.

Lemma length_filter_perm {A} (p : A -> bool) l l' :
  Permutation l l' -> List.length (filter p l) = List.length (filter p l').
Proof.
  induction 1; simpl; auto.
  - destruct (p x); simpl; auto.
  - destruct (p x), (p y); simpl; auto.
  - congruence.
Qed.

Lemma stats_loop d l : forall s,
  let s' := fold_left (count_entry d) l s in
  (forall name, count_of name (snd s') = count_of name (snd s) + entries_of_type name l)
  /\ total_count (snd s') = total_count (snd s) + List.length l
  /\ (forall name n, Obj.get name (snd s') = Some n ->
        Obj.get name (snd s) = Some n \/ (0 < n /\ exists e, In e l /\ type_name (snd e) = name)).
Proof.
  induction l as [|e l IH]; intro s; cbn [fold_left].
  - unfold entries_of_type. simpl. repeat split; auto.
  - specialize (IH (count_entry d s e)). cbv zeta in *.
    destruct IH as (IH1 & IH2 & IH3). split; [|split].
    + intro name. rewrite IH1. unfold count_entry. cbn [snd].
      unfold entries_of_type. cbn [filter].
      destruct (String.eqb_spec (type_name (snd e)) name) as [<-|Hne].
      * rewrite count_of_set_same. simpl. lia.
      * rewrite count_of_set_other by assumption. lia.
    + rewrite IH2. unfold count_entry. cbn [snd]. rewrite total_count_set. simpl. lia.
    + intros name n H. destruct (IH3 name n H) as [H'|(Hn & e' & He' & Ht)].
      * unfold count_entry in H'. cbn [snd] in H'.
        destruct (String.eqb_spec (type_name (snd e)) name) as [<-|Hne].
        -- rewrite get_set_same in H'. injection H' as <-. right. split; [lia|].
           exists e. split; [now left | reflexivity].
        -- rewrite get_set_other in H' by assumption. now left.
      * right. split; [assumption|]. exists e'. split; [now right | assumption].
Qed.

Lemma type_name_known v :
  In (type_name v) ["null"; "boolean"; "number"; "string"; "object"].
Proof. destruct v; simpl; auto 6. Qed.

Lemma depth_loop d l : forall s,
  let m := fst (fold_left (count_entry d) l s) in
  fst s <= m
  /\ (forall e, In e l -> depth_of d e <= m)
  /\ (m = fst s \/ exists e, In e l /\ depth_of d e = m).
Proof.
  induction l as [|e l IH]; intro s; cbn [fold_left].
  - cbv zeta. split; [lia|]. split; [intros e []|now left].
  - specialize (IH (count_entry d s e)). cbv zeta in *.
    destruct IH as (IH1 & IH2 & IH3).
    assert (E : fst (count_entry d s e) = Nat.max (fst s) (depth_of d e)).
    { unfold count_entry, depth_of. cbn [fst]. rewrite splitKey_split.
      destruct (Nat.ltb_spec (fst s) (List.length (Str.split (fst e) d))); lia. }
    rewrite E in *. split; [lia|]. split.
    + intros e' [<-|He']; [lia | now apply IH2].
    + destruct IH3 as [->|(e' & He' & Hd)].
      * destruct (Nat.max_spec (fst s) (depth_of d e)) as [[_ ->]|[_ ->]].
        -- right. exists e. split; [now left | reflexivity].
        -- now left.
      * right. exists e'. split; [now right | assumption].
Qed.

Lemma depth_loop_max d l : forall s,
  fst (fold_left (count_entry d) l s) = Nat.max (fst s) (list_max (map (depth_of d) l)).
Proof.
  induction l as [|e l IH]; intro s; cbn [fold_left map].
  - simpl. lia.
  - rewrite IH.
    change (list_max (depth_of d e :: map (depth_of d) l))
      with (Nat.max (depth_of d e) (list_max (map (depth_of d) l))).
    unfold count_entry, depth_of. cbn [fst]. rewrite splitKey_split.
    destruct (Nat.ltb_spec (fst s) (List.length (Str.split (fst e) d))); lia.
Qed.

Lemma list_max_perm l l' : Permutation l l' -> list_max l = list_max l'.
Proof. induction 1; simpl; lia. Qed.

Lemma splitKey_not_nil key d : d <> "" -> splitKey key d <> [].
Proof.
  intro Hd. rewrite splitKey_split. destruct d as [|a d']; [congruence|].
  apply split_at_not_nil.
Qed.

Lemma list_max_zero l : list_max l = 0 -> Forall (fun n => n = 0) l.
Proof.
  induction l as [|n l IH]; simpl; intro H; constructor; [lia|]. apply IH. lia.
Qed.

Lemma list_max_block k (S0 : list steps_entry) :
  S0 <> [] ->
  list_max (map (fun e => List.length (fst e)) (block k S0))
  = S (list_max (map (fun e => List.length (fst e)) S0)).
Proof.
  unfold block. rewrite map_map. cbn [fst List.length].
  induction S0 as [|e S0 IH]; [congruence|]. intros _.
  destruct S0 as [|e' S0]; [simpl; lia|].
  cbn [map list_max fold_right] in *. specialize (IH ltac:(discriminate)). lia.
Qed.

Lemma height_children v :
  is_leaf v = false -> height v = S (list_max (map (fun kd => height (snd kd)) (children v))).
Proof.
  destruct v as [| | | |[|x items]|[|kv props]]; try discriminate; intros _.
  - cbn [height children]. f_equal. f_equal.
    generalize (x :: items) 0%N. clear. intros items.
    induction items as [|y items IH]; intro i; simpl; [reflexivity|]. f_equal. apply IH.
  - reflexivity.
Qed.

Lemma list_max_subtrees (D : list (string * JsonValue)) :
  Forall (fun kd => list_max (map (fun e => List.length (fst e)) (leaf_steps (snd kd)))
                    = height (snd kd)) D ->
  list_max (map (fun e => List.length (fst e)) (flat_map subtree_steps D))
  = list_max (map (fun kd => S (height (snd kd))) D).
Proof.
  induction 1 as [|kd D Hkd HD IH]; [reflexivity|].
  change (flat_map subtree_steps (kd :: D))
    with (subtree_steps kd ++ flat_map subtree_steps D).
  rewrite map_app, list_max_app.
  change (list_max (map (fun kd0 : string * JsonValue => S (height (snd kd0))) (kd :: D)))
    with (Nat.max (S (height (snd kd)))
            (list_max (map (fun kd0 : string * JsonValue => S (height (snd kd0))) D))).
  f_equal; [|exact IH].
  unfold subtree_steps. rewrite list_max_block by apply leaf_steps_not_nil.
  now rewrite Hkd.
Qed.

Lemma list_max_succ {A} (f : A -> nat) l :
  l <> [] -> list_max (map (fun x => S (f x)) l) = S (list_max (map f l)).
Proof.
  induction l as [|x l IH]; [congruence|]. intros _.
  destruct l as [|y l]; [simpl; lia|].
  cbn [map list_max fold_right] in *. specialize (IH ltac:(discriminate)). lia.
Qed.

Lemma children_not_nil v : is_leaf v = false -> children v <> [].
Proof. destruct v as [| | | |[|x items]|[|kv props]]; try discriminate; intros _; discriminate. Qed.

Lemma children_sub (P : JsonValue -> Prop) v :
  match v with
  | JArr items => Forall P items
  | JObj props => Forall (fun kv => P (snd kv)) props
  | _ => True
  end ->
  Forall (fun kd => P (snd kd)) (children v).
Proof.
  destruct v as [| | | |items|props]; try (intros _; constructor); cbn [children]; auto.
  generalize 0%N. induction items as [|x items IH]; intros i H; simpl; constructor.
  - now inversion H.
  - apply IH. now inversion H.
Qed.

Lemma height_steps v :
  list_max (map (fun e => List.length (fst e)) (leaf_steps v)) = height v.
Proof.
  induction v as [| b | n | s | items IH | props IH] using JsonValue_induction;
    try reflexivity.
  - destruct items as [|x items]; [reflexivity|].
    rewrite leaf_steps_children, height_children by reflexivity.
    rewrite list_max_subtrees
      by (apply (children_sub
                   (fun v => list_max (map (fun e : steps_entry => List.length (fst e))
                                         (leaf_steps v)) = height v)
                   (JArr (x :: items))); exact IH).
    apply list_max_succ. discriminate.
  - destruct props as [|kv props]; [reflexivity|].
    rewrite leaf_steps_children, height_children by reflexivity.
    rewrite list_max_subtrees
      by (apply (children_sub
                   (fun v => list_max (map (fun e : steps_entry => List.length (fst e))
                                         (leaf_steps v)) = height v)
                   (JObj (kv :: props))); exact IH).
    apply list_max_succ. discriminate.
Qed.

Lemma flatten_by_steps a d' v :
  Str.is_digit a = false -> faithful a v = true -> is_leaf v = false ->
  ~ In "__proto__" (map fst (leaves (String a d') v "")) ->
  flatten v (String a d') = Returns (map (with_path (String a d') []) (leaf_steps v)).
Proof.
  intros Ha Hv Hroot Hproto.
  rewrite flatten_leaves; [|now apply NoDup_paths | assumption].
  rewrite leaves_preorder by (now apply (faithful_no_index_keys a)).
  now rewrite <- (preorder_steps a d' v [] Hv (Forall_nil _)).
Qed.

Lemma depth_of_steps a d' v e :
  Str.is_digit a = false -> faithful a v = true -> is_leaf v = false ->
  In e (leaf_steps v) ->
  depth_of (String a d') (with_path (String a d') [] e) = List.length (fst e).
Proof.
  intros Ha Hv Hroot He. unfold depth_of, with_path. cbn [fst app].
  rewrite splitKey_concat; [reflexivity | | ].
  - now apply (steps_not_empty v).
  - now apply (steps_free a v).
Qed.

Lemma getStats_depth flat d :
  maxDepth (getStats flat d) = list_max (map (depth_of d) flat).
Proof.
  unfold getStats. cbn [maxDepth]. rewrite depth_loop_max. cbn [fst].
  rewrite Nat.max_0_l. apply list_max_perm. apply Permutation_map. apply perm_entries.
Qed.

Lemma getStats_total flat d : totalKeys (getStats flat d) = List.length flat.
Proof.
  unfold getStats, Obj.keys. cbn [totalKeys]. rewrite length_map.
  apply Permutation_length. apply perm_entries.
Qed.

(** X1. [getStats] counts every entry once: [totalKeys] is the number of
    entries, [types] is the histogram of the entries by the type of their
    value (with [null] apart from [object], and arrays counted as [object]),
    its counts add up to [totalKeys], and it lists no type that has no
    entry. *)
Theorem getStats_counts_every_entry :
  forall (flat : FlatMap) (d : string),
    totalKeys (getStats flat d) = List.length flat
    /\ (forall name, count_of name (types (getStats flat d)) = entries_of_type name flat)
    /\ total_count (types (getStats flat d)) = totalKeys (getStats flat d)
    /\ (forall name n, Obj.get name (types (getStats flat d)) = Some n ->
          0 < n /\ In name ["null"; "boolean"; "number"; "string"; "object"]).
Proof.
  intros flat d.
  destruct (stats_loop d (Obj.entries flat) (0, [])) as (H1 & H2 & H3).
  split; [apply getStats_total|]. split; [|split].
  - intro name. unfold getStats. cbn [types]. rewrite H1. unfold count_of at 1. simpl.
    unfold entries_of_type. apply length_filter_perm. apply perm_entries.
  - rewrite getStats_total. unfold getStats. cbn [types]. rewrite H2. simpl.
    apply Permutation_length. apply perm_entries.
  - intros name n H. unfold getStats in H. cbn [types] in H.
    destruct (H3 name n H) as [H'|(Hn & e & _ & <-)]; [discriminate|].
    split; [assumption | apply type_name_known].
Qed.

Lemma getStats_counts_witness :
  0 < 2 /\ In "string" ["null"; "boolean"; "number"; "string"; "object"].
Proof.
  apply (getStats_counts_every_entry
           [("a", JStr "x"); ("b.0", JNull); ("b.1", JStr "y"); ("c", JArr [])] ".").
  reflexivity.
Defined.

(** X2. The [maxDepth] of [getStats] is the largest number of steps that
    [unflatten] would read in a key of the mapping.  With a delimiter that
    is not empty every key has at least one step, so [maxDepth] is 0 for
    the empty mapping only. *)
Theorem getStats_max_depth :
  forall (flat : FlatMap) (d : string),
    d <> "" ->
    maxDepth (getStats flat d) = list_max (map (depth_of d) flat)
    /\ (forall e, In e flat -> 1 <= depth_of d e <= maxDepth (getStats flat d))
    /\ (maxDepth (getStats flat d) = 0 <-> flat = []).
Proof.
  intros flat d Hd. rewrite getStats_depth.
  assert (Hpos : forall e, 1 <= depth_of d e).
  { intro e. unfold depth_of. pose proof (splitKey_not_nil (fst e) d Hd) as H.
    destruct (splitKey (fst e) d); [congruence | simpl; lia]. }
  assert (Hle : forall e, In e flat -> depth_of d e <= list_max (map (depth_of d) flat)).
  { intros e He. pose proof (proj1 (list_max_le (map (depth_of d) flat) _) (le_n _)) as H.
    rewrite Forall_forall in H. apply H. now apply in_map. }
  split; [reflexivity|]. split.
  - intros e He. split; [apply Hpos | now apply Hle].
  - split.
    + intro H0. destruct flat as [|e flat]; [reflexivity|].
      specialize (Hle e (or_introl eq_refl)). specialize (Hpos e). lia.
    + intros ->. reflexivity.
Qed.

Lemma getStats_max_depth_witness :
  maxDepth (getStats [("a::b", JNull); ("c", JNull)] "::") = 2.
Proof.
  destruct (getStats_max_depth [("a::b", JNull); ("c", JNull)] "::") as [H _].
  - discriminate.
  - rewrite H. reflexivity.
Defined.

(** X3. The statistics of a flattened tree describe the tree: for a tree
    that round-trips (a root that is a non-empty map or sequence, plain
    distinct keys, a delimiter that does not start with a digit), the
    [maxDepth] of the flat mapping is the height of the tree and
    [totalKeys] is the number of its leaves. *)
Theorem getStats_of_flatten :
  forall (v : JsonValue) (a : ascii) (d' : string),
    Str.is_digit a = false ->
    faithful a v = true ->
    is_leaf v = false ->
    ~ In "__proto__" (map fst (leaves (String a d') v "")) ->
    exists flat,
      flatten v (String a d') = Returns flat
      /\ maxDepth (getStats flat (String a d')) = height v
      /\ totalKeys (getStats flat (String a d')) = List.length (leaf_steps v).
Proof.
  intros v a d' Ha Hv Hroot Hproto.
  exists (map (with_path (String a d') []) (leaf_steps v)).
  split; [now apply flatten_by_steps|]. split.
  - rewrite getStats_depth, map_map, <- (height_steps v). f_equal.
    apply map_ext_in. intros e He. now apply (depth_of_steps a d' v).
  - now rewrite getStats_total, length_map.
Qed.

Lemma getStats_of_flatten_witness :
  exists flat,
    flatten sample_tree "." = Returns flat
    /\ maxDepth (getStats flat ".") = 3
    /\ totalKeys (getStats flat ".") = 3.
Proof.
  destruct (getStats_of_flatten sample_tree "." "") as (flat & H1 & H2 & H3).
  - reflexivity.
  - vm_compute. reflexivity.
  - reflexivity.
  - vm_compute. intuition discriminate.
  - exists flat. split; [exact H1|]. split; [exact H2 | exact H3].
Defined.

(** Flat mappings built by assignment *)

Lemma set_keeps_NoDup {A} k (v : A) o :
  NoDup (map fst o) -> NoDup (map fst (Obj.set k v o)).
Proof.
  induction o as [|[k' v'] o IH]; simpl; intro H.
  - constructor; [intros [] | constructor].
  - inversion H as [|? ? Hnot Hrest]; subst.
    destruct (String.eqb_spec k' k) as [->|Hne]; simpl.
    + now constructor.
    + constructor; [|now apply IH].
      intro Hin. apply in_keys_set in Hin as [->|Hin]; [congruence | contradiction].
Qed.

Lemma in_set {A} (x : string * A) k v o :
  In x (Obj.set k v o) -> x = (k, v) \/ In x o.
Proof.
  induction o as [|[k' v'] o IH]; simpl.
  - intros [<-|[]]. now left.
  - destruct (String.eqb_spec k' k); simpl; intros [<-|H]; auto.
    destruct (IH H); auto.
Qed.

Lemma set_not_nil {A} k (v : A) o : Obj.set k v o <> [].
Proof. destruct o as [|[k' v'] o]; simpl; [|destruct (k' =? k)]; discriminate. Qed.

Lemma assign_loop l : forall acc r,
  Obj.for_each l assign_entry acc = Returns r ->
  (forall k, In k (map fst r) <-> In k (map fst acc) \/ In k (map fst l))
  /\ (NoDup (map fst acc) -> NoDup (map fst r))
  /\ (forall x, In x r -> In x acc \/ In x l)
  /\ (~ In "__proto__" (map fst acc) -> ~ In "__proto__" (map fst r))
  /\ (l <> [] -> r <> []).
Proof.
  induction l as [|e l IH]; intros acc r H.
  - simpl in H. injection H as <-. repeat split; auto; try tauto.
    + intros [?|[]]; assumption.
  - apply for_each_cons_returns in H as (s1 & H1 & H2).
    unfold assign_entry in H1.
    assert (Hp : ~ In "__proto__" (map fst acc) -> fst e <> "__proto__").
    { intros Hacc E. unfold Obj.assign in H1. rewrite E in H1.
      rewrite get_not_in in H1 by assumption. discriminate. }
    apply assign_returns in H1. subst s1.
    destruct (IH _ _ H2) as (I1 & I2 & I3 & I4 & I5). split; [|split; [|split; [|split]]].
    + intro k. rewrite I1, in_keys_set. simpl. intuition congruence.
    + intro Hnd. apply I2. now apply set_keeps_NoDup.
    + intros x Hx. destruct (I3 x Hx) as [Hx'|Hx']; [|right; now right].
      apply in_set in Hx' as [->|Hx']; [right; left; now destruct e | now left].
    + intros Hacc. apply I4. rewrite in_keys_set. intros [E|E]; [|contradiction].
      now apply Hp.
    + intros _. destruct l as [|e' l].
      * simpl in H2. injection H2 as <-. apply set_not_nil.
      * apply I5. discriminate.
Qed.

Lemma assign_loop_returns l : forall acc,
  ~ In "__proto__" (map fst l) -> exists r, Obj.for_each l assign_entry acc = Returns r.
Proof.
  induction l as [|e l IH]; intros acc H; simpl; [eauto|].
  unfold assign_entry at 1. rewrite assign_plain.
  - cbn [bind]. apply IH. intro Hin. apply H. now right.
  - intro E. apply H. left. exact E.
Qed.

Lemma assign_loop_no_throw l : forall acc e,
  Obj.for_each l assign_entry acc <> Throws e.
Proof.
  induction l as [|x l IH]; intros acc e; simpl; [discriminate|].
  unfold assign_entry at 1, Obj.assign.
  destruct (Obj.get (fst x) acc); [apply IH|].
  destruct (fst x =? "__proto__"); [discriminate | apply IH].
Qed.

Lemma leaves_leaf d v prefix : is_leaf v = true -> leaves d v prefix = [(prefix, v)].
Proof. destruct v as [| | | |[|x l]|[|kv l]]; try discriminate; reflexivity. Qed.

Lemma walk_items_values d (P : string * JsonValue -> Prop) items :
  Forall (fun x => forall prefix, Forall P (leaves d x prefix)) items ->
  forall i prefix, Forall P (walk_items d (map (leaves d) items) i prefix).
Proof.
  induction 1 as [|x items Hx _ IH]; intros i prefix; simpl; [constructor|].
  apply Forall_app. split; [apply Hx | apply IH].
Qed.

Lemma leaves_values_leaf d v : forall prefix,
  Forall (fun e => is_leaf (snd e) = true) (leaves d v prefix).
Proof.
  induction v as [| b | n | s | items IH | props IH] using JsonValue_induction;
    intro prefix; try (repeat constructor).
  - destruct items as [|x items]; [repeat constructor|].
    cbn [leaves]. now apply walk_items_values.
  - destruct props as [|kv props]; [repeat constructor|].
    cbn [leaves]. unfold walk_keys. rewrite entries_map.
    apply Forall_forall. intros e He. apply in_flat_map in He as (kw & Hkw & He).
    apply in_map_iff in Hkw as (kv0 & <- & Hkv0). cbn [fst snd] in He.
    apply (proj1 (in_entries _ _)) in Hkv0.
    rewrite Forall_forall in IH. specialize (IH kv0 Hkv0 (child_path prefix d (fst kv0))).
    rewrite Forall_forall in IH. now apply IH.
Qed.

Lemma leaves_not_nil d v : forall prefix, leaves d v prefix <> [].
Proof.
  induction v as [| b | n | s | items IH | props IH] using JsonValue_induction;
    intro prefix; try discriminate.
  - destruct items as [|x items]; [discriminate|]. cbn [leaves map walk_items].
    inversion IH as [|? ? Hx _]; subst. specialize (Hx (child_path prefix d (Str.of_index 0))).
    destruct (leaves d x _); [congruence | discriminate].
  - destruct props as [|kv props]; [discriminate|]. cbn [leaves]. unfold walk_keys.
    rewrite entries_map.
    assert (Hne : Obj.entries (kv :: props) <> []).
    { intro E. pose proof (perm_entries (kv :: props)) as HP. rewrite E in HP.
      apply Permutation_nil in HP. discriminate. }
    destruct (Obj.entries (kv :: props)) as [|kv0 rest] eqn:E; [congruence|].
    assert (Hin : In kv0 (kv :: props)).
    { apply (proj1 (in_entries _ _)). rewrite E. now left. }
    rewrite Forall_forall in IH. specialize (IH kv0 Hin (child_path prefix d (fst kv0))).
    cbn [map flat_map fst snd]. destruct (leaves d (snd kv0) _); [congruence | discriminate].
Qed.

(** X4. [flatten] never throws.  When none of the paths it emits is
    [__proto__] it returns a mapping that is flat and not empty: its keys
    are the emitted paths, each once, and every value is a scalar or an
    empty container. *)
Theorem flatten_result_is_flat :
  forall (v : JsonValue) (d : string),
    (forall e, flatten v d <> Throws e)
    /\ (~ In "__proto__" (map fst (leaves d v "")) ->
        exists flat,
          flatten v d = Returns flat
          /\ flat <> []
          /\ NoDup (map fst flat)
          /\ (forall k, In k (map fst flat) <-> In k (map fst (leaves d v "")))
          /\ Forall (fun kv => is_leaf (snd kv) = true) flat).
Proof.
  intros v d. unfold flatten. rewrite flatten_into_leaves. split.
  - intro e. apply assign_loop_no_throw.
  - intro Hp. destruct (assign_loop_returns (leaves d v "") [] Hp) as [flat H].
    exists flat. split; [exact H|].
    destruct (assign_loop _ _ _ H) as (I1 & I2 & I3 & _ & I5).
    split; [apply I5, leaves_not_nil|]. split; [apply I2; constructor|]. split.
    + intro k. rewrite I1. simpl. tauto.
    + apply Forall_forall. intros x Hx. destruct (I3 x Hx) as [[]|Hl].
      pose proof (leaves_values_leaf d v "") as HL. rewrite Forall_forall in HL. auto.
Qed.

Lemma flatten_result_is_flat_witness :
  exists flat,
    flatten (JObj [("a", JObj [("b", JNull)]); ("a.b", JObj [])]) "." = Returns flat
    /\ flat <> []
    /\ NoDup (map fst flat)
    /\ (forall k, In k (map fst flat) <-> In k ["a.b"; "a.b"])
    /\ Forall (fun kv => is_leaf (snd kv) = true) flat.
Proof.
  apply (proj2 (flatten_result_is_flat
                  (JObj [("a", JObj [("b", JNull)]); ("a.b", JObj [])]) ".")).
  vm_compute. intuition discriminate.
Defined.

Lemma entries_sorted_part {A} (l : list (string * A)) :
  StronglySorted index_le l -> Obj.sort_by_index l = l.
Proof.
  induction 1 as [|e l Hs IH Hall]; [reflexivity|]. simpl. rewrite IH.
  destruct l as [|e' l]; [reflexivity|]. simpl.
  inversion Hall as [|? ? He' _]; subst. unfold index_le in He'.
  apply N.leb_le in He'. now rewrite He'.
Qed.

Lemma filter_filter_same {A} (p : A -> bool) l : filter p (filter p l) = filter p l.
Proof.
  induction l as [|x l IH]; simpl; [reflexivity|].
  destruct (p x) eqn:E; simpl; [rewrite E; f_equal|]; assumption.
Qed.

Lemma filter_filter_none {A} (p : A -> bool) l :
  filter p (filter (fun x => negb (p x)) l) = [].
Proof.
  induction l as [|x l IH]; simpl; [reflexivity|].
  destruct (p x) eqn:E; simpl; [|rewrite E]; assumption.
Qed.

Lemma filter_sort_by_index {A} (p : string * A -> bool) (l : list (string * A)) :
  Forall (fun e => p e = true) l -> Forall (fun e => p e = true) (Obj.sort_by_index l).
Proof.
  intro H. apply Forall_forall. intros x Hx.
  apply (proj1 (in_sort_by_index _ _)) in Hx. rewrite Forall_forall in H. auto.
Qed.

(** The enumeration of an object that was created in enumeration order is
    its creation order. *)
Lemma entries_entries {A} (o : list (string * A)) : Obj.entries (Obj.entries o) = Obj.entries o.
Proof.
  unfold Obj.entries.
  set (idx := Obj.sort_by_index (filter Obj.has_index o)).
  set (rest := filter (fun e => negb (Obj.has_index e)) o).
  assert (Hidx : Forall (fun e => Obj.has_index e = true) idx).
  { apply filter_sort_by_index. apply Forall_forall. intros x Hx.
    now apply filter_In in Hx. }
  assert (Hrest : Forall (fun e => Obj.has_index e = false) rest).
  { apply Forall_forall. intros x Hx. apply filter_In in Hx as [_ Hx].
    now apply negb_true_iff. }
  rewrite !filter_app.
  rewrite (filter_all _ _ Hidx), (filter_none _ _ Hrest), app_nil_r.
  rewrite (filter_none (fun e => negb (Obj.has_index e)) idx).
  - rewrite (filter_all (fun e => negb (Obj.has_index e)) rest).
    + simpl. f_equal. apply entries_sorted_part. apply sort_by_index_sorted.
    + eapply Forall_impl; [|exact Hrest]. intros e He. simpl in He. now rewrite He.
  - eapply Forall_impl; [|exact Hidx]. intros e He. simpl in He. now rewrite He.
Qed.

Lemma leaves_of_flat d (flat : FlatMap) :
  flat <> [] -> Forall (fun kv => is_leaf (snd kv) = true) flat ->
  leaves d (JObj flat) "" = Obj.entries flat.
Proof.
  intros Hne Hleaf. destruct flat as [|kv flat]; [congruence|].
  cbn [leaves]. unfold walk_keys. rewrite entries_map.
  assert (H : Forall (fun kv => is_leaf (snd kv) = true) (Obj.entries (kv :: flat))).
  { apply Forall_forall. intros x Hx. apply (proj1 (in_entries _ _)) in Hx.
    rewrite Forall_forall in Hleaf. auto. }
  induction H as [|[k x] l Hx _ IH]; [reflexivity|].
  cbn [map flat_map fst snd]. rewrite IH. cbn [fst snd child_path] in *.
  now rewrite leaves_leaf.
Qed.

(** X5. Flattening is idempotent: for a tree none of whose emitted paths
    is [__proto__], the mapping [flatten] returns, flattened again as a
    tree with any delimiter, is returned as it is (its entries in their
    enumeration order). *)
Theorem flatten_of_flat_mapping :
  forall (v : JsonValue) (d d2 : string),
    ~ In "__proto__" (map fst (leaves d v "")) ->
    exists flat,
      flatten v d = Returns flat
      /\ flatten (JObj flat) d2 = Returns (Obj.entries flat).
Proof.
  intros v d d2 Hp. unfold flatten at 1. rewrite flatten_into_leaves.
  destruct (assign_loop_returns (leaves d v "") [] Hp) as [flat H].
  exists flat. split; [exact H|].
  destruct (assign_loop _ _ _ H) as (_ & I2 & I3 & I4 & I5).
  assert (Hne : flat <> []) by apply I5, leaves_not_nil.
  assert (Hleaf : Forall (fun kv => is_leaf (snd kv) = true) flat).
  { apply Forall_forall. intros x Hx. destruct (I3 x Hx) as [[]|Hl].
    pose proof (leaves_values_leaf d v "") as HL. rewrite Forall_forall in HL. auto. }
  rewrite <- (leaves_of_flat d2 flat Hne Hleaf).
  apply flatten_leaves; rewrite leaves_of_flat by assumption.
  - apply (Permutation_NoDup (l := map fst flat)).
    + apply Permutation_map. symmetry. apply perm_entries.
    + apply I2. constructor.
  - intro Hin. apply (I4 (fun F => F)).
    apply in_map_iff in Hin as (x & Hx & Hin). apply in_map_iff. exists x.
    split; [assumption | now apply (proj1 (in_entries _ _))].
Qed.

Lemma flatten_of_flat_mapping_witness :
  exists flat,
    flatten sample_tree "." = Returns flat
    /\ flatten (JObj flat) "/" = Returns (Obj.entries flat).
Proof.
  apply (flatten_of_flat_mapping sample_tree "." "/").
  vm_compute. intuition discriminate.
Defined.

(** The root of the result of [unflatten] *)

Lemma place_root_keys keys props v r :
  place (VObj props) keys v = Returns r ->
  exists props', r = VObj props'
    /\ forall k, In k (map fst props') <-> k = root_step keys \/ In k (map fst props).
Proof.
  intro H. destruct keys as [|k [|next rest]].
  - change (Put (VObj props) "undefined" v = Returns r) in H.
    apply Put_returns in H as [_ ->]. simpl. eexists. split; [reflexivity|].
    intro k. apply in_keys_set.
  - apply place_last in H as [_ ->]. simpl. eexists. split; [reflexivity|].
    intro k'. apply in_keys_set.
  - apply place_step in H as (start & child & _ & -> & _). simpl.
    eexists. split; [reflexivity|]. intro k'. apply in_keys_set.
Qed.

Lemma place_loop_root_keys d l : forall props r,
  Obj.for_each l (place_entry d) (VObj props) = Returns r ->
  exists props', r = VObj props'
    /\ forall k, In k (map fst props') <->
                 In k (map fst props)
                 \/ exists e, In e l /\ k = root_step (splitKey (fst e) d).
Proof.
  induction l as [|e l IH]; intros props r H.
  - simpl in H. injection H as <-. exists props. split; [reflexivity|].
    intro k. split; [now left | intros [?|(e & [] & _)]; assumption].
  - apply for_each_cons_returns in H as (s1 & H1 & H2).
    unfold place_entry in H1. apply place_root_keys in H1 as (p1 & -> & K1).
    destruct (IH _ _ H2) as (p2 & -> & K2). exists p2. split; [reflexivity|].
    intro k. rewrite K2, K1. split.
    + intros [[->|Hk]|(e' & He' & ->)].
      * right. exists e. split; [now left | reflexivity].
      * now left.
      * right. exists e'. split; [now right | reflexivity].
    + intros [Hk|(e' & [<-|He'] & ->)].
      * left. now right.
      * left. now left.
      * right. exists e'. split; [assumption | reflexivity].
Qed.

Lemma all_numeric_spec keys :
  all_numeric keys = true <-> keys <> [] /\ forall k, In k keys -> Str.is_numeric k = true.
Proof.
  destruct keys as [|k keys].
  - simpl. split; [discriminate | intros [H _]; congruence].
  - unfold all_numeric. rewrite forallb_forall. split.
    + intro H. split; [discriminate | exact H].
    + intros [_ H]. exact H.
Qed.

Lemma in_keys {A} k (o : list (string * A)) : In k (Obj.keys o) <-> In k (map fst o).
Proof.
  unfold Obj.keys. rewrite !in_map_iff.
  split; intros (x & Hx & Hin); exists x; (split; [assumption|]); now apply in_entries.
Qed.

Lemma keys_not_nil {A} (o : list (string * A)) : Obj.keys o = [] <-> o = [].
Proof.
  unfold Obj.keys. split.
  - intro H. apply map_eq_nil in H. pose proof (perm_entries o) as HP. rewrite H in HP.
    now apply Permutation_nil in HP.
  - intros ->. reflexivity.
Qed.

Lemma maybeConvertToArray_shape props r :
  maybeConvertToArray (VObj props) = Returns r ->
  shape_of r = if all_numeric (Obj.keys props) then Sequence else Map.
Proof.
  rewrite maybeConvertToArray_object. destruct (all_numeric (Obj.keys props)).
  - intro H. now rewrite (convert_loop_shape _ _ _ H).
  - destruct (sequence _) as [props'| |]; try discriminate. cbn [bind].
    intro H. now injection H as <-.
Qed.

(** X6. What [unflatten] returns is never a scalar.  When no step of a key
    names a property of a builtin prototype ([constructor], [toString],
    [length], [__proto__] and the like), the result is a sequence exactly
    when the mapping is not empty and the first step of every key is a
    string of digits, and a map otherwise. *)
Theorem unflatten_root_shape :
  forall (flat : FlatMap) (d : string) (r : JsValue),
    unflatten flat d = Returns r ->
    shape_of r <> Scalar
    /\ ((forall e, In e flat ->
           Forall (fun k => builtin_name k = false) (splitKey (fst e) d)) ->
        (shape_of r = Sequence <->
         flat <> []
         /\ forall e, In e flat ->
              Str.is_numeric (root_step (splitKey (fst e) d)) = true)).
Proof.
  intros flat d r H. unfold unflatten in H.
  destruct (Obj.for_each _ _ _) as [staged| |] eqn:L; try discriminate. cbn [bind] in H.
  apply place_loop_root_keys in L as (props & -> & K).
  apply maybeConvertToArray_shape in H. split.
  - rewrite H. destruct (all_numeric _); discriminate.
  - intros _. rewrite H. transitivity (all_numeric (Obj.keys props) = true).
    { destruct (all_numeric _); split; congruence. }
    rewrite all_numeric_spec. rewrite keys_not_nil. split.
    + intros [Hne Hall]. split.
      * intros ->. destruct props as [|[k x] props]; [congruence|].
        destruct (proj1 (K k) (or_introl eq_refl)) as [[]|(e & [] & _)].
      * intros e He. apply Hall. apply (proj2 (in_keys _ props)). apply (proj2 (K _)).
        right. exists e.
        split; [now apply in_entries | reflexivity].
    + intros [Hne Hall]. split.
      * destruct flat as [|e flat]; [congruence|]. intros ->.
        apply (proj2 (K (root_step (splitKey (fst e) d)))).
        right. exists e. split; [apply in_entries; now left | reflexivity].
      * intros k Hk. apply (proj1 (in_keys k props)) in Hk.
        apply (proj1 (K k)) in Hk as [[]|(e & He & ->)].
        apply Hall. now apply (proj1 (in_entries _ _)).
Qed.

Lemma unflatten_root_shape_witness :
  shape_of (VArr [Some (VObj [("a", VNum 1%Z)]); Some (VNum 2%Z)] []) <> Scalar
  /\ (shape_of (VArr [Some (VObj [("a", VNum 1%Z)]); Some (VNum 2%Z)] []) = Sequence <->
      [("0.a", JNum 1%Z); ("1", JNum 2%Z)] <> []
      /\ forall e, In e [("0.a", JNum 1%Z); ("1", JNum 2%Z)] ->
           Str.is_numeric (root_step (splitKey (fst e) ".")) = true).
Proof.
  destruct (unflatten_root_shape [("0.a", JNum 1%Z); ("1", JNum 2%Z)] "."
              (VArr [Some (VObj [("a", VNum 1%Z)]); Some (VNum 2%Z)] []) eq_refl)
    as [H1 H2].
  split; [exact H1|]. apply H2.
  intros e [<-|[<-|[]]]; vm_compute; repeat constructor.
Defined.

(** Finalisation a second time *)

Lemma keys_of_keys {A B} (l : list (string * A)) (l' : list (string * B)) :
  map fst l = map fst l' -> Obj.keys l = Obj.keys l'.
Proof.
  intro H. unfold Obj.keys.
  assert (E : forall C (o : list (string * C)),
             map fst (Obj.entries o) = map fst (Obj.entries (map (fun k => (k, tt)) (map fst o)))).
  { intros C o. rewrite map_map.
    rewrite (entries_map (fun _ : C => tt) o). rewrite map_map. reflexivity. }
  rewrite (E A l), (E B l'). now rewrite H.
Qed.

(** X7. [maybeConvertToArray] is idempotent: a value it returns is returned
    unchanged when it is finalised again. *)
Theorem maybeConvertToArray_idempotent :
  forall (v r : JsValue),
    maybeConvertToArray v = Returns r -> maybeConvertToArray r = Returns r.
Proof.
  induction v as [| b | n | s | elems named | props IH] using JsValue_induction;
    intros r H; try (simpl in H; injection H as <-; reflexivity).
  pose proof (maybeConvertToArray_shape _ _ H) as Hs.
  rewrite maybeConvertToArray_object in H.
  destruct (all_numeric (Obj.keys props)) eqn:Hnum.
  - destruct r; try discriminate. reflexivity.
  - destruct (sequence _) as [props'| |] eqn:S; try discriminate.
    cbn [bind] in H. injection H as <-.
    apply sequence_returns in S as [S1 S2].
    rewrite maybeConvertToArray_object.
    rewrite (keys_of_keys props' props S1), Hnum.
    rewrite sequence_all; [reflexivity|].
    clear S1 Hnum Hs. induction S2 as [|kv kv' l l' Hkv _ IH2]; constructor.
    + inversion IH as [|? ? Hhead _]; subst. now apply (Hhead _ Hkv).
    + apply IH2. now inversion IH.
Qed.

Lemma maybeConvertToArray_idempotent_witness :
  maybeConvertToArray
    (VObj [("a", VArr [Some (VStr "x")] []); ("b", VArr [Some (VNum 1%Z)] [])])
  = Returns (VObj [("a", VArr [Some (VStr "x")] []); ("b", VArr [Some (VNum 1%Z)] [])]).
Proof.
  apply (maybeConvertToArray_idempotent
           (VObj [("a", VObj [("0", VStr "x")]); ("b", VObj [("0", VNum 1%Z)])])).
  reflexivity.
Defined.

(** Mappings whose keys are single steps *)

Lemma single_step_spec a k :
  single_step a k = true ->
  Str.mem_char a k = false /\ Str.is_numeric k = false
  /\ Proto.mem k Proto.Object_ = false.
Proof.
  unfold single_step. intro H. apply andb_true_iff in H as [H H3].
  apply andb_true_iff in H as [H1 H2].
  repeat split; now apply negb_true_iff.
Qed.

Lemma splitKey_single a d' k :
  Str.mem_char a k = false -> splitKey k (String a d') = [k].
Proof.
  intro H. apply (splitKey_concat a d' [k]); [discriminate|].
  constructor; [assumption | constructor].
Qed.

Lemma place_single_steps a d' l : forall acc,
  NoDup (map fst acc ++ map fst l) ->
  Forall (fun kv => single_step a (fst kv) = true) l ->
  Obj.for_each l (place_entry (String a d')) (VObj acc)
  = Returns (VObj (acc ++ map (lift_value of_json) l)).
Proof.
  induction l as [|[k v] l IH]; intros acc Hnd Hl.
  - simpl. now rewrite app_nil_r.
  - inversion Hl as [|? ? Hk Hrest]; subst. cbn [fst] in Hk.
    apply single_step_spec in Hk as (Ha & _ & Hp).
    cbn [Obj.for_each]. unfold place_entry at 1. cbn [fst snd].
    rewrite splitKey_single by assumption. cbn [place].
    assert (Hfresh : ~ In k (map fst acc)).
    { intro Hin. cbn [map fst] in Hnd. apply NoDup_remove_2 in Hnd. apply Hnd.
      apply in_or_app. now left. }
    destruct (vacant_object acc k Hp Hfresh) as (_ & _ & HPut). rewrite HPut.
    cbn [bind store]. rewrite set_not_in by assumption. rewrite IH.
    + now rewrite <- app_assoc.
    + rewrite map_app, <- app_assoc. exact Hnd.
    + assumption.
Qed.

Lemma all_numeric_none keys :
  (forall k, In k keys -> Str.is_numeric k = false) -> all_numeric keys = false.
Proof.
  destruct keys as [|k keys]; [reflexivity|]. intro H.
  apply all_numeric_plain. apply H. now left.
Qed.

(** X8. On a mapping whose keys are distinct single steps, [unflatten]
    builds no container: it returns a map with the same keys in the same
    order, and each value is the given value finalised by
    [maybeConvertToArray], so a value that is a map with all-digit keys
    comes back as a sequence. *)
Theorem unflatten_single_steps :
  forall (flat : FlatMap) (a : ascii) (d' : string),
    NoDup (map fst flat) ->
    Forall (fun kv => single_step a (fst kv) = true) flat ->
    unflatten flat (String a d')
    = (props <- sequence (map (fun kv => (fst kv, maybeConvertToArray (of_json (snd kv))))
                            flat) ;;
       Returns (VObj props)).
Proof.
  intros flat a d' Hnd Hall. unfold unflatten.
  assert (Hplain : forall k, In k (map fst flat) -> Str.is_numeric k = false).
  { intros k Hk. apply in_map_iff in Hk as (kv & <- & Hkv).
    rewrite Forall_forall in Hall. now apply (single_step_spec a _ (Hall kv Hkv)). }
  rewrite entries_no_index.
  - rewrite (place_single_steps a d' flat []); [|exact Hnd | exact Hall].
    cbn [bind app]. rewrite maybeConvertToArray_object.
    rewrite all_numeric_none.
    + unfold lift_value. rewrite map_map. reflexivity.
    + intros k Hk. apply (proj1 (in_keys _ _)) in Hk. apply Hplain.
      unfold lift_value in Hk. rewrite map_map in Hk. exact Hk.
  - apply Forall_forall. intros k Hk.
    destruct (Str.is_array_index k) eqn:E; [|reflexivity].
    apply array_index_numeric in E. rewrite (Hplain k Hk) in E. discriminate.
Qed.

Lemma unflatten_single_steps_witness :
  unflatten [("a", JObj [("0", JStr "x")]); ("", JNum 1%Z)] "."
  = Returns (VObj [("a", VArr [Some (VStr "x")] []); ("", VNum 1%Z)]).
Proof.
  rewrite (unflatten_single_steps [("a", JObj [("0", JStr "x")]); ("", JNum 1%Z)] "." "").
  - reflexivity.
  - repeat constructor; simpl; intuition discriminate.
  - repeat constructor.
Defined.

(** Index steps beyond the end of a sequence *)




Lemma select_loop_no_throw test l : forall acc e,
  Obj.for_each l (select test) acc <> Throws e.
Proof.
  induction l as [|x l IH]; intros acc e; simpl; [discriminate|].
  unfold select at 1. destruct (test (fst x)); [|apply IH].
  unfold Obj.assign. destruct (Obj.get (fst x) acc); [apply IH|].
  destruct (fst x =? "__proto__"); [discriminate | apply IH].
Qed.

Lemma select_loop_plain_returns test l : forall acc,
  ~ In "__proto__" (map fst l) -> exists r, Obj.for_each l (select test) acc = Returns r.
Proof.
  induction l as [|x l IH]; intros acc H; simpl; [eauto|].
  assert (Hl : ~ In "__proto__" (map fst l)) by (intro F; apply H; now right).
  unfold select at 1. destruct (test (fst x)); [|now apply IH].
  rewrite assign_plain; [now apply IH|]. intro E. apply H. now left.
Qed.

(** X21. No pattern makes [filterByPath] throw: whatever characters the
    pattern has, the source built from it is a well-formed regular
    expression, and the filter returns a mapping for every flat mapping
    that has no key [__proto__]. *)
Theorem filterByPath_never_throws :
  forall (flat : FlatMap) (pattern : string),
    (exists regex, Regex.parse (regex_source pattern) = Some regex)
    /\ (forall e, filterByPath flat pattern <> Throws e)
    /\ (~ In "__proto__" (map fst flat) ->
        exists selected, filterByPath flat pattern = Returns selected).
Proof.
  intros flat pattern. split; [eexists; apply parse_regex_source|].
  rewrite filterByPath_select. split.
  - intro e. apply select_loop_no_throw.
  - intro H. apply select_loop_plain_returns. intro Hin. apply H.
    apply in_map_iff in Hin as (x & Hx & Hin). apply in_map_iff. exists x.
    split; [assumption | now apply (proj1 (in_entries _ _))].
Qed.

Lemma filterByPath_never_throws_witness :
  exists selected, filterByPath [("a(b", JNum 1%Z); ("a.b", JNum 2%Z)] "a(*[" = Returns selected.
Proof.
  apply (filterByPath_never_throws [("a(b", JNum 1%Z); ("a.b", JNum 2%Z)] "a(*[").
  simpl. intuition discriminate.
Defined.

(** Filtering as a sublist *)

Lemma select_loop_filter test l : forall acc,
  NoDup (map fst acc ++ map fst l) ->
  ~ (In "__proto__" (map fst l) /\ test "__proto__" = true) ->
  Obj.for_each l (select test) acc
  = Returns (acc ++ filter (fun kv => test (fst kv)) l).
Proof.
  induction l as [|[k v] l IH]; intros acc Hnd Hp.
  - simpl. now rewrite app_nil_r.
  - cbn [Obj.for_each filter fst]. unfold select at 1. cbn [fst snd].
    assert (Hfresh : ~ In k (map fst acc)).
    { intro Hin. cbn [map fst] in Hnd. apply NoDup_remove_2 in Hnd. apply Hnd.
      apply in_or_app. now left. }
    assert (Hrest : ~ (In "__proto__" (map fst l) /\ test "__proto__" = true)).
    { intros [H1 H2]. apply Hp. split; [now right | assumption]. }
    destruct (test k) eqn:T.
    + rewrite assign_plain.
      * cbn [bind]. rewrite set_not_in by assumption. rewrite IH.
        -- now rewrite <- app_assoc.
        -- rewrite map_app, <- app_assoc. exact Hnd.
        -- exact Hrest.
      * intros ->. apply Hp. split; [now left | assumption].
    + cbn [bind]. apply IH; [|exact Hrest].
      cbn [map fst] in Hnd. now apply NoDup_remove_1 in Hnd.
Qed.

Lemma NoDup_entries_keys {A} (o : list (string * A)) :
  NoDup (map fst o) -> NoDup (map fst (Obj.entries o)).
Proof.
  apply Permutation_NoDup. apply Permutation_map. symmetry. apply perm_entries.
Qed.

Lemma filterByPath_filter flat pattern :
  NoDup (map fst flat) ->
  ~ (In "__proto__" (map fst flat) /\ glob pattern "__proto__" = true) ->
  filterByPath flat pattern = Returns (filter (selects pattern) (Obj.entries flat)).
Proof.
  intros Hnd Hp. rewrite filterByPath_select.
  rewrite (select_loop_filter (glob pattern) (Obj.entries flat) []); [reflexivity | | ].
  - now apply NoDup_entries_keys.
  - intros [H1 H2]. apply Hp. split; [|assumption].
    apply in_map_iff in H1 as (x & Hx & Hin). apply in_map_iff. exists x.
    split; [assumption | now apply (proj1 (in_entries _ _))].
Qed.

(** X10. [filterByPath] keeps a sublist of the entries: on a mapping with
    distinct keys it returns, in their enumeration order and with their
    values unchanged, exactly the entries whose key the pattern matches
    (unless it would have to copy an entry named [__proto__]). *)
Theorem filterByPath_keeps_matching_entries :
  forall (flat : FlatMap) (pattern : string),
    NoDup (map fst flat) ->
    ~ (In "__proto__" (map fst flat) /\ glob pattern "__proto__" = true) ->
    filterByPath flat pattern = Returns (filter (selects pattern) (Obj.entries flat)).
Proof. intros flat pattern. apply filterByPath_filter. Qed.

Lemma filterByPath_keeps_matching_entries_witness :
  filterByPath [("b.x", JNum 1%Z); ("a.y", JNum 2%Z); ("7", JNull); ("b.z", JNum 3%Z)] "b.*"
  = Returns [("b.x", JNum 1%Z); ("b.z", JNum 3%Z)].
Proof.
  rewrite (filterByPath_keeps_matching_entries
             [("b.x", JNum 1%Z); ("a.y", JNum 2%Z); ("7", JNull); ("b.z", JNum 3%Z)] "b.*").
  - reflexivity.
  - repeat constructor; simpl; intuition discriminate.
  - simpl. intuition discriminate.
Defined.

Lemma sorted_filter {A} (R : A -> A -> Prop) (p : A -> bool) l :
  StronglySorted R l -> StronglySorted R (filter p l).
Proof.
  induction 1 as [|x l Hs IH Hall]; simpl; [constructor|].
  destruct (p x); [|assumption]. constructor; [assumption|].
  apply Forall_forall. intros y Hy. apply filter_In in Hy as [Hy _].
  rewrite Forall_forall in Hall. auto.
Qed.

Lemma filter_comm {A} (p q : A -> bool) l : filter p (filter q l) = filter q (filter p l).
Proof.
  induction l as [|x l IH]; simpl; [reflexivity|].
  destruct (p x) eqn:P, (q x) eqn:Q; simpl; rewrite ?P, ?Q, IH; reflexivity.
Qed.

Lemma entries_filter_entries {A} (p : string * A -> bool) (o : list (string * A)) :
  Obj.entries (filter p (Obj.entries o)) = filter p (Obj.entries o).
Proof.
  rewrite <- (entries_entries o) at 2. unfold Obj.entries at 1 3.
  rewrite filter_app. rewrite !(filter_comm _ p). f_equal.
  rewrite (entries_sorted_part (filter p _)).
  - rewrite entries_sorted_part; [reflexivity|].
    unfold Obj.entries. rewrite filter_app.
    rewrite (filter_none Obj.has_index (filter _ o)).
    + rewrite app_nil_r. rewrite filter_all; [apply sort_by_index_sorted|].
      apply filter_sort_by_index. apply Forall_forall. intros x Hx.
      now apply filter_In in Hx.
    + apply Forall_forall. intros x Hx. apply filter_In in Hx as [_ Hx].
      now apply negb_true_iff.
  - apply sorted_filter. unfold Obj.entries. rewrite filter_app.
    rewrite (filter_none Obj.has_index (filter _ o)).
    + rewrite app_nil_r. rewrite filter_all; [apply sort_by_index_sorted|].
      apply filter_sort_by_index. apply Forall_forall. intros x Hx.
      now apply filter_In in Hx.
    + apply Forall_forall. intros x Hx. apply filter_In in Hx as [_ Hx].
      now apply negb_true_iff.
Qed.

Lemma NoDup_filter_keys {A} (p : string * A -> bool) (l : list (string * A)) :
  NoDup (map fst l) -> NoDup (map fst (filter p l)).
Proof.
  induction l as [|x l IH]; simpl; intro H; [constructor|].
  inversion H as [|? ? Hnot Hrest]; subst.
  destruct (p x); [|now apply IH]. simpl. constructor; [|now apply IH].
  intro Hin. apply Hnot. apply in_map_iff in Hin as (y & Hy & Hin).
  apply filter_In in Hin as [Hin _]. apply in_map_iff. now exists y.
Qed.

Lemma select_loop_no_proto test l : forall acc r,
  Obj.for_each l (select test) acc = Returns r ->
  ~ In "__proto__" (map fst acc) -> ~ In "__proto__" (map fst r).
Proof.
  induction l as [|e l IH]; intros acc r H Hacc.
  - simpl in H. now injection H as <-.
  - apply for_each_cons_returns in H as (s1 & H1 & H2). apply (IH _ _ H2).
    unfold select in H1. destruct (test (fst e)).
    + assert (Hne : fst e <> "__proto__").
      { intro E. unfold Obj.assign in H1. rewrite E in H1.
        rewrite get_not_in in H1 by assumption. discriminate. }
      apply assign_returns in H1. subst s1. rewrite in_keys_set.
      intros [E|E]; [now apply Hne | contradiction].
    + now injection H1 as <-.
Qed.

Lemma filterByPath_again flat p q r :
  NoDup (map fst flat) ->
  filterByPath flat p = Returns r ->
  r = filter (selects p) (Obj.entries flat)
  /\ filterByPath r q = Returns (filter (selects q) r).
Proof.
  intros Hnd H.
  assert (Hproto : ~ In "__proto__" (map fst r)).
  { rewrite filterByPath_select in H. apply (select_loop_no_proto _ _ _ _ H). intros []. }
  assert (E : r = filter (selects p) (Obj.entries flat)).
  { rewrite filterByPath_select in H.
    assert (HP : ~ (In "__proto__" (map fst (Obj.entries flat))
                    /\ glob p "__proto__" = true)).
    { intros [Hin Hg]. apply Hproto.
      destruct (select_loop_keys _ _ _ _ H "__proto__") as [_ K]. apply K. now right. }
    pose proof (select_loop_filter (glob p) (Obj.entries flat) []
                  (NoDup_entries_keys flat Hnd) HP) as F.
    rewrite F in H. now injection H as <-. }
  split; [exact E|]. rewrite filterByPath_filter.
  - f_equal. f_equal. rewrite E. apply entries_filter_entries.
  - rewrite E. apply NoDup_filter_keys. now apply NoDup_entries_keys.
  - intros [Hin _]. contradiction.
Qed.

(** X11. Filters compose: on a mapping with distinct keys and without a
    key [__proto__], filtering a filtered mapping keeps the entries that
    both patterns match, in either order of the two filters, and filtering
    twice with the same pattern changes nothing. *)
Theorem filterByPath_composes :
  forall (flat : FlatMap) (p q : string),
    NoDup (map fst flat) ->
    ~ In "__proto__" (map fst flat) ->
    exists r r',
      filterByPath flat p = Returns r
      /\ filterByPath flat q = Returns r'
      /\ filterByPath r q
         = Returns (filter (fun kv => selects p kv && selects q kv) (Obj.entries flat))
      /\ filterByPath r p = Returns r
      /\ filterByPath r' p = filterByPath r q.
Proof.
  intros flat p q Hnd Hproto.
  assert (F2 : forall (f g : string * JsonValue -> bool) l,
             filter g (filter f l) = filter (fun kv => f kv && g kv) l).
  { intros f g l. induction l as [|x l IH]; simpl; [reflexivity|].
    destruct (f x) eqn:Ef; simpl; [destruct (g x) eqn:Eg; simpl; now rewrite IH | exact IH]. }
  assert (R : forall t, filterByPath flat t
                        = Returns (filter (selects t) (Obj.entries flat))).
  { intro t. apply filterByPath_filter; [assumption|]. intros [Hin _]. contradiction. }
  exists (filter (selects p) (Obj.entries flat)), (filter (selects q) (Obj.entries flat)).
  destruct (filterByPath_again flat p q _ Hnd (R p)) as [_ Hq].
  destruct (filterByPath_again flat p p _ Hnd (R p)) as [_ Hp].
  destruct (filterByPath_again flat q p _ Hnd (R q)) as [_ Hp'].
  split; [apply R|]. split; [apply R|]. split; [|split].
  - rewrite Hq. now rewrite F2.
  - rewrite Hp. apply f_equal. apply filter_filter_same.
  - rewrite Hp', Hq. apply f_equal. apply filter_comm.
Qed.

Lemma filterByPath_composes_witness :
  exists r r',
    filterByPath [("user.name", JStr "Jane"); ("user.age", JNum 28%Z); ("id", JNum 1%Z)]
      "user.*" = Returns r
    /\ filterByPath [("user.name", JStr "Jane"); ("user.age", JNum 28%Z); ("id", JNum 1%Z)]
         "*.name" = Returns r'
    /\ filterByPath r "*.name"
       = Returns (filter (fun kv => selects "user.*" kv && selects "*.name" kv)
                    (Obj.entries [("user.name", JStr "Jane"); ("user.age", JNum 28%Z);
                                  ("id", JNum 1%Z)]))
    /\ filterByPath r "user.*" = Returns r
    /\ filterByPath r' "user.*" = filterByPath r "*.name".
Proof.
  apply (filterByPath_composes
           [("user.name", JStr "Jane"); ("user.age", JNum 28%Z); ("id", JNum 1%Z)]
           "user.*" "*.name").
  - repeat constructor; simpl; intuition discriminate.
  - simpl. intuition discriminate.
Defined.

(** Patterns without a star, and the dots of a pattern *)

Lemma glob_literal p : forall k,
  Str.mem_char "*" p = false -> glob p k = (p =? k).
Proof.
  induction p as [|c p IH]; intros k H.
  - destruct k; reflexivity.
  - cbn [Str.mem_char] in H. apply orb_false_iff in H as [Hc Hp].
    cbn [glob]. rewrite Ascii.eqb_sym, Hc.
    destruct k as [|c' k]; [reflexivity|]. rewrite IH by assumption.
    cbn [String.eqb]. destruct (Ascii.eqb c c'); reflexivity.
Qed.

(** X12. A pattern without [*] is matched literally, its regular expression
    metacharacters included: on a mapping without a key [__proto__],
    [filterByPath] then selects the entry whose key is the pattern itself,
    if there is one, and nothing else. *)
Theorem filterByPath_literal_pattern :
  forall (flat : FlatMap) (pattern : string),
    star_free pattern = true ->
    ~ In "__proto__" (map fst flat) ->
    exists selected,
      filterByPath flat pattern = Returns selected
      /\ forall key, In key (map fst selected) <->
                     key = pattern /\ In pattern (map fst flat).
Proof.
  intros flat pattern Hp Hproto.
  assert (H : exists selected, filterByPath flat pattern = Returns selected).
  { rewrite filterByPath_select. apply select_loop_plain_returns. intro Hin. apply Hproto.
    apply in_map_iff in Hin as (x & Hx & Hin). apply in_map_iff. exists x.
    split; [assumption | now apply (proj1 (in_entries _ _))]. }
  destruct H as [selected H]. exists selected. split; [exact H|]. intro key.
  rewrite (filterByPath_keys _ _ _ H key).
  unfold star_free in Hp. apply negb_true_iff in Hp.
  rewrite glob_literal by assumption. split.
  - intros [Hin E]. apply String.eqb_eq in E. subst. now split.
  - intros [-> Hin]. split; [assumption | apply String.eqb_refl].
Qed.

Lemma filterByPath_literal_pattern_witness :
  exists selected,
    filterByPath [("a.b", JNum 1%Z); ("axb", JNum 2%Z); ("a.b.c", JNull)] "a.b"
    = Returns selected
    /\ forall key, In key (map fst selected) <->
                   key = "a.b"
                   /\ In "a.b" (map fst [("a.b", JNum 1%Z); ("axb", JNum 2%Z); ("a.b.c", JNull)]).
Proof.
  apply (filterByPath_literal_pattern
           [("a.b", JNum 1%Z); ("axb", JNum 2%Z); ("a.b.c", JNull)] "a.b").
  - reflexivity.
  - simpl. intuition discriminate.
Defined.

Lemma glob_dots p : forall k, glob p k = true -> dots k = dots p.
Proof.
  induction p as [|c p IH]; intros k H.
  - destruct k; [reflexivity | discriminate].
  - cbn [glob] in H. destruct (Ascii.eqb c "*") eqn:Star.
    + apply Ascii.eqb_eq in Star. subst c. cbn [dots]. change (Ascii.eqb "*" ".") with false.
      cbn [Nat.add]. induction k as [|c' k IHk].
      * apply orb_true_iff in H as [H|H]; [now apply IH | discriminate].
      * apply orb_true_iff in H as [H|H]; [now apply IH|].
        apply andb_true_iff in H as [Hc' H]. apply negb_true_iff in Hc'.
        cbn [dots]. rewrite Hc'. cbn [Nat.add]. now apply IHk.
    + destruct k as [|c' k]; [discriminate|].
      apply andb_true_iff in H as [Hc H]. apply Ascii.eqb_eq in Hc. subst c'.
      cbn [dots]. now rewrite (IH k H).
Qed.

Lemma length_split_dot s : forall acc,
  List.length (Str.split_at "." "" acc s) = S (dots s).
Proof.
  induction s as [|c s IH]; intro acc; simp split_at; [reflexivity|].
  cbn [dots]. rewrite (Ascii.eqb_sym c ".").
  destruct (Ascii.eqb "." c); cbn [andb String.prefix]; [|apply IH].
  destruct s; cbn [String.prefix String.length Str.skip List.length]; now rewrite IH.
Qed.

Lemma segments_dots s : List.length (splitKey s ".") = S (dots s).
Proof. rewrite splitKey_split. apply length_split_dot. Qed.

(** X13. No pattern selects across levels: every path [filterByPath]
    selects has as many dot-separated steps as the pattern, whatever stars
    the pattern has, [**] included. *)
Theorem filterByPath_keeps_the_depth :
  forall (flat selected : FlatMap) (pattern : string),
    filterByPath flat pattern = Returns selected ->
    forall key, In key (map fst selected) ->
      List.length (splitKey key ".") = List.length (splitKey pattern ".").
Proof.
  intros flat selected pattern H key Hin.
  apply (filterByPath_keys _ _ _ H key) in Hin as [_ Hg].
  rewrite !segments_dots. f_equal. now apply glob_dots.
Qed.

Lemma filterByPath_keeps_the_depth_witness :
  List.length (splitKey "user.name" ".") = List.length (splitKey "**.name" ".").
Proof.
  apply (filterByPath_keeps_the_depth
           [("user.name", JStr "Jane"); ("user.address.name", JStr "x"); ("name", JNull)]
           [("user.name", JStr "Jane")] "**.name").
  - reflexivity.
  - simpl. auto.
Defined.

(** Keys of one step, and decoding an encoded path *)

Lemma split_at_no_occurrence a d' s : forall acc,
  occurs (String a d') s = false -> Str.split_at a d' acc s = [acc +++ s].
Proof.
  induction s as [|c s IH]; intros acc H; simp split_at.
  - now rewrite append_nil_r.
  - cbn [occurs] in H. apply orb_false_iff in H as [Hp Hs].
    rewrite prefix_cons in Hp. rewrite Hp. rewrite IH by assumption.
    now rewrite append_assoc.
Qed.

(** X17. For a delimiter that is not empty [splitKey] always returns at
    least one step, and it returns the key itself as the only step exactly
    when the delimiter does not occur in the key. *)
Theorem splitKey_of_a_single_step :
  forall (key d : string),
    d <> "" ->
    splitKey key d <> []
    /\ (splitKey key d = [key] <-> occurs d key = false).
Proof.
  intros key d Hd. rewrite splitKey_split. destruct d as [|a d']; [congruence|].
  unfold Str.split. split; [apply split_at_not_nil|]. split.
  - intro H. pose proof (split_at_empty_acc_pieces a d' key) as P.
    rewrite H in P. now inversion P.
  - intro H. now rewrite split_at_no_occurrence.
Qed.

Lemma splitKey_of_a_single_step_witness :
  splitKey "a:b" "::" = ["a:b"] <-> occurs "::" "a:b" = false.
Proof.
  apply (splitKey_of_a_single_step "a:b" "::"). discriminate.
Defined.

(** X18. Decoding undoes encoding: the path [flatten] builds from a
    non-empty list of steps is split by [splitKey] into these steps again,
    when no step contains the first character of the delimiter and the
    first step is not empty. *)
Theorem splitKey_of_encoded_path :
  forall (a : ascii) (d' : string) (steps : list string),
    steps <> [] ->
    hd_error steps <> Some "" ->
    Forall (fun step => Str.mem_char a step = false) steps ->
    splitKey (encode (String a d') steps) (String a d') = steps.
Proof.
  intros a d' steps Hne Hhd Hfree.
  rewrite encode_concat by assumption. now apply splitKey_concat.
Qed.

Lemma splitKey_of_encoded_path_witness :
  splitKey (encode "::" ["user"; "tags"; "0"]) "::" = ["user"; "tags"; "0"].
Proof.
  apply (splitKey_of_encoded_path ":" ":" ["user"; "tags"; "0"]).
  - discriminate.
  - discriminate.
  - repeat constructor.
Defined.

(** Command line *)

Lemma or_else_not_empty value fallback : fallback <> "" -> Cli.or_else value fallback <> "".
Proof. destruct value as [[|c s]|]; simpl; auto; discriminate. Qed.

Lemma parse_keeps_delimiter args : forall o,
  Cli.delimiter o <> "" -> Cli.delimiter (Cli.parse args o) <> "".
Proof.
  induction args as [args IH] using (induction_ltof1 _ (@List.length string)).
  unfold ltof in IH. intros o Ho. destruct args as [|arg rest]; [exact Ho|].
  assert (Hrest : forall o', Cli.delimiter o' <> "" ->
                             Cli.delimiter (Cli.parse rest o') <> "").
  { intros o'. apply IH. simpl. lia. }
  cbn [Cli.parse].
  repeat match goal with
         | |- context [if ?b then _ else _] => destruct b
         end;
    try (apply Hrest; exact Ho);
    (destruct rest as [|value rest']; [|apply IH; [simpl; lia|]]);
    cbn [Cli.delimiter Cli.set_filePath Cli.set_delimiter Cli.set_filterPattern];
    try exact Ho; apply or_else_not_empty; discriminate.
Qed.

Lemma given_cons names arg args :
  given names (arg :: args) = existsb (String.eqb arg) names || given names args.
Proof. reflexivity. Qed.

Lemma parse_flags args : forall o,
  Forall (fun arg => takes_value arg = false) args ->
  Cli.parse args o =
  {| Cli.filePath := if Cli.filePath o =? "" then first_positional args else Cli.filePath o;
     Cli.doUnflatten := Cli.doUnflatten o || given ["-u"; "--unflatten"] args;
     Cli.delimiter := Cli.delimiter o;
     Cli.filterPattern := Cli.filterPattern o;
     Cli.jsonOutput := Cli.jsonOutput o || given ["--json"] args;
     Cli.showStats := Cli.showStats o || given ["--stats"] args;
     Cli.compact := Cli.compact o || given ["--compact"] args;
     Cli.keysOnly := Cli.keysOnly o || given ["--keys-only"] args;
     Cli.valuesOnly := Cli.valuesOnly o || given ["--values-only"] args;
     Cli.countOnly := Cli.countOnly o || given ["--count"] args |}.
Proof.
  induction args as [|arg rest IH]; intros o H.
  - destruct o as [f u d p j s c k v n]. cbn [Cli.parse Cli.filePath Cli.doUnflatten
      Cli.delimiter Cli.filterPattern Cli.jsonOutput Cli.showStats Cli.compact
      Cli.keysOnly Cli.valuesOnly Cli.countOnly].
    unfold given, first_positional. cbn [existsb filter hd]. rewrite !orb_false_r.
    now destruct f.
  - inversion H as [|? ? Harg Hrest]; subst.
    unfold takes_value in Harg. cbn [existsb] in Harg.
    repeat (apply orb_false_iff in Harg as [?E Harg]).
    cbn [Cli.parse]. rewrite E, E0, E1, E2, E3. cbn [orb].
    destruct o as [f u d p j s c k v n].
    repeat match goal with
           | |- context [if (arg =? ?y) || _ then _ else _] =>
               destruct (String.eqb_spec arg y); [subst; cbn [orb]|cbn [orb]]
           | |- context [if (arg =? ?y) then _ else _] =>
               destruct (String.eqb_spec arg y); [subst|]
           end;
      try (rewrite (IH _ Hrest);
           cbn [Cli.filePath Cli.doUnflatten Cli.delimiter Cli.filterPattern
                Cli.jsonOutput Cli.showStats Cli.compact Cli.keysOnly Cli.valuesOnly
                Cli.countOnly Cli.set_doUnflatten Cli.set_jsonOutput Cli.set_showStats
                Cli.set_compact Cli.set_keysOnly Cli.set_valuesOnly Cli.set_countOnly
                Cli.set_filePath];
           rewrite !given_cons; unfold first_positional; cbn [filter];
           cbn [existsb String.eqb Ascii.eqb Bool.eqb Cli.starts_with_dash String.prefix
                negb andb orb hd];
           rewrite ?orb_true_r, ?orb_false_r; reflexivity).
  assert (G : forall names, Forall (fun name => arg <> name) names ->
                            given names (arg :: rest) = given names rest).
  { intros names Hn. rewrite given_cons.
    replace (existsb (String.eqb arg) names) with false; [reflexivity|].
    symmetry. induction Hn as [|name names Hne _ IHn]; [reflexivity|].
    simpl. rewrite IHn. now apply String.eqb_neq in Hne as ->. }
  rewrite !G by (repeat constructor; assumption).
  cbn [Cli.filePath Cli.doUnflatten Cli.delimiter Cli.filterPattern Cli.jsonOutput
       Cli.showStats Cli.compact Cli.keysOnly Cli.valuesOnly Cli.countOnly].
  unfold first_positional. cbn [filter].
  destruct (Cli.starts_with_dash arg), (String.eqb_spec f ""); cbn [negb andb];
    rewrite (IH _ Hrest);
    cbn [Cli.filePath Cli.doUnflatten Cli.delimiter Cli.filterPattern Cli.jsonOutput
         Cli.showStats Cli.compact Cli.keysOnly Cli.valuesOnly Cli.countOnly
         Cli.set_filePath];
    subst; cbn [String.eqb]; try reflexivity.
  all: f_equal;
    repeat match goal with
           | |- context [?x =? ""] => destruct (String.eqb_spec x "")
           end;
    cbn [negb hd]; try congruence; reflexivity.
Qed.

(** X14. The delimiter read from the command line is never empty: an
    empty or missing value of [-d] or [--delimiter] gives [.], so the
    command line never asks for a split into characters. *)
Theorem parsed_delimiter_is_not_empty :
  forall args : list string, Cli.delimiter (Cli.parse args Cli.initial) <> "".
Proof. intro args. apply parse_keeps_delimiter. discriminate. Qed.

(** X15. Arguments without the options that take a value ([-f], [--file],
    [-d], [--delimiter], [--filter]) are read as a set of flags, whatever
    their order and however often they are repeated, and the input file is
    the first argument that is not empty and does not start with a dash;
    arguments starting with a dash that name no option are ignored. *)
Theorem parse_of_flags :
  forall args : list string,
    Forall (fun arg => takes_value arg = false) args ->
    Cli.parse args Cli.initial =
    {| Cli.filePath := first_positional args;
       Cli.doUnflatten := given ["-u"; "--unflatten"] args;
       Cli.delimiter := ".";
       Cli.filterPattern := "";
       Cli.jsonOutput := given ["--json"] args;
       Cli.showStats := given ["--stats"] args;
       Cli.compact := given ["--compact"] args;
       Cli.keysOnly := given ["--keys-only"] args;
       Cli.valuesOnly := given ["--values-only"] args;
       Cli.countOnly := given ["--count"] args |}.
Proof. intros args H. now rewrite (parse_flags args Cli.initial H). Qed.

Lemma parse_of_flags_witness :
  Cli.parse ["--json"; "-x"; "data.json"; "-u"; "other.json"; "--json"] Cli.initial =
  {| Cli.filePath := "data.json";
     Cli.doUnflatten := true;
     Cli.delimiter := ".";
     Cli.filterPattern := "";
     Cli.jsonOutput := true;
     Cli.showStats := false;
     Cli.compact := false;
     Cli.keysOnly := false;
     Cli.valuesOnly := false;
     Cli.countOnly := false |}.
Proof.
  rewrite (parse_of_flags ["--json"; "-x"; "data.json"; "-u"; "other.json"; "--json"]).
  - reflexivity.
  - repeat constructor.
Defined.

Lemma parse_value_step arg value rest o :
  takes_value arg = true ->
  Cli.parse (arg :: value :: rest) o = Cli.parse rest (Cli.parse [arg; value] o).
Proof.
  intro H. unfold takes_value in H. cbn [existsb] in H.
  rewrite orb_false_r in H.
  cbn [Cli.parse].
  repeat match goal with
         | |- context [if (arg =? ?y) || _ then _ else _] =>
             destruct (String.eqb_spec arg y); [subst; cbn [orb]; try reflexivity|cbn [orb]]
         | |- context [if (arg =? ?y) then _ else _] =>
             destruct (String.eqb_spec arg y); [subst; try reflexivity|]
         end.
  all: exfalso;
    repeat match goal with
           | N : ?x <> _ |- _ => apply String.eqb_neq in N; rewrite N in H
           end;
    cbn in H; discriminate.
Qed.

Lemma parse_flag_step arg rest o :
  takes_value arg = false ->
  Cli.parse (arg :: rest) o = Cli.parse rest (Cli.parse [arg] o).
Proof.
  intro H. unfold takes_value in H. cbn [existsb] in H.
  repeat (apply orb_false_iff in H as [?E H]).
  cbn [Cli.parse]. rewrite E, E0, E1, E2, E3. cbn [orb].
  repeat match goal with
         | |- context [if ?b then _ else _] => destruct b; try reflexivity
         end.
Qed.

Lemma parse_app a : forall b o,
  complete a = true -> Cli.parse (a ++ b) o = Cli.parse b (Cli.parse a o).
Proof.
  induction a as [a IH] using (induction_ltof1 _ (@List.length string)).
  unfold ltof in IH. intros b o H. destruct a as [|arg rest]; [reflexivity|].
  cbn [complete] in H. destruct (takes_value arg) eqn:T.
  - destruct rest as [|value rest]; [discriminate|].
    cbn [app]. rewrite parse_value_step by assumption.
    rewrite (parse_value_step arg value rest) by assumption.
    apply IH; [simpl; lia | assumption].
  - cbn [app]. rewrite parse_flag_step by assumption.
    rewrite (parse_flag_step arg rest) by assumption.
    apply IH; [simpl; lia | assumption].
Qed.

(** X16. The arguments are read from left to right and an option that
    comes later overrides: when [a] does not end in an option waiting for
    its value, reading [a ++ b] is reading [b] from the options read in
    [a]; so a final [-d value] decides the delimiter and a final
    [--filter value] the pattern. *)
Theorem parse_left_to_right :
  forall (a b : list string) (o : Cli.Options) (value : string),
    complete a = true ->
    Cli.parse (a ++ b) o = Cli.parse b (Cli.parse a o)
    /\ Cli.delimiter (Cli.parse (a ++ ["-d"; value]) o)
       = (if value =? "" then "." else value)
    /\ Cli.filterPattern (Cli.parse (a ++ ["--filter"; value]) o) = value.
Proof.
  intros a b o value H. split; [now apply parse_app|].
  rewrite !parse_app by assumption. split.
  - destruct value; reflexivity.
  - destruct value; reflexivity.
Qed.

Lemma parse_left_to_right_witness :
  Cli.delimiter (Cli.parse (["-d"; "/"; "--json"] ++ ["-d"; "::"]) Cli.initial) = "::".
Proof.
  destruct (parse_left_to_right ["-d"; "/"; "--json"] [] Cli.initial "::") as (_ & H & _).
  - reflexivity.
  - exact H.
Defined.

(** The paths of a flat mapping lead to its values *)

Lemma indexed_nth items : forall i kd,
  In kd (indexed items i) ->
  exists j, fst kd = Str.of_index (i + N.of_nat j) /\ nth_error items j = Some (snd kd).
Proof.
  induction items as [|x items IH]; intros i kd H; [destruct H|].
  destruct H as [<-|H].
  - exists 0. split; [simpl; f_equal; lia | reflexivity].
  - destruct (IH _ _ H) as (j & Hk & Hn). exists (S j). split; [|exact Hn].
    rewrite Hk. f_equal. lia.
Qed.

Lemma get_distinct {A B} (f : A -> B) k x (props : list (string * A)) :
  NoDup (map fst props) -> In (k, x) props ->
  Obj.get k (map (fun kv => (fst kv, f (snd kv))) props) = Some (f x).
Proof.
  induction props as [|[k' x'] props IH]; intros Hnd Hin; [destruct Hin|].
  inversion Hnd as [|? ? Hnot Hrest]; subst. cbn [map fst snd Obj.get].
  destruct Hin as [E|Hin].
  - injection E as -> ->. now rewrite String.eqb_refl.
  - destruct (String.eqb_spec k' k) as [->|Hne]; [|now apply IH].
    exfalso. apply Hnot. apply in_map_iff. now exists (k, x).
Qed.

Lemma get_own_child a v k child :
  faithful a v = true -> In (k, child) (children v) ->
  get_own (of_json v) k = Some (of_json child).
Proof.
  intros Hv Hin. destruct v as [| | | |items|props]; try (destruct Hin).
  - apply faithful_items in Hv as [Hlen _]. cbn [children] in Hin.
    apply indexed_nth in Hin as (j & Hk & Hn). cbn [fst snd] in Hk, Hn. subst k.
    rewrite N.add_0_l. cbn [of_json get_own].
    assert (Hj : j < List.length items) by (apply nth_error_Some; congruence).
    rewrite of_index_array_index by lia. rewrite parseInt_of_index, Nat2N.id.
    rewrite nth_error_map, Hn. reflexivity.
  - apply faithful_props in Hv as [Hd _]. cbn [children] in Hin.
    cbn [of_json get_own]. apply get_distinct; [now apply distinct_NoDup | assumption].
Qed.

Lemma lookup_leaf_steps a v :
  faithful a v = true ->
  forall e, In e (leaf_steps v) -> lookup_path (of_json v) (fst e) = Some (of_json (snd e)).
Proof.
  induction v as [| b | n | s | items IH | props IH] using JsonValue_induction;
    intros Hv e He;
    try (destruct He as [<-|[]]; reflexivity).
  - destruct items as [|x items]; [destruct He as [<-|[]]; reflexivity|].
    rewrite leaf_steps_children in He by reflexivity.
    apply in_flat_map in He as ([k child] & Hkd & He).
    unfold subtree_steps, block in He. cbn [fst snd] in He.
    apply in_map_iff in He as (e0 & <- & He0). cbn [fst snd lookup_path].
    rewrite (get_own_child a _ k child Hv Hkd).
    pose proof (children_sub
                  (fun v => faithful a v = true -> forall e, In e (leaf_steps v) ->
                     lookup_path (of_json v) (fst e) = Some (of_json (snd e)))
                  (JArr (x :: items)) IH) as HC.
    rewrite Forall_forall in HC. apply (HC (k, child) Hkd); [|assumption].
    apply faithful_items in Hv as [_ Hall]. rewrite Forall_forall in Hall.
    apply Hall. cbn [children] in Hkd. apply indexed_In in Hkd as [Hin _]. exact Hin.
  - destruct props as [|kv props]; [destruct He as [<-|[]]; reflexivity|].
    rewrite leaf_steps_children in He by reflexivity.
    apply in_flat_map in He as ([k child] & Hkd & He).
    unfold subtree_steps, block in He. cbn [fst snd] in He.
    apply in_map_iff in He as (e0 & <- & He0). cbn [fst snd lookup_path].
    rewrite (get_own_child a _ k child Hv Hkd).
    rewrite Forall_forall in IH. apply (IH (k, child) Hkd); [|assumption].
    apply faithful_props in Hv as [_ Hall]. rewrite Forall_forall in Hall.
    now apply (Hall (k, child) Hkd).
Qed.

Lemma flatten_returned_no_proto d v flat :
  flatten v d = Returns flat -> ~ In "__proto__" (map fst (leaves d v "")).
Proof.
  unfold flatten. rewrite flatten_into_leaves. intros H Hin.
  destruct (assign_loop _ _ _ H) as (I1 & _ & _ & I4 & _).
  apply (I4 (fun F => F)). apply I1. now right.
Qed.

(** X19. The paths of a flat mapping address the tree: for a tree that
    round-trips, the steps [splitKey] reads in the key of an entry of
    [flatten(v, d)] lead, from the root of [v], to the value of that
    entry. *)
Theorem flatten_paths_address_the_tree :
  forall (v : JsonValue) (a : ascii) (d' : string) (flat : FlatMap),
    Str.is_digit a = false ->
    faithful a v = true ->
    is_leaf v = false ->
    flatten v (String a d') = Returns flat ->
    forall path value, In (path, value) flat ->
      lookup_path (of_json v) (splitKey path (String a d')) = Some (of_json value).
Proof.
  intros v a d' flat Ha Hv Hroot H path value Hin.
  rewrite (flatten_by_steps a d' v Ha Hv Hroot (flatten_returned_no_proto _ _ _ H)) in H.
  injection H as <-. apply in_map_iff in Hin as (e & E & He).
  unfold with_path in E. cbn [app] in E. injection E as <- <-.
  rewrite splitKey_concat.
  - now apply (lookup_leaf_steps a v).
  - now apply (steps_not_empty v).
  - now apply (steps_free a v).
Qed.

Lemma flatten_paths_address_the_tree_witness :
  lookup_path (of_json sample_tree) (splitKey "user.tags.1" ".") = Some (of_json (JStr "admin")).
Proof.
  apply (flatten_paths_address_the_tree sample_tree "." ""
           [("user.name", JStr "Jane"); ("user.tags.0", JStr "dev");
            ("user.tags.1", JStr "admin")]); try reflexivity.
  simpl. auto.
Defined.

Lemma walk_items_values_same d d2 items :
  Forall (fun x => forall p p2, map snd (leaves d x p) = map snd (leaves d2 x p2)) items ->
  forall i i2 p p2,
    map snd (walk_items d (map (leaves d) items) i p)
    = map snd (walk_items d2 (map (leaves d2) items) i2 p2).
Proof.
  induction 1 as [|x items Hx _ IH]; intros i i2 p p2; [reflexivity|].
  cbn [map walk_items]. rewrite !map_app. f_equal; [apply Hx | apply IH].
Qed.

Lemma leaves_values_same d d2 v : forall p p2,
  map snd (leaves d v p) = map snd (leaves d2 v p2).
Proof.
  induction v as [| b | n | s | items IH | props IH] using JsonValue_induction;
    intros p p2; try reflexivity.
  - destruct items as [|x items]; [reflexivity|]. cbn [leaves].
    now apply walk_items_values_same.
  - destruct props as [|kv props]; [reflexivity|]. cbn [leaves]. unfold walk_keys.
    rewrite !entries_map.
    assert (H : Forall (fun kv => forall p p2,
                  map snd (leaves d (snd kv) p) = map snd (leaves d2 (snd kv) p2))
                  (Obj.entries (kv :: props))).
    { apply Forall_forall. intros x Hx. apply (proj1 (in_entries _ _)) in Hx.
      rewrite Forall_forall in IH. now apply IH. }
    induction H as [|x l Hx _ IHl]; [reflexivity|].
    cbn [map flat_map fst snd]. rewrite !map_app. f_equal; [apply Hx | apply IHl].
Qed.

(** X20. The delimiter decides the keys only: flattening a tree with two
    delimiters gives, when with both the emitted paths are distinct and none
    is [__proto__], the same values in the same order of creation. *)
Theorem flatten_values_do_not_depend_on_the_delimiter :
  forall (v : JsonValue) (d d2 : string),
    NoDup (map fst (leaves d v "")) ->
    NoDup (map fst (leaves d2 v "")) ->
    ~ In "__proto__" (map fst (leaves d v "")) ->
    ~ In "__proto__" (map fst (leaves d2 v "")) ->
    exists flat flat2,
      flatten v d = Returns flat
      /\ flatten v d2 = Returns flat2
      /\ map snd flat = map snd flat2.
Proof.
  intros v d d2 Hnd Hnd2 Hp Hp2.
  exists (leaves d v ""), (leaves d2 v "").
  split; [now apply flatten_leaves|]. split; [now apply flatten_leaves|].
  apply leaves_values_same.
Qed.

Lemma flatten_values_do_not_depend_on_the_delimiter_witness :
  exists flat flat2,
    flatten sample_tree "." = Returns flat
    /\ flatten sample_tree "/" = Returns flat2
    /\ map snd flat = map snd flat2.
Proof.
  apply (flatten_values_do_not_depend_on_the_delimiter sample_tree "." "/");
    vm_compute; try (repeat constructor; simpl; intuition discriminate);
    intuition discriminate.
Defined.

(** Conflicting entries *)

Lemma builtin_name_spec k :
  builtin_name k = false ->
  Proto.mem k Proto.Object_ = false /\ Proto.mem k Proto.Array_ = false
  /\ Proto.mem k Proto.String_ = false /\ Proto.mem k Proto.Number_ = false
  /\ Proto.mem k Proto.Boolean_ = false.
Proof.
  unfold builtin_name. intro H.
  apply orb_false_iff in H as [H Hb]. apply orb_false_iff in H as [H Hn].
  apply orb_false_iff in H as [H Hs]. apply orb_false_iff in H as [Ho Ha].
  repeat split; assumption.
Qed.

Lemma Put_scalar_throws s k v :
  is_container s = false -> builtin_name k = false -> Put s k v = Throws TypeError.
Proof.
  intros Hs Hk. apply builtin_name_spec in Hk as (Ho & _).
  apply not_builtin_not_proto in Ho.
  destruct s; try discriminate; simpl; try rewrite Ho; reflexivity.
Qed.

Lemma inherits_builtin s k : builtin_name k = false -> Proto.inherits s k = false.
Proof.
  intro Hk. apply builtin_name_spec in Hk as (Ho & Ha & Hs & Hn & Hb).
  destruct s; unfold Proto.inherits; rewrite ?Ho, ?Ha, ?Hs, ?Hn, ?Hb; reflexivity.
Qed.

Lemma place_below_scalar ks : forall s v,
  is_container s = false ->
  Forall (fun k => builtin_name k = false) ks ->
  place s ks v = Throws TypeError.
Proof.
  induction ks as [|k ks IH]; intros s v Hs Hks.
  - change (place s [] v) with (Put s "undefined" v).
    now apply Put_scalar_throws.
  - inversion Hks as [|? ? Hk Hrest]; subst. destruct ks as [|next rest].
    + change (place s [k] v) with (Put s k v). now apply Put_scalar_throws.
    + rewrite place_walk. unfold Get.
      destruct s; try discriminate; try reflexivity;
        (destruct (get_own _ k) as [c|] eqn:G;
         [ cbn [bind]; rewrite (IH c v); [reflexivity | | assumption];
           eapply get_own_primitive; [|exact G]; reflexivity
         | rewrite inherits_builtin by assumption; cbn [bind]; cbv zeta;
           rewrite Put_scalar_throws by (reflexivity || assumption); reflexivity ]).
Qed.

Lemma place_through_scalar p : forall root s ks v,
  lookup_path root p = Some s ->
  is_container s = false ->
  ks <> [] ->
  Forall (fun k => builtin_name k = false) ks ->
  place root (p ++ ks) v = Throws TypeError.
Proof.
  induction p as [|k p IH]; intros root s ks v Hl Hs Hne Hks.
  - simpl in Hl. injection Hl as ->. now apply place_below_scalar.
  - cbn [lookup_path] in Hl. destruct (get_own root k) as [c|] eqn:G; [|discriminate].
    assert (Hrest : exists next rest, p ++ ks = next :: rest).
    { destruct p as [|k' p]; [|simpl; eauto].
      destruct ks as [|k' ks]; [congruence | simpl; eauto]. }
    destruct Hrest as (next & rest & E). cbn [app]. rewrite E, place_walk.
    rewrite (Get_found _ _ _ G). cbn [bind]. rewrite <- E.
    now rewrite (IH c s ks v Hl Hs Hne Hks).
Qed.

(** C6, as amended.  [unflatten] has no failure value for entries that
    disagree about a path.  Paths with a step that names a property of a
    builtin prototype ([constructor], [toString], [length], [__proto__] and
    the like) are left aside: there the walk enters the builtin object.
    For the other paths: an assignment that completes has stored its value
    at its path whatever an earlier entry had left there, so a scalar
    assigned at [a] after [a.b] silently replaces the container (last write
    wins); and an entry whose path continues below a scalar or [null]
    left by an earlier entry, at whatever depth, throws a [TypeError]. *)
Theorem C6_conflicts_are_not_reported :
  forall (root : JsValue) (keys : list string) (key : string) (value root' : JsValue),
    place root (keys ++ [key]) value = Returns root' ->
    lookup_path root' (keys ++ [key]) = Some value
    /\ (forall (tree s : JsValue) (p ks : list string) (v : JsValue),
          lookup_path tree p = Some s ->
          is_container s = false ->
          ks <> [] ->
          Forall (fun k => builtin_name k = false) ks ->
          place tree (p ++ ks) v = Throws TypeError)
    /\ (forall (s : JsValue) (ks : list string) (v : JsValue),
          is_container s = false ->
          Forall (fun k => builtin_name k = false) ks ->
          place s ks v = Throws TypeError)
    /\ (forall (s : JsValue) (ks : list string) (v : JsValue),
          is_container s = false ->
          place s ks v = Throws TypeError \/ place s ks v = Exotic)
    /\ unflatten [("a.b", JNum 1%Z); ("a", JNum 2%Z)] "." = Returns (VObj [("a", VNum 2%Z)])
    /\ unflatten [("a", JNum 1%Z); ("a.b", JNum 2%Z)] "." = Throws TypeError.
Proof.
  intros root keys key value root' H.
  split; [|split; [|split; [|split; [|split; reflexivity]]]].
  - eapply last_write_wins; eauto.
  - intros tree s p ks v Hl Hs Hne Hks. now apply (place_through_scalar p tree s).
  - intros s ks v Hs Hks. now apply place_below_scalar.
  - intros s ks v Hs. now apply place_primitive_throws.
Qed.

Lemma C6_witness :
  lookup_path (VObj [("a", VNum 2%Z)]) ["a"] = Some (VNum 2%Z)
  /\ place (VObj [("a", VObj [("b", VNum 1%Z)])]) (["a"; "b"] ++ ["c"; "d"]) (VNum 2%Z)
     = Throws TypeError.
Proof.
  destruct (C6_conflicts_are_not_reported (VObj [("a", VObj [("b", VNum 1%Z)])]) [] "a"
              (VNum 2%Z) (VObj [("a", VNum 2%Z)]) eq_refl) as (H1 & H2 & _).
  split; [exact H1|].
  apply (H2 _ (VNum 1%Z)); [reflexivity | reflexivity | discriminate | repeat constructor].
Defined.

(** The claim C6 as stated fails: the entry [a.b] is overwritten without
    any failure being reported. *)
Lemma C6_counterexample :
  unflatten [("a.b", JNum 1%Z); ("a", JNum 2%Z)] "." = Returns (VObj [("a", VNum 2%Z)])
  /\ unflatten [("a.b", JNum 1%Z); ("a", JNum 2%Z)] "." = unflatten [("a", JNum 2%Z)] ".".
Proof. split; reflexivity. Qed.

(** Patterns as literal frames *)

Lemma glob_loose pattern : forall path, glob pattern path = true -> loose pattern path = true.
Proof.
  induction pattern as [|p pattern IH]; intros path H.
  - exact H.
  - cbn [glob] in H. cbn [loose]. destruct (Ascii.eqb p "*").
    + induction path as [|c path IHp].
      * apply orb_true_iff in H as [H|H]; [|discriminate].
        apply orb_true_iff. left. now apply IH.
      * apply orb_true_iff in H as [H|H]; apply orb_true_iff.
        -- left. now apply IH.
        -- right. apply andb_true_iff in H as [_ H]. now apply IHp.
    + destruct path as [|c path]; [discriminate|].
      apply andb_true_iff in H as [Hc H]. now rewrite Hc, (IH path H).
Qed.

(** C2, as amended.  In a compiled filter pattern the characters other
    than [*] are matched literally, the regular expression metacharacters
    being escaped, and the match is anchored at both ends: a path that the
    pattern accepts is the pattern with a run of characters in the place
    of each [*]; and a path that is the pattern with a run of characters
    other than [.] in the place of each [*] is accepted.  So whatever the
    flat mapping, [filterByPath] selects only keys of this form; [**.name]
    selects [user.name] when it is there and never the bare path [name]:
    the dot written in the pattern has to be in the path.  What runs with
    a dot the pair [**] may stand for is left open. *)
Theorem C2_double_star_pattern_keeps_its_dot :
  forall (flat : FlatMap) (pattern : string),
    (exists regex,
        Regex.parse (regex_source pattern) = Some regex
        /\ (forall path, Regex.test regex path = true -> loose pattern path = true)
        /\ (forall path, glob pattern path = true -> Regex.test regex path = true))
    /\ (forall selected,
          filterByPath flat pattern = Returns selected ->
          forall key, In key (map fst selected) ->
            In key (map fst flat) /\ loose pattern key = true)
    /\ (exists selected,
          filterByPath flat "**.name" = Returns selected
          /\ (In "user.name" (map fst selected) <-> In "user.name" (map fst flat))
          /\ ~ In "name" (map fst selected)).
Proof.
  intros flat pattern. split; [|split].
  - eexists. split; [apply parse_regex_source|]. split; intro path.
    + rewrite test_glob. apply glob_loose.
    + now rewrite test_glob.
  - intros selected H key Hin. apply (filterByPath_keys _ _ _ H key) in Hin as [Hin Hg].
    split; [assumption | now apply glob_loose].
  - destruct (select_loop_returns (glob "**.name") (Obj.entries flat) []) as [r Hr];
      [reflexivity|].
    rewrite <- filterByPath_select in Hr. exists r. split; [exact Hr|].
    pose proof (filterByPath_keys _ _ _ Hr) as K. split.
    + rewrite K. change (glob "**.name" "user.name") with true. tauto.
    + rewrite K. change (glob "**.name" "name") with false. intros [_ ?]. discriminate.
Qed.

Lemma C2_witness :
  In "a.name" (map fst [("a.name", JNum 1%Z); ("a+name", JNum 2%Z); ("a.names", JNum 3%Z)])
  /\ loose "**.name" "a.name" = true.
Proof.
  destruct (C2_double_star_pattern_keeps_its_dot
              [("a.name", JNum 1%Z); ("a+name", JNum 2%Z); ("a.names", JNum 3%Z)]
              "**.name") as (_ & H & _).
  apply (H [("a.name", JNum 1%Z)]); [reflexivity | simpl; auto].
Defined.

(** The claim C2 as stated fails: [**.name] does not select the bare path
    [name]. *)
Lemma C2_counterexample :
  filterByPath [("name", JStr "root")] "**.name" = Returns []
  /\ (flat <- flatten (JObj [("user", JObj [("name", JStr "John")]);
                             ("name", JStr "root")]) "." ;;
      filterByPath flat "**.name") = Returns [("user.name", JStr "John")].
Proof. split; reflexivity. Qed.

(** The paths of [flatten] as encoded steps *)

Lemma encode_snoc d ks k : encode d (ks ++ [k]) = child_path (encode d ks) d k.
Proof. unfold encode. now rewrite fold_left_app. Qed.

Lemma encode_drop_empty d steps : encode d steps = String.concat d (drop_empty steps).
Proof.
  induction steps as [|k steps IH]; [reflexivity|].
  destruct k as [|c k].
  - cbn [drop_empty]. rewrite <- IH. reflexivity.
  - cbn [drop_empty]. apply encode_concat. discriminate.
Qed.

Lemma in_block k steps (x : JsonValue) S :
  In (steps, x) (block k S) <-> exists rest, steps = k :: rest /\ In (rest, x) S.
Proof.
  unfold block. rewrite in_map_iff. split.
  - intros ([rest y] & E & Hin). injection E as <- <-. now exists rest.
  - intros (rest & -> & Hin). now exists (rest, x).
Qed.

Lemma walk_items_in_steps d items :
  Forall (fun v => forall ks p x,
            In (p, x) (leaves d v (encode d ks)) <->
            exists steps, In (steps, x) (leaf_steps v) /\ p = encode d (ks ++ steps))
    items ->
  forall i ks p x,
    In (p, x) (walk_items d (map (leaves d) items) i (encode d ks)) <->
    exists steps, In (steps, x) (steps_items (map leaf_steps items) i)
                  /\ p = encode d (ks ++ steps).
Proof.
  induction 1 as [|v items Hv _ IH]; intros i ks p x.
  - simpl. split; [intros [] | intros (steps & [] & _)].
  - cbn [map walk_items steps_items]. rewrite in_app_iff, IH.
    rewrite <- encode_snoc, Hv. split.
    + intros [(steps & Hin & ->)|(steps & Hin & ->)].
      * exists (Str.of_index i :: steps). split.
        -- apply in_or_app. left. apply in_block. now exists steps.
        -- now rewrite <- app_assoc.
      * exists steps. split; [apply in_or_app; now right | reflexivity].
    + intros (steps & Hin & ->). apply in_app_or in Hin as [Hin|Hin].
      * left. apply in_block in Hin as (rest & -> & Hin). exists rest.
        split; [assumption | now rewrite <- app_assoc].
      * right. now exists steps.
Qed.

Lemma leaves_in_steps d v : forall ks p x,
  In (p, x) (leaves d v (encode d ks)) <->
  exists steps, In (steps, x) (leaf_steps v) /\ p = encode d (ks ++ steps).
Proof.
  assert (Leaf : forall w ks p x, leaves d w (encode d ks) = [(encode d ks, w)] ->
            leaf_steps w = [([], w)] ->
            (In (p, x) (leaves d w (encode d ks)) <->
             exists steps, In (steps, x) (leaf_steps w) /\ p = encode d (ks ++ steps))).
  { intros w ks p x -> ->. split.
    - intros [E|[]]. injection E as <- <-. exists []. split; [now left|].
      now rewrite app_nil_r.
    - intros (steps & [E|[]] & ->). injection E as <- <-. left. now rewrite app_nil_r. }
  induction v as [| b | n | s | items IH | props IH] using JsonValue_induction;
    intros ks p x; try (apply Leaf; reflexivity).
  - destruct items as [|v items]; [apply Leaf; reflexivity|].
    cbn [leaves leaf_steps]. now apply walk_items_in_steps.
  - destruct props as [|kv props]; [apply Leaf; reflexivity|].
    cbn [leaves leaf_steps]. unfold walk_keys. rewrite entries_map.
    split.
    + intro Hin. apply in_flat_map in Hin as (kw & Hkw & Hin). apply in_map_iff in Hkw as (kv0 & <- & Hkv0).
      cbn [fst snd] in Hin. apply (proj1 (in_entries _ _)) in Hkv0.
      rewrite <- encode_snoc in Hin. rewrite Forall_forall in IH.
      apply (IH kv0 Hkv0) in Hin as (steps & Hin & ->).
      exists (fst kv0 :: steps). split.
      * apply in_flat_map. exists kv0. split; [assumption|].
        apply in_block. now exists steps.
      * now rewrite <- app_assoc.
    + intros (steps & Hin & ->). apply in_flat_map in Hin as (kv0 & Hkv0 & Hin).
      apply in_block in Hin as (rest & -> & Hin).
      apply in_flat_map. exists (fst kv0, leaves d (snd kv0)). split.
      * apply in_map_iff. exists kv0. split; [reflexivity|]. now apply (proj2 (in_entries _ _)).
      * cbn [fst snd]. rewrite <- encode_snoc. rewrite Forall_forall in IH.
        apply (IH kv0 Hkv0). exists rest. split; [assumption | now rewrite <- app_assoc].
Qed.

(** C9, as amended.  Path codec: for every path and every non-empty
    delimiter, of one or of several characters, [splitKey] cuts the path at
    literal occurrences of the whole delimiter: joining the pieces with the
    delimiter gives the path back and no piece contains the delimiter.
    Encoding joins the steps with the delimiter after dropping the empty
    steps at the front, an empty prefix standing for the root and taking no
    delimiter; and the keys of [flatten(v, d)] are exactly the encoded
    step lists of the leaves of [v], map keys and sequence indices alike,
    each with the value of its leaf, whenever none of them is [__proto__].
    In particular flattening [{"user": {"name": "John"}}] with delimiter
    [/] gives exactly [{"user/name": "John"}]. *)
Theorem C9_path_codec :
  forall (key d : string) (v : JsonValue),
    d <> "" ->
    String.concat d (splitKey key d) = key
    /\ Forall (fun piece => occurs d piece = false) (splitKey key d)
    /\ (forall steps, encode d steps = String.concat d (drop_empty steps))
    /\ (~ In "__proto__" (map (fun e => encode d (fst e)) (leaf_steps v)) ->
        exists flat,
          flatten v d = Returns flat
          /\ (forall path value, In (path, value) flat ->
                exists steps, In (steps, value) (leaf_steps v) /\ path = encode d steps)
          /\ (forall steps value, In (steps, value) (leaf_steps v) ->
                In (encode d steps) (map fst flat)))
    /\ splitKey "a::b:c::d" "::" = ["a"; "b:c"; "d"]
    /\ flatten (JObj [("user", JObj [("name", JStr "John")])]) "/"
       = Returns [("user/name", JStr "John")].
Proof.
  intros key d v Hd. rewrite splitKey_split.
  split; [|split; [|split; [|split; [|split; reflexivity]]]].
  - destruct d as [|a d']; [congruence|]. apply concat_split_at.
  - destruct d as [|a d']; [congruence|]. apply split_at_empty_acc_pieces.
  - intro steps. apply encode_drop_empty.
  - intro Hp.
    assert (Hp' : ~ In "__proto__" (map fst (leaves d v ""))).
    { intro Hin. apply Hp. apply in_map_iff in Hin as ([p x] & E & Hin).
      cbn [fst] in E. subst p.
      apply (leaves_in_steps d v [] "__proto__" x) in Hin as (steps & Hin & E).
      apply in_map_iff. exists (steps, x). split; [now rewrite E | assumption]. }
    unfold flatten. rewrite flatten_into_leaves.
    destruct (assign_loop_returns (leaves d v "") [] Hp') as [flat H].
    exists flat. split; [exact H|].
    destruct (assign_loop _ _ _ H) as (I1 & _ & I3 & _). split.
    + intros path value Hin. destruct (I3 _ Hin) as [[]|Hl].
      now apply (leaves_in_steps d v [] path value) in Hl.
    + intros steps value Hin. apply I1. right.
      apply in_map_iff. exists (encode d steps, value). split; [reflexivity|].
      apply (leaves_in_steps d v [] (encode d steps) value). now exists steps.
Qed.

Lemma C9_witness :
  String.concat "::" (splitKey "a::b:c::d" "::") = "a::b:c::d"
  /\ exists flat,
       flatten (JObj [("", JObj [("c", JArr [JNum 7%Z; JNull])])]) "::" = Returns flat
       /\ In (encode "::" [""; "c"; "1"]) (map fst flat).
Proof.
  destruct (C9_path_codec "a::b:c::d" "::" (JObj [("", JObj [("c", JArr [JNum 7%Z; JNull])])]))
    as (H & _ & _ & Hflat & _).
  - discriminate.
  - split; [exact H|]. destruct Hflat as (flat & Hf & _ & Hall).
    + simpl. intuition discriminate.
    + exists flat. split; [exact Hf|]. apply (Hall [""; "c"; "1"] JNull). simpl. auto.
Defined.

(** The claim C9 as stated fails: the steps [""] and [c] joined with [/]
    are [/c], and [flatten] emits the path [c]. *)
Lemma C9_counterexample :
  flatten (JObj [("", JObj [("c", JNum 7%Z)])]) "/" = Returns [("c", JNum 7%Z)]
  /\ String.concat "/" [""; "c"] = "/c"
  /\ encode "/" [""; "c"] = "c".
Proof. repeat split. Qed.
